(** * node-ejson: a shallow embedding of [ejson.js]

    The development follows the source file top to bottom:
    [parseEncryptedValue] (the token parser), [encrypt] / [decrypt] (the box
    codec on top of [Buffer] and [nacl.box]), [processObjectFields] (the
    document walker) and [processEjson] (the entry point).  The module
    [Config] has the entry point on a configuration object, with
    [defaultConfig], [mergeConfigs] and [getConfigJson]; there the
    environment variables and the files the program reads are explicit.

    Conventions of the model.
    - A JavaScript string is represented by the bytes of its UTF-8 encoding,
      one [ascii] per byte.  All characters the program inspects ([_], [E],
      [J], the bracket, digits, the base64 alphabet, [:]) are single bytes,
      so [startsWith], [slice(1)] and the fixed field widths of the regular
      expression mean the same on bytes and on UTF-16 code units.  The
      base64 and hexadecimal decoders of [Buffer] read code units, which
      are computed from the bytes ([code_unit_bytes]).
    - A [throw] is a value [Throw e] of the result type; [e] records the
      constructor of the JavaScript error and its message. *)

From Stdlib Require Import String Ascii List ZArith NArith Bool Lia Arith.
From Stdlib Require Import DecimalString DecimalN DecimalPos.
From Stdlib Require PrimInt63 Uint63Axioms Sint63Axioms.
Import ListNotations.

Set Warnings "-register-all".


(* ================================================================== *)
(** * Part I. Definitions                                              *)
(* ================================================================== *)

(** ** Errors and results *)

Inductive js_error : Type :=
| Error (message : string)       (* [new Error(message)] *)
| TypeError (message : string).  (* raised by the runtime itself *)

Inductive result (A : Type) : Type :=
| Ok (a : A)
| Throw (e : js_error).

Arguments Ok {A} a.
Arguments Throw {A} e.

(** ** Characters and strings *)

Definition code (c : ascii) : N := N_of_ascii c.

Definition in_range (lo hi : N) (c : ascii) : bool :=
  (lo <=? code c)%N && (code c <=? hi)%N.

(** [\d] without the [u] or [v] flag: the ten ASCII digits. *)
Definition is_digit (c : ascii) : bool := in_range 48 57 c.

(** The class [[A-Za-z0-9+=/]]. *)
Definition is_b64_class (c : ascii) : bool :=
  in_range 65 90 c || in_range 97 122 c || in_range 48 57 c
  || Ascii.eqb c "+" || Ascii.eqb c "=" || Ascii.eqb c "/".

(** [s.startsWith(p)]. *)
Fixpoint startsWith (s p : string) : bool :=
  match p with
  | EmptyString => true
  | String a p' =>
      match s with
      | EmptyString => false
      | String b s' => Ascii.eqb a b && startsWith s' p'
      end
  end.

(** [s.slice(1)]. *)
Definition slice1 (s : string) : string :=
  match s with
  | EmptyString => EmptyString
  | String _ s' => s'
  end.

(** [.] without the [s] flag matches any code unit except the four line
    terminators LF, CR, U+2028 and U+2029.  On the UTF-8 bytes of a string
    the last two are the sequences E2 80 A8 and E2 80 A9. *)
Fixpoint has_line_terminator (s : string) : bool :=
  match s with
  | EmptyString => false
  | String c s' =>
      (code c =? 10)%N || (code c =? 13)%N
      || match s' with
         | String c1 (String c2 _) =>
             (code c =? 226)%N && (code c1 =? 128)%N
             && ((code c2 =? 168)%N || (code c2 =? 169)%N)
         | _ => false
         end
      || has_line_terminator s'
  end.

Definition all_chars (p : ascii -> bool) (s : string) : bool :=
  forallb p (list_ascii_of_string s).

(** ** The regular expression of [parseEncryptedValue]

    [/^EJ\[(\d):([A-Za-z0-9+=/]{44}):([A-Za-z0-9+=/]{32}):(.+)]$/]

    The pattern is a sequence of literals, fixed-width character classes
    and one greedy [.+] followed by the last literal and the end anchor, so
    a match is decided left to right without choice: the only part that
    backtracks, [(.+)]$], succeeds exactly when the rest ends in a bracket
    and what precedes the bracket is a non-empty run of [.] characters. *)

(** A literal piece of the pattern. *)
Fixpoint lit (p s : string) : option string :=
  match p with
  | EmptyString => Some s
  | String a p' =>
      match s with
      | EmptyString => None
      | String b s' => if Ascii.eqb a b then lit p' s' else None
      end
  end.

(** [(cls{n})]: a capture group of exactly [n] characters of a class. *)
Fixpoint cls (p : ascii -> bool) (n : nat) (s : string) : option (string * string) :=
  match n with
  | O => Some (EmptyString, s)
  | S n' =>
      match s with
      | EmptyString => None
      | String c s' =>
          if p c then
            match cls p n' s' with
            | Some (f, r) => Some (String c f, r)
            | None => None
            end
          else None
      end
  end.

(** Splits off the last character. *)
Fixpoint unsnoc (s : string) : option (string * ascii) :=
  match s with
  | EmptyString => None
  | String c s' =>
      match unsnoc s' with
      | None => Some (EmptyString, c)
      | Some (i, l) => Some (String c i, l)
      end
  end.

(** [(.+)]$]. *)
Definition dots_bracket_end (s : string) : option string :=
  match unsnoc s with
  | Some (String c b, l) =>
      if Ascii.eqb l "]" && negb (has_line_terminator (String c b))
      then Some (String c b) else None
  | _ => None
  end.

(** [value.match(ejsonRegex)]: the capture groups 1 to 4 of a match. *)
Definition ejsonRegex (value : string) : option (ascii * string * string * string) :=
  match lit "EJ[" value with
  | Some (String d r0) =>
      if is_digit d then
        match lit ":" r0 with
        | Some r1 =>
            match cls is_b64_class 44 r1 with
            | Some (pub, r2) =>
                match lit ":" r2 with
                | Some r3 =>
                    match cls is_b64_class 32 r3 with
                    | Some (non, r4) =>
                        match lit ":" r4 with
                        | Some r5 =>
                            match dots_bracket_end r5 with
                            | Some bx => Some (d, pub, non, bx)
                            | None => None
                            end
                        | None => None
                        end
                    | None => None
                    end
                | None => None
                end
            | None => None
            end
        | None => None
        end
      else None
  | _ => None
  end.

(** ** [parseEncryptedValue] *)

Record token : Type := {
  schemaVersion : Z;
  encrypterPublic : string;
  nonce : string;
  box : string
}.

(** [parseInt] of a one-digit string. *)
Definition parseInt_digit (d : ascii) : Z := Z.of_N (code d) - 48.

Definition parseEncryptedValue (value : string) : result token :=
  match ejsonRegex value with
  | None => Throw (Error ("Invalid EJSON: " ++ value))
  | Some (d, pub, non, bx) =>
      Ok {| schemaVersion := parseInt_digit d;
            encrypterPublic := pub;
            nonce := non;
            box := bx |}
  end.

(** The grammar of the token as the specification words it (used to state
    the parser's correctness): [EJ[] digit [:] 44 class characters [:] 32
    class characters [:] ciphertext []]. *)
Definition token_text (d : ascii) (pub non bx : string) : string :=
  ("EJ[" ++ String d (":" ++ pub ++ ":" ++ non ++ ":" ++ bx ++ "]"))%string.

Definition fields_ok (d : ascii) (pub non bx : string) : Prop :=
  is_digit d = true /\
  String.length pub = 44 /\ all_chars is_b64_class pub = true /\
  String.length non = 32 /\ all_chars is_b64_class non = true /\
  bx <> EmptyString.

(** ** A small error monad for code that may throw *)

Definition bind {A B : Type} (m : result A) (k : A -> result B) : result B :=
  match m with
  | Ok a => k a
  | Throw e => Throw e
  end.

Notation "x <- m ;; k" := (bind m (fun x => k))
  (at level 61, m at next level, right associativity).

(** ** [Buffer]: text encodings

    [Buffer] is Node's byte array.  A buffer is a list of bytes, each a [Z]
    in [0, 256).  The three encodings the program uses are modelled after
    Node's documented (lenient) behaviour: none of the decoders throws. *)

Definition bytes : Type := list Z.

Local Open Scope Z_scope.

Definition byte_of (c : ascii) : Z := Z.of_N (code c).
Definition char_of (b : Z) : ascii := ascii_of_N (Z.to_N (b mod 256)).

Definition bytes_of_string (s : string) : bytes := map byte_of (list_ascii_of_string s).
Definition string_of_bytes (b : bytes) : string := string_of_list_ascii (map char_of b).

(** [Buffer.from(s, 'utf8')]: the UTF-8 bytes of the string, which are the
    bytes that represent it here. *)
Definition Buffer_from_utf8 (s : string) : bytes := bytes_of_string s.

(** [buf.toString('utf8')]: a well-formed sequence is kept; every maximal
    ill-formed part is replaced by U+FFFD (EF BF BD), the offending byte
    being looked at again. *)
Definition is_cont (lo hi b : Z) : bool := (lo <=? b) && (b <=? hi).

Definition replacement : bytes := [239; 191; 189].

(** One decoding step: the well-formed sequence read at the head, or
    [None] when the head is ill-formed, and the input left. *)
Definition utf8_step (b0 : Z) (r : bytes) : option bytes * bytes :=
  if b0 <? 128 then (Some [b0], r)
  else if (194 <=? b0) && (b0 <=? 223) then
    match r with
    | b1 :: r1 => if is_cont 128 191 b1 then (Some [b0; b1], r1) else (None, r)
    | [] => (None, r)
    end
  else if (224 <=? b0) && (b0 <=? 239) then
    let lo := if b0 =? 224 then 160 else 128 in
    let hi := if b0 =? 237 then 159 else 191 in
    match r with
    | b1 :: r1 =>
        if is_cont lo hi b1 then
          match r1 with
          | b2 :: r2 =>
              if is_cont 128 191 b2 then (Some [b0; b1; b2], r2) else (None, r1)
          | [] => (None, r1)
          end
        else (None, r)
    | [] => (None, r)
    end
  else if (240 <=? b0) && (b0 <=? 244) then
    let lo := if b0 =? 240 then 144 else 128 in
    let hi := if b0 =? 244 then 143 else 191 in
    match r with
    | b1 :: r1 =>
        if is_cont lo hi b1 then
          match r1 with
          | b2 :: r2 =>
              if is_cont 128 191 b2 then
                match r2 with
                | b3 :: r3 =>
                    if is_cont 128 191 b3 then (Some [b0; b1; b2; b3], r3)
                    else (None, r2)
                | [] => (None, r2)
                end
              else (None, r1)
          | [] => (None, r1)
          end
        else (None, r)
    | [] => (None, r)
    end
  else (None, r).

Definition emitted (o : option bytes) : bytes :=
  match o with
  | Some seq => seq
  | None => replacement
  end.

Fixpoint utf8_decode (fuel : nat) (b : bytes) : bytes :=
  match fuel with
  | O => []
  | S fuel' =>
      match b with
      | [] => []
      | b0 :: r => let (o, rest) := utf8_step b0 r in emitted o ++ utf8_decode fuel' rest
      end
  end.

(** Every step consumes at least one byte, so [length b] steps suffice. *)
Definition toString_utf8 (b : bytes) : string :=
  string_of_bytes (utf8_decode (length b) b).

(** A string is well-formed text when every byte is a byte and decoding
    replaces nothing. *)
Fixpoint utf8_wf (fuel : nat) (b : bytes) : bool :=
  match fuel with
  | O => match b with [] => true | _ => false end
  | S fuel' =>
      match b with
      | [] => true
      | b0 :: r =>
          match utf8_step b0 r with
          | (Some _, rest) => utf8_wf fuel' rest
          | (None, _) => false
          end
      end
  end.

Definition well_formed (s : string) : bool :=
  let b := bytes_of_string s in utf8_wf (length b) b.

(** The decoders of [Buffer.from(s, 'base64')] and [Buffer.from(s, 'hex')]
    read the string by its UTF-16 code units and look at the low byte of
    each, so that a code unit of U+0100 or above counts as the character
    of its low byte.  The code units are computed from the UTF-8 bytes
    that represent the string here: a character above U+FFFF is a pair of
    surrogates, and a byte outside a well-formed sequence, which no
    JavaScript string gives, is read as U+FFFD. *)
Definition code_point (seq : bytes) : Z :=
  match seq with
  | [b0] => b0
  | [b0; b1] => Z.land b0 31 * 64 + Z.land b1 63
  | [b0; b1; b2] => Z.land b0 15 * 4096 + Z.land b1 63 * 64 + Z.land b2 63
  | [b0; b1; b2; b3] =>
      Z.land b0 7 * 262144 + Z.land b1 63 * 4096 + Z.land b2 63 * 64 + Z.land b3 63
  | _ => 65533
  end.

Definition utf16 (cp : Z) : list Z :=
  if cp <? 65536 then [cp]
  else [55296 + (cp - 65536) / 1024; 56320 + (cp - 65536) mod 1024].

Fixpoint code_units (fuel : nat) (b : bytes) : list Z :=
  match fuel with
  | O => []
  | S fuel' =>
      match b with
      | [] => []
      | b0 :: r =>
          let (o, rest) := utf8_step b0 r in
          utf16 (match o with Some seq => code_point seq | None => 65533 end)
          ++ code_units fuel' rest
      end
  end.

(** The low bytes of the code units of a string, as characters. *)
Definition code_unit_bytes (s : string) : list ascii :=
  let b := bytes_of_string s in map char_of (code_units (length b) b).

(** A character of one byte. *)
Definition is_ascii (c : ascii) : bool := (code c <? 128)%N.

(** [Buffer.from(s, 'base64')].  Node's decoder reads the low byte of
    every code unit; it also takes the URL-safe alphabet, skips every
    character outside the alphabets and stops at the first [=]; what is
    left over after the last full group of four gives one byte (two
    characters), two bytes (three) or nothing (one). *)
Definition b64_value (c : ascii) : option Z :=
  let n := byte_of c in
  if in_range 65 90 c then Some (n - 65)
  else if in_range 97 122 c then Some (n - 97 + 26)
  else if in_range 48 57 c then Some (n - 48 + 52)
  else if Ascii.eqb c "+" || Ascii.eqb c "-" then Some 62
  else if Ascii.eqb c "/" || Ascii.eqb c "_" then Some 63
  else None.

Fixpoint b64_sextets (l : list ascii) : list Z :=
  match l with
  | [] => []
  | c :: r =>
      if Ascii.eqb c "=" then []
      else match b64_value c with
           | Some v => v :: b64_sextets r
           | None => b64_sextets r
           end
  end.

Fixpoint b64_groups (l : list Z) : bytes :=
  match l with
  | a :: b :: c :: d :: r =>
      Z.lor (Z.shiftl a 2) (Z.shiftr b 4)
      :: Z.lor (Z.shiftl (Z.land b 15) 4) (Z.shiftr c 2)
      :: Z.lor (Z.shiftl (Z.land c 3) 6) d
      :: b64_groups r
  | [a; b; c] =>
      [Z.lor (Z.shiftl a 2) (Z.shiftr b 4);
       Z.lor (Z.shiftl (Z.land b 15) 4) (Z.shiftr c 2)]
  | [a; b] => [Z.lor (Z.shiftl a 2) (Z.shiftr b 4)]
  | _ => []
  end.

Definition Buffer_from_base64 (s : string) : bytes :=
  b64_groups (b64_sextets (code_unit_bytes s)).

(** [buf.toString('base64')]: the standard alphabet, padded. *)
Definition b64_char (v : Z) : ascii :=
  if v <? 26 then char_of (v + 65)
  else if v <? 52 then char_of (v - 26 + 97)
  else if v <? 62 then char_of (v - 52 + 48)
  else if v =? 62 then "+"%char
  else "/"%char.

Fixpoint b64_encode (b : bytes) : list ascii :=
  match b with
  | x :: y :: z :: r =>
      b64_char (Z.shiftr x 2)
      :: b64_char (Z.lor (Z.shiftl (Z.land x 3) 4) (Z.shiftr y 4))
      :: b64_char (Z.lor (Z.shiftl (Z.land y 15) 2) (Z.shiftr z 6))
      :: b64_char (Z.land z 63)
      :: b64_encode r
  | [x; y] =>
      [b64_char (Z.shiftr x 2);
       b64_char (Z.lor (Z.shiftl (Z.land x 3) 4) (Z.shiftr y 4));
       b64_char (Z.shiftl (Z.land y 15) 2);
       "="%char]
  | [x] =>
      [b64_char (Z.shiftr x 2); b64_char (Z.shiftl (Z.land x 3) 4);
       "="%char; "="%char]
  | [] => []
  end.

Definition toString_base64 (b : bytes) : string :=
  string_of_list_ascii (b64_encode b).

(** [Buffer.from(s, 'hex')]: pairs of hexadecimal digits, read from the
    low bytes of the code units, up to the first pair that is not one; a
    last single character is dropped. *)
Definition unhex (c : ascii) : option Z :=
  let n := byte_of c in
  if in_range 48 57 c then Some (n - 48)
  else if in_range 97 102 c then Some (n - 97 + 10)
  else if in_range 65 70 c then Some (n - 65 + 10)
  else None.

Fixpoint hex_pairs (l : list ascii) : bytes :=
  match l with
  | a :: b :: r =>
      match unhex a, unhex b with
      | Some x, Some y => (16 * x + y) :: hex_pairs r
      | _, _ => []
      end
  | _ => []
  end.

Definition Buffer_from_hex (s : string) : bytes :=
  hex_pairs (code_unit_bytes s).

(** [Buffer.from(data)] for the value an authenticated decryption
    returns: a byte array is copied, [null] is refused by the runtime. *)
Definition Buffer_from (data : option bytes) : result bytes :=
  match data with
  | Some b => Ok b
  | None =>
      Throw (TypeError
        "The first argument must be of type string or an instance of Buffer, ArrayBuffer, or Array or an Array-like Object. Received null")
  end.

(** ** [nacl]: the box primitive

    Modelled from the spec: [lib/nacl-fast.js], which [ejson.js] imports for
    [nacl.box] and [nacl.box.open], is not among the sources.  The
    specification names the construction (Curve25519 key agreement with
    XSalsa20-Poly1305, the [box] primitive, 24-byte nonce, 32-byte keys,
    and a failure indicator instead of an exception when authentication
    fails); the definitions below are that construction, with the
    argument checks of the library's wrappers. *)
Module nacl.

(** Little-endian numbers. *)
Fixpoint le_decode (b : bytes) : Z :=
  match b with
  | [] => 0
  | x :: r => x + 256 * le_decode r
  end.

Fixpoint le_encode (n : nat) (v : Z) : bytes :=
  match n with
  | O => []
  | S n' => v mod 256 :: le_encode n' (v / 256)
  end.

(** The [n] sixteen-bit words of a number, least significant first. *)
Fixpoint le_words (n : nat) (v : Z) : list Z :=
  match n with
  | O => []
  | S n' => v mod 65536 :: le_words n' (v / 65536)
  end.

Definition xor_bytes (a b : bytes) : bytes :=
  map (fun p => Z.lxor (fst p) (snd p)) (combine a b).

(** *** Salsa20 and HSalsa20 *)

Definition w32 (x : Z) : Z := x mod 2 ^ 32.

Definition rotl32 (x c : Z) : Z :=
  Z.lor (w32 (Z.shiftl x c)) (Z.shiftr x (32 - c)).

Definition quarter (t : Z * Z * Z * Z) : Z * Z * Z * Z :=
  let '(t0, t1, t2, t3) := t in
  let t1 := Z.lxor t1 (rotl32 (w32 (t0 + t3)) 7) in
  let t2 := Z.lxor t2 (rotl32 (w32 (t1 + t0)) 9) in
  let t3 := Z.lxor t3 (rotl32 (w32 (t2 + t1)) 13) in
  let t0 := Z.lxor t0 (rotl32 (w32 (t3 + t2)) 18) in
  (t0, t1, t2, t3).

(** One round: the four quarter rounds on the (rotated) columns, written
    to the transposed positions, so that two rounds make a double round. *)
Definition round (x : list Z) : list Z :=
  match x with
  | [x0; x1; x2; x3; x4; x5; x6; x7; x8; x9; x10; x11; x12; x13; x14; x15] =>
      let '(a0, a1, a2, a3) := quarter (x0, x4, x8, x12) in
      let '(b0, b1, b2, b3) := quarter (x5, x9, x13, x1) in
      let '(c0, c1, c2, c3) := quarter (x10, x14, x2, x6) in
      let '(d0, d1, d2, d3) := quarter (x15, x3, x7, x11) in
      [a0; a1; a2; a3; b3; b0; b1; b2; c2; c3; c0; c1; d1; d2; d3; d0]
  | _ => x
  end.

Fixpoint rounds (n : nat) (x : list Z) : list Z :=
  match n with
  | O => x
  | S n' => rounds n' (round x)
  end.

Definition ld32 (b : bytes) (i : nat) : Z := le_decode (firstn 4 (skipn i b)).

(** The constant "expand 32-byte k". *)
Definition sigma : list Z := [1634760805; 857760878; 2036477234; 1797285236].

Definition initial (inp k : bytes) : list Z :=
  [nth 0 sigma 0; ld32 k 0; ld32 k 4; ld32 k 8; ld32 k 12;
   nth 1 sigma 0; ld32 inp 0; ld32 inp 4; ld32 inp 8; ld32 inp 12;
   nth 2 sigma 0; ld32 k 16; ld32 k 20; ld32 k 24; ld32 k 28;
   nth 3 sigma 0].

Definition core_salsa20 (inp k : bytes) : bytes :=
  let y := initial inp k in
  let x := rounds 20 y in
  flat_map (le_encode 4) (map (fun p => w32 (fst p + snd p)) (combine x y)).

Definition core_hsalsa20 (inp k : bytes) : bytes :=
  let x := rounds 20 (initial inp k) in
  flat_map (fun i => le_encode 4 (nth i x 0)) [0; 5; 10; 15; 6; 7; 8; 9]%nat.

(** [len] bytes of Salsa20 key stream: block [i] is the core applied to
    the 8-byte nonce followed by the 64-bit counter [i]. *)
Definition salsa20_stream (len : nat) (n8 k : bytes) : bytes :=
  firstn len
    (flat_map (fun i => core_salsa20 (n8 ++ le_encode 8 (Z.of_nat i)) k)
              (seq 0 ((len + 63) / 64))).

(** XSalsa20: a subkey from the first 16 nonce bytes, then Salsa20 with
    the last 8. *)
Definition xsalsa20_stream (len : nat) (n k : bytes) : bytes :=
  salsa20_stream len (skipn 16 n) (core_hsalsa20 (firstn 16 n) k).

(** *** Poly1305 *)

Definition p1305 : Z := 2 ^ 130 - 5.

Definition clamp_r (r : Z) : Z := Z.land r 21267647620597763993911028882763415551.

Fixpoint poly_blocks (fuel : nat) (r acc : Z) (m : bytes) : Z :=
  match fuel with
  | O => acc
  | S fuel' =>
      match m with
      | [] => acc
      | _ :: _ =>
          let blk := firstn 16 m in
          let n := le_decode blk + 2 ^ (8 * Z.of_nat (length blk)) in
          poly_blocks fuel' r (((acc + n) * r) mod p1305) (skipn 16 m)
      end
  end.

Definition onetimeauth (m key : bytes) : bytes :=
  let r := clamp_r (le_decode (firstn 16 key)) in
  let s := le_decode (firstn 16 (skipn 16 key)) in
  le_encode 16 ((poly_blocks (length m) r 0 m + s) mod 2 ^ 128).

(** *** Curve25519

    Field elements are sixteen limbs of sixteen bits in machine integers,
    as in the library; a limb may be out of range or negative between
    carries. *)

Definition p25519 : Z := 2 ^ 255 - 19.

Definition gf : Type := list PrimInt63.int.

Definition int_of (z : Z) : PrimInt63.int := Uint63Axioms.of_Z z.

Definition i0 : PrimInt63.int := Eval vm_compute in int_of 0.
Definition i1 : PrimInt63.int := Eval vm_compute in int_of 1.
Definition i16 : PrimInt63.int := Eval vm_compute in int_of 16.
Definition i38 : PrimInt63.int := Eval vm_compute in int_of 38.
Definition i65536 : PrimInt63.int := Eval vm_compute in int_of 65536.

Definition gf_of_Z (v : Z) : gf := map int_of (le_words 16 v).

Definition Z_of_gf (a : gf) : Z :=
  fold_right (fun x acc => Sint63Axioms.to_Z x + 65536 * acc) 0 a.

(** Limb-wise sum of two lists, the longer one giving the length. *)
Fixpoint ladd (a b : list PrimInt63.int) : list PrimInt63.int :=
  match a, b with
  | [], _ => b
  | _, [] => a
  | x :: a', y :: b' => PrimInt63.add x y :: ladd a' b'
  end.

Definition gf_add (a b : gf) : gf := ladd a b.

Definition gf_sub (a b : gf) : gf :=
  ladd a (map (fun y => PrimInt63.sub i0 y) b).

(** One carry pass: every limb is brought into sixteen bits and the
    carry out of the last one comes back, times 38, into the first. *)
Fixpoint carry (c : PrimInt63.int) (a : gf) : gf * PrimInt63.int :=
  match a with
  | [] => ([], c)
  | x :: r =>
      let v := PrimInt63.add (PrimInt63.add x c) i65536 in
      let q := PrimInt63.asr v i16 in
      let (r', cf) := carry (PrimInt63.sub q i1) r in
      (PrimInt63.sub v (PrimInt63.lsl q i16) :: r', cf)
  end.

Definition car25519 (a : gf) : gf :=
  let (a', cf) := carry i0 a in
  match a' with
  | [] => []
  | x :: r => PrimInt63.add x (PrimInt63.mul i38 cf) :: r
  end.

(** The product of the limbs as polynomials. *)
Fixpoint conv (a b : gf) : list PrimInt63.int :=
  match a with
  | [] => []
  | x :: a' => ladd (map (PrimInt63.mul x) b) (i0 :: conv a' b)
  end.

(** [2 ^ 256] is [38] modulo the prime. *)
Definition gf_mul (a b : gf) : gf :=
  let t := conv a b in
  car25519 (car25519 (ladd (firstn 16 t) (map (PrimInt63.mul i38) (skipn 16 t)))).

Fixpoint gf_pow (b : gf) (e : positive) : gf :=
  match e with
  | xH => b
  | xO e' => let h := gf_pow b e' in gf_mul h h
  | xI e' => let h := gf_pow b e' in gf_mul (gf_mul h h) b
  end.

(** The inverse, as the power [p - 2]. *)
Definition inv25519 (z : gf) : gf :=
  gf_pow z 57896044618658097711785492504343953926634992332820282019728792003956564819947.

(** The scalar with its three low bits and bit 255 cleared and bit 254
    set. *)
Definition clamp_scalar (n : bytes) : Z :=
  let v := le_decode (firstn 32 n) in
  Z.lor (Z.land v (2 ^ 255 - 8)) (2 ^ 254) mod 2 ^ 255.

Definition cswap (b : bool) (p : gf * gf * gf * gf) : gf * gf * gf * gf :=
  let '(x2, z2, x3, z3) := p in
  if b then (x3, z3, x2, z2) else p.

Definition a24 : gf := Eval vm_compute in gf_of_Z 121665.

(** One step of the Montgomery ladder, between two conditional swaps. *)
Definition ladder_step (x1 : gf) (bit : bool) (p : gf * gf * gf * gf) : gf * gf * gf * gf :=
  let '(x2, z2, x3, z3) := cswap bit p in
  let a := gf_add x2 z2 in
  let aa := gf_mul a a in
  let b := gf_sub x2 z2 in
  let bb := gf_mul b b in
  let e := gf_sub aa bb in
  let c := gf_add x3 z3 in
  let d := gf_sub x3 z3 in
  let da := gf_mul d a in
  let cb := gf_mul c b in
  let s := gf_add da cb in
  let t := gf_sub da cb in
  let x3' := gf_mul s s in
  let z3' := gf_mul x1 (gf_mul t t) in
  let x2' := gf_mul aa bb in
  let z2' := gf_mul e (gf_add aa (gf_mul a24 e)) in
  cswap bit (x2', z2', x3', z3').

Fixpoint ladder (t : nat) (k : Z) (x1 : gf) (p : gf * gf * gf * gf) : gf * gf * gf * gf :=
  match t with
  | O => p
  | S t' => ladder t' k x1 (ladder_step x1 (Z.testbit k (Z.of_nat t')) p)
  end.

(** [crypto_scalarmult]: the u-coordinate of the scalar multiple. *)
Definition scalarmult (n p : bytes) : bytes :=
  let k := clamp_scalar n in
  let u := gf_of_Z (le_decode (firstn 32 p) mod 2 ^ 255) in
  let '(x2, z2, _, _) := ladder 255 k u (gf_of_Z 1, gf_of_Z 0, u, gf_of_Z 1) in
  le_encode 32 (Z_of_gf (gf_mul x2 (inv25519 z2)) mod p25519).

Definition base_point : bytes := 9 :: repeat 0 31.

Definition scalarmult_base (n : bytes) : bytes := scalarmult n base_point.

(** *** secretbox and box *)

Definition secretbox_raw (msg n key : bytes) : bytes :=
  let s := xsalsa20_stream (32 + length msg) n key in
  let c := xor_bytes msg (skipn 32 s) in
  onetimeauth c (firstn 32 s) ++ c.

Definition bytes_eqb (a b : bytes) : bool :=
  (length a =? length b)%nat && forallb (fun p => fst p =? snd p) (combine a b).

Definition secretbox_open_raw (bx n key : bytes) : option bytes :=
  if (length bx <? 16)%nat then None
  else
    let tag := firstn 16 bx in
    let c := skipn 16 bx in
    let s := xsalsa20_stream (32 + length c) n key in
    if bytes_eqb tag (onetimeauth c (firstn 32 s))
    then Some (xor_bytes c (skipn 32 s))
    else None.

Definition checkLengths (k n : bytes) : result unit :=
  if negb (length k =? 32)%nat then Throw (Error "bad key size")
  else if negb (length n =? 24)%nat then Throw (Error "bad nonce size")
  else Ok tt.

Definition checkBoxLengths (pk sk : bytes) : result unit :=
  if negb (length pk =? 32)%nat then Throw (Error "bad public key size")
  else if negb (length sk =? 32)%nat then Throw (Error "bad secret key size")
  else Ok tt.

(** [nacl.box.before]: the shared key of a public and a secret key. *)
Definition beforenm (pk sk : bytes) : bytes :=
  core_hsalsa20 (repeat 0 16) (scalarmult sk pk).

Definition box_before (publicKey secretKey : bytes) : result bytes :=
  _ <- checkBoxLengths publicKey secretKey ;;
  Ok (beforenm publicKey secretKey).

Definition secretbox (msg n key : bytes) : result bytes :=
  _ <- checkLengths key n ;;
  Ok (secretbox_raw msg n key).

(** [null] is [None]. *)
Definition secretbox_open (bx n key : bytes) : result (option bytes) :=
  _ <- checkLengths key n ;;
  Ok (secretbox_open_raw bx n key).

(** Modelled from the spec: [nacl.box], Curve25519 key agreement followed
    by XSalsa20-Poly1305 under the shared key. *)
Definition box (msg n publicKey secretKey : bytes) : result bytes :=
  k <- box_before publicKey secretKey ;;
  secretbox msg n k.

(** Modelled from the spec: [nacl.box.open], which returns [null] when
    the authenticator does not match. *)
Definition box_open (msg n publicKey secretKey : bytes) : result (option bytes) :=
  k <- box_before publicKey secretKey ;;
  secretbox_open msg n k.

End nacl.

(** ** [encrypt] and [decrypt] *)

Definition encrypt (message nonce theirPublicKey mySecretKey : string) : result string :=
  let msgBuff := Buffer_from_utf8 message in
  let nonceBuff := Buffer_from_base64 nonce in
  let theirPubBuff := Buffer_from_base64 theirPublicKey in
  let privBuff := Buffer_from_hex mySecretKey in
  data <- nacl.box msgBuff nonceBuff theirPubBuff privBuff ;;
  Ok (toString_base64 data).

Definition decrypt (message nonce theirPublicKey mySecretKey : string) : result string :=
  let msgBuff := Buffer_from_base64 message in
  let nonceBuff := Buffer_from_base64 nonce in
  let theirPubBuff := Buffer_from_base64 theirPublicKey in
  let privBuff := Buffer_from_hex mySecretKey in
  data <- nacl.box_open msgBuff nonceBuff theirPubBuff privBuff ;;
  buf <- Buffer_from data ;;
  Ok (toString_utf8 buf).

(** ** Documents

    A parsed JSON document.  An object is the list of its own properties in
    enumeration order (the order of [for ... in]); numbers are restricted
    to integers, of which the program only looks at the type and at
    truthiness. *)

Inductive value : Type :=
| JNull
| JBool (b : bool)
| JNum (n : Z)
| JStr (s : string)
| JArr (elems : list value)
| JObj (fields : list (string * value)).

(** The decimal text of an array index, and the index a property name
    denotes when it is the canonical text of an integer below
    [2 ^ 32 - 1]. *)
Definition index_key (n : N) : string := NilZero.string_of_uint (N.to_uint n).

Definition array_index (k : string) : option N :=
  match NilZero.uint_of_string k with
  | Some d =>
      let n := N.of_uint d in
      if String.eqb (index_key n) k && (n <? 4294967295)%N then Some n else None
  | None => None
  end.

(** Property lists, for any type of values. *)
Section Properties.

Context {V : Type}.

Fixpoint lookup (fields : list (string * V)) (k : string) : option V :=
  match fields with
  | [] => None
  | (k', v) :: r => if String.eqb k' k then Some v else lookup r k
  end.

Fixpoint replace (fields : list (string * V)) (k : string) (v : V)
  : list (string * V) :=
  match fields with
  | [] => []
  | (k', v') :: r =>
      if String.eqb k' k then (k', v) :: r else (k', v') :: replace r k v
  end.

(** A new property is enumerated after the existing ones, except that
    integer-like names come first, in ascending order. *)
Fixpoint add_index (fields : list (string * V)) (n : N) (k : string) (v : V)
  : list (string * V) :=
  match fields with
  | [] => [(k, v)]
  | (k', v') :: r =>
      match array_index k' with
      | Some n' => if (n' <? n)%N then (k', v') :: add_index r n k v
                   else (k, v) :: fields
      | None => (k, v) :: fields
      end
  end.

Definition add (fields : list (string * V)) (k : string) (v : V)
  : list (string * V) :=
  match array_index k with
  | Some n => add_index fields n k v
  | None => fields ++ [(k, v)]
  end.

End Properties.

Fixpoint set_nth (l : list value) (i : nat) (v : value) : list value :=
  match l, i with
  | [], _ => []
  | _ :: r, O => v :: r
  | x :: r, S i' => x :: set_nth r i' v
  end.

(** An array is an object whose own enumerable properties are its
    elements, named by their indices. *)
Definition indexed (elems : list value) : list (string * value) :=
  combine (map (fun i => index_key (N.of_nat i)) (seq 0 (length elems))) elems.

(** The own enumerable properties of a value, in enumeration order.  A
    string has index properties too, but the loop body does nothing at
    them (a one-character string is neither prefixed by [_] nor by [EJ[]),
    so as for the other primitives none is listed. *)
Definition own_props (o : value) : list (string * value) :=
  match o with
  | JObj fields => fields
  | JArr elems => indexed elems
  | _ => []
  end.

(** The keys [for (const key in o)] visits.  They are fixed when the loop
    starts: a property added during the loop is not visited. *)
Definition for_in_keys (o : value) : list string := map fst (own_props o).

(** [o[k]] for an own property; [None] is [undefined]. *)
Definition get (o : value) (k : string) : option value := lookup (own_props o) k.

(** [o[k] = v], for the two uses the walker makes of it: on an object any
    key, on an array the index of an existing element. *)
Definition set (o : value) (k : string) (v : value) : value :=
  match o with
  | JObj fields =>
      match lookup fields k with
      | Some _ => JObj (replace fields k v)
      | None => JObj (add fields k v)
      end
  | JArr elems =>
      match lookup (indexed elems) k with
      | Some _ => JArr (map snd (replace (indexed elems) k v))
      | None => o
      end
  | _ => o
  end.

Definition truthy (v : value) : bool :=
  match v with
  | JNull => false
  | JBool b => b
  | JNum n => negb (n =? 0)
  | JStr s => negb (String.eqb s "")
  | JArr _ | JObj _ => true
  end.

(** The properties every object inherits from [Object.prototype]; read
    through [o[k]] each is a function or an object, hence truthy. *)
Definition object_prototype_keys : list string :=
  ["constructor"; "__defineGetter__"; "__defineSetter__"; "hasOwnProperty";
   "__lookupGetter__"; "__lookupSetter__"; "isPrototypeOf";
   "propertyIsEnumerable"; "toString"; "valueOf"; "__proto__";
   "toLocaleString"]%string.

Definition inherited (k : string) : bool := existsb (String.eqb k) object_prototype_keys.

(** The truthiness of [o[k]]: of the own property when there is one, of
    the inherited one otherwise. *)
Definition truthy_get (o : value) (k : string) : bool :=
  match get o k with
  | Some v => truthy v
  | None => inherited k
  end.

(** [structuredClone] makes a deep copy; of a value without identity that
    is the value. *)
Definition structuredClone (v : value) : value := v.

(** ** Effects of the walker

    The calls to the parser, to the codec and to the key resolver are
    logged in order; a computation ends by returning, by throwing, or by
    running out of the fuel that bounds the recursion depth. *)

Inductive event : Type :=
| Resolve (publicKey : option value)
| Parse (literal : string)
| Decrypt (bx non pub key : string).

Inductive outcome (A : Type) : Type :=
| Ret (a : A)
| Raise (e : js_error)
| OutOfFuel.

Arguments Ret {A} a.
Arguments Raise {A} e.
Arguments OutOfFuel {A}.

Definition M (A : Type) : Type := list event * outcome A.

Definition ret {A : Type} (a : A) : M A := ([], Ret a).

Definition mbind {A B : Type} (m : M A) (k : A -> M B) : M B :=
  match m with
  | (l, Ret a) => let (l', o) := k a in (l ++ l', o)
  | (l, Raise e) => (l, Raise e)
  | (l, OutOfFuel) => (l, OutOfFuel)
  end.

Notation "x <~ m ;; k" := (mbind m (fun x => k))
  (at level 61, m at next level, right associativity).

(** A logged call of a function that may throw. *)
Definition call {A : Type} (ev : event) (r : result A) : M A :=
  ([ev], match r with Ok a => Ret a | Throw e => Raise e end).

(** ** [processObjectFields] *)

(** The body of the loop at [key], on the current [configJson]. *)
Definition body (recur : value -> M value) (privateKey : string)
  (configJson : value) (key : string) : M value :=
  if startsWith key "_" then
    let keyName := slice1 key in
    if negb (truthy_get configJson keyName) then
      match get configJson key with
      | Some v => ret (set configJson keyName v)
      | None => ret configJson
      end
    else ret configJson
  else
    match get configJson key with
    | Some (JStr s) =>
        if startsWith s "EJ[" then
          parsed <~ call (Parse s) (parseEncryptedValue s) ;;
          plain <~ call (Decrypt (box parsed) (nonce parsed) (encrypterPublic parsed) privateKey)
                        (decrypt (box parsed) (nonce parsed) (encrypterPublic parsed) privateKey) ;;
          ret (set configJson key (JStr plain))
        else ret configJson
    | Some (JObj _ as v) | Some (JArr _ as v) | Some (JNull as v) =>
        r <~ recur v ;;
        ret (set configJson key r)
    | _ => ret configJson
    end.

Fixpoint for_in (f : value -> string -> M value) (keys : list string)
  (configJson : value) : M value :=
  match keys with
  | [] => ret configJson
  | key :: rest => c <~ f configJson key ;; for_in f rest c
  end.

Fixpoint walk (fuel : nat) (rawConf : value) (privateKey : string) : M value :=
  match fuel with
  | O => ([], OutOfFuel)
  | S fuel' =>
      let configJson := structuredClone rawConf in
      for_in (body (fun v => walk fuel' v privateKey) privateKey)
             (for_in_keys configJson) configJson
  end.

(** The nesting depth of a document bounds the depth of the recursion. *)
Fixpoint depth (v : value) : nat :=
  match v with
  | JArr elems => S (fold_right (fun e d => Nat.max (depth e) d) O elems)
  | JObj fields => S (fold_right (fun p d => Nat.max (depth (snd p)) d) O fields)
  | _ => O
  end.

Definition processObjectFields (rawConf : value) (privateKey : string) : M value :=
  walk (S (depth rawConf)) rawConf privateKey.

(** ** [processEjson]

    [getConfigJson] only loads the document; it is represented by its
    result [rawConf].  The resolver [getPrivateKey] is the caller's: it
    receives [rawConf['_public_key']] and returns the private key or
    fails. *)
Definition read_public_key (rawConf : value) : result (option value) :=
  match rawConf with
  | JNull => Throw (TypeError "Cannot read properties of null (reading '_public_key')")
  | _ => Ok (get rawConf "_public_key")
  end.

Definition processEjson (getPrivateKey : option value -> result string)
  (rawConf : value) : M value :=
  match read_public_key rawConf with
  | Throw e => ([], Raise e)
  | Ok publicKey =>
      privateKey <~ call (Resolve publicKey) (getPrivateKey publicKey) ;;
      processObjectFields rawConf privateKey
  end.

(** ** Test data

    The token, the keys and the plaintext of the repository's tests, and
    small documents used as examples below. *)

Definition test_secret : string :=
  "EJ[1:jeDOl5qTBwflgRuusXrqoT5eclnznLKuCp8fxbuHjGg=:fRVLp8YU/m9sb04HKAN9r8RVzLNWkdTu:uhoMKBnFTUDSO5nayF/Wx/D+d8dPBIlLUJq8KA==]".

Definition test_public_key : string :=
  "af33e849c33dd190ba01b2d50c898190f8da09082fbf1a244e4af9d62479d932".

Definition test_private_key : string :=
  "ddbd617e7826292966fe1b8686b32e2214fa3e8633881ae6a31edf6175b790a2".

Definition testSecretValue : string := "Hello World!".

(** The resolver of the tests, [(publicKey) => keys[publicKey]], on the one
    key the tests use. *)
Definition test_getPrivateKey (publicKey : option value) : result string :=
  Ok test_private_key.

(** The public key of the tests in base64, and a second key pair. *)
Definition test_public_key_b64 : string := "rzPoScM90ZC6AbLVDImBkPjaCQgvvxokTkr51iR52TI=".

Definition sender_private_key : string :=
  "0102030405060708090a0b0c0d0e0f101112131415161718191a1b1c1d1e1f20".

Definition sender_public_key_b64 : string := "B6N8vBQgk8i3VdwbEOhstCY3StFqqFPtC9/AsrhtHHw=".

Definition test_nonce : string := "fRVLp8YU/m9sb04HKAN9r8RVzLNWkdTu".

(** A document without [_public_key]. *)
Definition doc_no_public_key : value :=
  (JObj [("a", JNum 1)])%string.

(** A default for [x] next to an [x] that is present and empty. *)
Definition doc_falsy_sibling : value :=
  (JObj [("_x", JStr "v"); ("x", JStr "")])%string.



(** The token of the tests as an element of an array. *)
Definition doc_token_in_array : value :=
  (JObj [("_public_key", JStr test_public_key); ("list", JArr [JNum 7; JStr test_secret])])%string.

(** The document of the tests. *)
Definition testEjson : value :=
  (JObj [("_public_key", JStr test_public_key); ("test_secret", JStr test_secret)])%string.

(** Documents whose public key is a token, or empty. *)
Definition doc_public_key_is_token : value :=
  (JObj [("_public_key", JStr test_secret); ("public_key", JStr "")])%string.

Definition doc_public_key_empty : value :=
  (JObj [("_public_key", JStr ""); ("__public_key", JStr "K")])%string.

(** The fields of the token of the tests, and its ciphertext with the last
    byte changed. *)
Definition test_box : string := "uhoMKBnFTUDSO5nayF/Wx/D+d8dPBIlLUJq8KA==".
Definition test_encrypter_public : string := "jeDOl5qTBwflgRuusXrqoT5eclnznLKuCp8fxbuHjGg=".
Definition tampered_box : string := "uhoMKBnFTUDSO5nayF/Wx/D+d8dPBIlLUJq8LA==".

(** What [Buffer.from(null)] throws. *)
Definition null_buffer_error : js_error :=
  TypeError
    "The first argument must be of type string or an instance of Buffer, ArrayBuffer, or Array or an Array-like Object. Received null".

(** A default that is itself defaulted. *)
Definition doc_default_chain : value :=
  (JObj [("_x", JStr ""); ("__x", JStr "v")])%string.

(** ** Notions used in the statements and proofs *)

Definition is_byte (x : Z) : Prop := 0 <= x < 256.

(** Facts about bytes and sextets are checked on all of them. *)
Definition all_below (n : nat) (p : Z -> bool) : bool :=
  forallb (fun i => p (Z.of_nat i)) (seq 0 n).

(** The sextets of a group of three bytes and the bytes of a group of
    four sextets. *)
Definition s0 (x : Z) : Z := Z.shiftr x 2.
Definition s1 (x y : Z) : Z := Z.lor (Z.shiftl (Z.land x 3) 4) (Z.shiftr y 4).
Definition s2 (y z : Z) : Z := Z.lor (Z.shiftl (Z.land y 15) 2) (Z.shiftr z 6).
Definition s3 (z : Z) : Z := Z.land z 63.

Definition b1 (u v : Z) : Z := Z.lor (Z.shiftl u 2) (Z.shiftr v 4).
Definition b2 (u v : Z) : Z := Z.lor (Z.shiftl (Z.land u 15) 4) (Z.shiftr v 2).
Definition b3 (u v : Z) : Z := Z.lor (Z.shiftl (Z.land u 3) 6) v.

(** A sextet that its character gives back. *)
Definition sextet_ok (v : Z) : bool :=
  negb (Ascii.eqb (b64_char v) "=")
  && match b64_value (b64_char v) with Some w => w =? v | None => false end.

(** A key pair in the encodings of the codec: a 32-byte secret key in
    hexadecimal and, in base64, the public key derived from it. *)
Definition keypair (publicKey secretKey : string) : Prop :=
  length (Buffer_from_hex secretKey) = 32%nat /\
  Buffer_from_base64 publicKey = nacl.scalarmult_base (Buffer_from_hex secretKey).

(** The key-agreement symmetry of Curve25519 for two secret keys: each
    side computes the same point from its secret and the other's public
    key. *)
Definition agreement (secretA secretB : bytes) : Prop :=
  nacl.scalarmult secretA (nacl.scalarmult_base secretB) =
  nacl.scalarmult secretB (nacl.scalarmult_base secretA).

(** The number of calls of the key resolver in a log. *)
Definition resolver_calls (l : list event) : nat :=
  length (filter (fun ev => match ev with Resolve _ => true | _ => false end) l).

(** The number of calls of the token parser in a log. *)
Definition parser_calls (l : list event) : nat :=
  length (filter (fun ev => match ev with Parse _ => true | _ => false end) l).

(** The two states of a root mapping during the walk, with respect to the
    default for [public_key]: before the step at [_public_key], where
    [public_key] is absent or falsy, and after it. *)
Definition is_object (c : value) : Prop := exists fields, c = JObj fields.

Definition before_alias (pk : string) (c : value) : Prop :=
  is_object c /\ get c "_public_key" = Some (JStr pk) /\
  (get c "public_key" = None \/
   exists w, get c "public_key" = Some w /\ truthy w = false).

Definition after_alias (pk : string) (c : value) : Prop :=
  is_object c /\ get c "_public_key" = Some (JStr pk) /\
  get c "public_key" = Some (JStr pk).

(** A function that ends, without deepening, on values of depth up to
    [n]. *)
Definition ends_upto (n : nat) (recur : value -> M value) : Prop :=
  forall u, (depth u <= n)%nat ->
    snd (recur u) <> OutOfFuel /\
    forall r, snd (recur u) = Ret r -> (depth r <= depth u)%nat.

(** The greatest depth among values. *)
Definition maxdepth (l : list value) : nat :=
  fold_right (fun e d => Nat.max (depth e) d) O l.

(** ** The walker on a store

    Whether the walker changes the object it is given is a question about
    object identity.  Here objects live in a store and values refer to them
    by location; [structuredClone] allocates the copy and [o[k] = v]
    writes to the store.  A JavaScript array is an object whose property
    names are its indices. *)
Module Store.

Definition loc : Type := nat.

Inductive val : Type :=
| Null
| Bool (b : bool)
| Num (n : Z)
| Str (s : string)
| Ref (l : loc).

Record object : Type := { is_array : bool; props : list (string * val) }.

Definition heap : Type := list object.

Definition read (h : heap) (l : loc) : option object := nth_error h l.

Definition alloc (h : heap) (o : object) : heap * loc := (h ++ [o], length h).

Fixpoint write (h : heap) (l : loc) (o : object) : heap :=
  match h, l with
  | [], _ => []
  | _ :: r, O => o :: r
  | x :: r, S l' => x :: write r l' o
  end.

Definition truthy (v : val) : bool :=
  match v with
  | Null => false
  | Bool b => b
  | Num n => negb (n =? 0)
  | Str s => negb (String.eqb s "")
  | Ref _ => true
  end.

Definition truthy_get (o : object) (k : string) : bool :=
  match lookup (props o) k with
  | Some v => truthy v
  | None => inherited k
  end.

(** [o[k] = v] on the object itself. *)
Definition set_prop (o : object) (k : string) (v : val) : object :=
  {| is_array := is_array o;
     props := match lookup (props o) k with
              | Some _ => replace (props o) k v
              | None => add (props o) k v
              end |}.

(** The properties of a copy, left to right. *)
Fixpoint clone_props (cl : heap -> val -> option (heap * val)) (h : heap)
  (ps : list (string * val)) : option (heap * list (string * val)) :=
  match ps with
  | [] => Some (h, [])
  | (k, v) :: r =>
      match cl h v with
      | None => None
      | Some (h1, v1) =>
          match clone_props cl h1 r with
          | None => None
          | Some (h2, r2) => Some (h2, (k, v1) :: r2)
          end
      end
  end.

(** [structuredClone]: a deep copy, the copy of an object being a new
    object.  The fuel bounds the nesting; [None] is a clone that does not
    end within it or meets a location that holds nothing. *)
Fixpoint structuredClone (fuel : nat) (h : heap) (v : val) : option (heap * val) :=
  match v with
  | Ref l =>
      match fuel with
      | O => None
      | S fuel' =>
          match read h l with
          | None => None
          | Some o =>
              match clone_props (structuredClone fuel') h (props o) with
              | None => None
              | Some (h1, ps) =>
                  let (h2, l') := alloc h1 {| is_array := is_array o; props := ps |} in
                  Some (h2, Ref l')
              end
          end
      end
  | _ => Some (h, v)
  end.

(** The body of the loop at [key]; [configJson] is the object at [l]. *)
Definition body (recur : heap -> val -> M (heap * val)) (privateKey : string)
  (l : loc) (h : heap) (key : string) : M heap :=
  match read h l with
  | None => ret h
  | Some configJson =>
      if startsWith key "_" then
        let keyName := slice1 key in
        if negb (truthy_get configJson keyName) then
          match lookup (props configJson) key with
          | Some v => ret (write h l (set_prop configJson keyName v))
          | None => ret h
          end
        else ret h
      else
        match lookup (props configJson) key with
        | Some (Str s) =>
            if startsWith s "EJ[" then
              parsed <~ call (Parse s) (parseEncryptedValue s) ;;
              plain <~ call (Decrypt (box parsed) (nonce parsed) (encrypterPublic parsed) privateKey)
                            (decrypt (box parsed) (nonce parsed) (encrypterPublic parsed) privateKey) ;;
              ret (write h l (set_prop configJson key (Str plain)))
            else ret h
        | Some (Ref _ as v) | Some (Null as v) =>
            p <~ recur h v ;;
            match read (fst p) l with
            | Some o => ret (write (fst p) l (set_prop o key (snd p)))
            | None => ret (fst p)
            end
        | _ => ret h
        end
  end.

Fixpoint for_in (f : heap -> string -> M heap) (keys : list string) (h : heap) : M heap :=
  match keys with
  | [] => ret h
  | key :: rest => h' <~ f h key ;; for_in f rest h'
  end.

(** [processObjectFields]: the copy is made, walked and returned. *)
Fixpoint processObjectFields (fuel : nat) (h : heap) (rawConf : val) (privateKey : string)
  : M (heap * val) :=
  match fuel with
  | O => ([], OutOfFuel)
  | S fuel' =>
      match structuredClone fuel' h rawConf with
      | None => ([], OutOfFuel)
      | Some (h1, configJson) =>
          match configJson with
          | Ref l =>
              match read h1 l with
              | Some o =>
                  h2 <~ for_in (body (fun h v => processObjectFields fuel' h v privateKey)
                                     privateKey l)
                               (map fst (props o)) h1 ;;
                  ret (h2, configJson)
              | None => ret (h1, configJson)
              end
          | _ => ret (h1, configJson)
          end
      end
  end.

(** Every object of [h] is in [h'], as it was. *)
Definition unchanged (h h' : heap) : Prop :=
  (length h <= length h')%nat /\
  forall l, (l < length h)%nat -> read h' l = read h l.

(** [repr ok h d v]: in the store [h] the value [v] stands for the
    document [d], through objects at locations that satisfy [ok]. *)
Inductive repr (ok : loc -> Prop) (h : heap) : value -> val -> Prop :=
| repr_null : repr ok h JNull Null
| repr_bool (b : bool) : repr ok h (JBool b) (Bool b)
| repr_num (n : Z) : repr ok h (JNum n) (Num n)
| repr_str (s : string) : repr ok h (JStr s) (Str s)
| repr_arr (l : loc) (elems : list value) (ps : list (string * val)) :
    ok l ->
    read h l = Some {| is_array := true; props := ps |} ->
    Forall2 (fun f p => fst f = fst p /\ repr ok h (snd f) (snd p)) (indexed elems) ps ->
    repr ok h (JArr elems) (Ref l)
| repr_obj (l : loc) (fields : list (string * value)) (ps : list (string * val)) :
    ok l ->
    read h l = Some {| is_array := false; props := ps |} ->
    Forall2 (fun f p => fst f = fst p /\ repr ok h (snd f) (snd p)) fields ps ->
    repr ok h (JObj fields) (Ref l).

Definition rel_props (ok : loc -> Prop) (h : heap)
  : list (string * value) -> list (string * val) -> Prop :=
  Forall2 (fun f p => fst f = fst p /\ repr ok h (snd f) (snd p)).

Definition is_arr (d : value) : bool :=
  match d with
  | JArr _ => true
  | _ => false
  end.

Definition container (d : value) : Prop :=
  match d with
  | JArr _ | JObj _ => True
  | _ => False
  end.

(** The result of a copy: a scalar, or a new object whose properties
    do not lead back to it. *)
Definition repr_root (lo : nat) (h : heap) (d : value) (v : val) : Prop :=
  match v with
  | Ref l =>
      (lo <= l < length h)%nat /\ container d /\
      exists ps, read h l = Some {| is_array := is_arr d; props := ps |} /\
                 rel_props (fun l' => (lo <= l' < length h)%nat /\ l' <> l) h (own_props d) ps
  | _ => repr (fun _ => False) h d v
  end.

(** The document of the tests in a store of its own. *)
Definition test_heap : heap :=
  [{| is_array := false;
      props := [("_public_key", Str test_public_key);
                ("test_secret", Str test_secret)]%string |}].

(** The store after the walk of that document: the document, and the
    decrypted copy. *)
Definition test_heap_after : heap :=
  test_heap ++
  [{| is_array := false;
      props := [("_public_key", Str test_public_key);
                ("test_secret", Str testSecretValue);
                ("public_key", Str test_public_key)]%string |}].

Definition test_log : list event :=
  [Parse test_secret;
   Decrypt test_box test_nonce test_encrypter_public test_private_key].

End Store.

(** ** Notions for the comparison of the two walkers *)

(** What [structuredClone] is to do at a given fuel. *)
Definition clone_ok (fuel : nat) : Prop :=
  forall ok h d v,
    Store.repr ok h d v -> (forall l, ok l -> (l < length h)%nat) -> (depth d <= fuel)%nat ->
    exists h1 c, Store.structuredClone fuel h v = Some (h1, c) /\
                 Store.unchanged h h1 /\ Store.repr_root (length h) h1 d c.

(** An array is only walked at its indices. *)
Definition key_ok (c : value) (key : string) : Prop :=
  Store.is_arr c = true -> startsWith key "_" = false /\ get c key <> None.

(** [sim h mp ms]: the walk [ms] on the store [h] does what the walk [mp]
    on the document does, when that one ends. *)
Definition sim (h : Store.heap) (mp : M value) (ms : M (Store.heap * Store.val)) : Prop :=
  match snd mp with
  | Ret d' =>
      fst mp = fst ms /\
      exists h' r, snd ms = Ret (h', r) /\ Store.unchanged h h' /\
                   Store.repr (fun l => (length h <= l < length h')%nat) h' d' r
  | Raise e => fst mp = fst ms /\ snd ms = Raise e
  | OutOfFuel => True
  end.

(** The same for one step of the loop on the copy at [l]. *)
Definition sim_step (lo : nat) (l : Store.loc) (c : value) (h : Store.heap)
  (mp : M value) (ms : M Store.heap) : Prop :=
  match snd mp with
  | Ret c' =>
      fst mp = fst ms /\
      exists h', snd ms = Ret h' /\ (length h <= length h')%nat /\
                 Store.is_arr c' = Store.is_arr c /\ (depth c' <= depth c)%nat /\
                 (forall k, get c k <> None -> get c' k <> None) /\
                 Store.repr_root lo h' c' (Store.Ref l)
  | Raise e => fst mp = fst ms /\ snd ms = Raise e
  | OutOfFuel => True
  end.


(** ** The configuration: [defaultConfig], [mergeConfigs], [getConfigJson]
    and [processEjson] on a configuration

    The entry point takes a configuration object, completes it with the
    defaults, loads the document and asks the configuration's resolver
    for the private key.  What the program reads from outside is explicit
    here: the environment variables, the files, and [JSON.parse]. *)
Module Config.

(** [process.env]: a variable is a string or undefined. *)
Definition environment : Type := string -> option string.

(** What a run does to the outside, in order: the files it reads, and the
    calls the walker logs. *)
Inductive effect : Type :=
| ReadFile (path : string)
| Core (e : event).

Definition IO (A : Type) : Type := list effect * outcome A.

Definition io_ret {A : Type} (a : A) : IO A := ([], Ret a).

Definition io_bind {A B : Type} (m : IO A) (k : A -> IO B) : IO B :=
  match m with
  | (l, Ret a) => let (l', o) := k a in (l ++ l', o)
  | (l, Raise e) => (l, Raise e)
  | (l, OutOfFuel) => (l, OutOfFuel)
  end.

Notation "x <~~ m ;; k" := (io_bind m (fun x => k))
  (at level 61, m at next level, right associativity).

Definition io_result {A : Type} (r : result A) : IO A :=
  ([], match r with Ok a => Ret a | Throw e => Raise e end).

Definition lift {A : Type} (m : M A) : IO A := (map Core (fst m), snd m).

(** A property of a configuration object: absent, or given, possibly as
    [undefined]. *)
Inductive property (A : Type) : Type :=
| Absent
| Given (a : option A).

Arguments Absent {A}.
Arguments Given {A} a.

(** [o.name]: an absent property reads as [undefined]. *)
Definition read {A : Type} (p : property A) : option A :=
  match p with
  | Absent => None
  | Given a => a
  end.

(** One property of [{...d, ...g}]: the one of [g] when [g] has it, even
    as [undefined]. *)
Definition spread {A : Type} (d g : property A) : property A :=
  match g with
  | Absent => d
  | Given _ => g
  end.

(** The options the program knows.  The five path options are strings
    when defined, [configJson] is a document, [getPrivateKey] a function
    of type [F]. *)
Record configuration (F : Type) : Type := mkConfig {
  envFilePath : property string;
  envFileDir : property string;
  envFilePrefix : property string;
  envFileSuffix : property string;
  keysDir : property string;
  getPrivateKey : property F;
  configJson : property value
}.

Arguments mkConfig {F}.
Arguments envFilePath {F} c.
Arguments envFileDir {F} c.
Arguments envFilePrefix {F} c.
Arguments envFileSuffix {F} c.
Arguments keysDir {F} c.
Arguments getPrivateKey {F} c.
Arguments configJson {F} c.

(** A resolver receives the public key read from the document and the
    configuration, of which it sees the options but not the functions. *)
Definition resolver : Type := option value -> configuration unit -> IO string.

Definition view (conf : configuration resolver) : configuration unit :=
  mkConfig (envFilePath conf) (envFileDir conf) (envFilePrefix conf)
           (envFileSuffix conf) (keysDir conf)
           (match getPrivateKey conf with
            | Absent => Absent
            | Given None => Given None
            | Given (Some _) => Given (Some tt)
            end)
           (configJson conf).

(** The text of a string option in a template literal. *)
Definition template_text (o : option string) : string :=
  match o with
  | Some s => s
  | None => "undefined"%string
  end.

Fixpoint join (l : list string) : string :=
  match l with
  | [] => ""%string
  | [s] => s
  | s :: r => (s ++ "," ++ join r)%string
  end.

(** *** The text of a number

    [JNum n] stands for the Number value nearest to [n] (53 significant
    bits, ties to even), which is [n] itself up to [2 ^ 53].  Its text
    has the least number [k] of significant digits [s] whose value
    [s * 10 ^ (n - k)] is that same Number value, the closest one when
    there are several; it is written in full up to 21 digits and with an
    exponent above. *)
Definition decimal (n : Z) : string := NilZero.string_of_int (Z.to_int n).

Definition round53 (a : Z) : Z :=
  let b := Z.log2 a + 1 in
  if b <=? 53 then a
  else
    let sh := b - 53 in
    let q := Z.shiftr a sh in
    let r := Z.land a (Z.ones sh) in
    let half := Z.shiftl 1 (sh - 1) in
    let up := (half <? r) || ((r =? half) && Z.odd q) in
    Z.shiftl (if up then q + 1 else q) sh.

(** The digits [s], with their [n], that give [x] in [k] digits. *)
Definition candidates (x D k : Z) : list (Z * Z) :=
  flat_map
    (fun n =>
       if n <? k then []
       else
         let p := 10 ^ (n - k) in
         filter (fun c => (10 ^ (k - 1) <=? fst c) && (fst c <? 10 ^ k)
                          && (round53 (fst c * p) =? x))
                [(x / p, n); (x / p + 1, n)])
    [D; D + 1].

Definition closer (x k : Z) (a b : Z * Z) : Z * Z :=
  let da := Z.abs (fst a * 10 ^ (snd a - k) - x) in
  let db := Z.abs (fst b * 10 ^ (snd b - k) - x) in
  if da <? db then a
  else if db <? da then b
  else if Z.even (fst a) then a else b.

Fixpoint shortest (x D : Z) (ks : list Z) : option (Z * (Z * Z)) :=
  match ks with
  | [] => None
  | k :: r =>
      match candidates x D k with
      | [] => shortest x D r
      | c :: cs => Some (k, fold_left (closer x k) cs c)
      end
  end.

Definition zeros (n : Z) : string := string_of_list_ascii (repeat "0"%char (Z.to_nat n)).

(** [Number.prototype.toString] on an integer; 17 digits always
    suffice. *)
Definition Number_toString (v : Z) : string :=
  if v =? 0 then "0"%string
  else
    let x := round53 (Z.abs v) in
    let text :=
      if 2 ^ 1024 <=? x then "Infinity"%string
      else
        let D := Z.of_nat (String.length (decimal x)) in
        match shortest x D (map Z.of_nat (seq 1 17)) with
        | Some (k, (s, n)) =>
            if n <=? 21 then (decimal s ++ zeros (n - k))%string
            else
              match decimal s with
              | String d EmptyString => (String d "e+" ++ decimal (n - 1))%string
              | String d ds => (String d ("." ++ ds) ++ "e+" ++ decimal (n - 1))%string
              | EmptyString => EmptyString
              end
        | None => decimal x
        end in
    if v <? 0 then ("-" ++ text)%string else text.

(** [String(v)] for a value of a document; an array is the texts of its
    elements joined by commas, [null] counting as empty there. *)
Fixpoint ToString (v : value) : string :=
  match v with
  | JNull => "null"%string
  | JBool true => "true"%string
  | JBool false => "false"%string
  | JNum n => Number_toString n
  | JStr s => s
  | JArr elems =>
      join (map (fun e => match e with JNull => ""%string | _ => ToString e end) elems)
  | JObj _ => "[object Object]"%string
  end.

(** [keysDir + publicKey]: a string as soon as one operand is a string or
    an object; [None] is the number [undefined] gives with another
    primitive. *)
Definition plus (dir : option string) (publicKey : option value) : option string :=
  match dir, publicKey with
  | Some d, Some v => Some (d ++ ToString v)%string
  | Some d, None => Some (d ++ "undefined")%string
  | None, Some (JStr _ as v) | None, Some (JArr _ as v) | None, Some (JObj _ as v) =>
      Some ("undefined" ++ ToString v)%string
  | None, _ => None
  end.

Definition double_quote : string := String (ascii_of_N 34) EmptyString.

(** The error of [fs.readFile] for a path that is the number NaN. *)
Definition invalid_path : js_error :=
  TypeError ("The " ++ double_quote ++ "path" ++ double_quote
             ++ " argument must be of type string or an instance of Buffer or URL."
             ++ " Received type number (NaN)")%string.

Section World.

(** The environment when the module is loaded and when a resolver runs,
    [fs.readFile(path, 'utf8')] and [JSON.parse]; the last two return or
    throw. *)
Variable loaded : environment.
Variable env : environment.
Variable readFile : string -> result string.
Variable JSON_parse : string -> result value.

Definition fs_readFile (path : string) : IO string :=
  ([ReadFile path], match readFile path with Ok s => Ret s | Throw e => Raise e end).

(** [fs.readFile(conf.keysDir + publicKey, 'utf8')]. *)
Definition read_key_file (publicKey : option value) (conf : configuration unit) : IO string :=
  match plus (read (keysDir conf)) publicKey with
  | Some path => fs_readFile path
  | None => ([], Raise invalid_path)
  end.

(** The [getPrivateKey] of [defaultConfig]: the environment variable
    when it is set and not empty, the key file otherwise. *)
Definition default_getPrivateKey : resolver :=
  fun publicKey conf =>
    match env "NODE_EJSON_PRIVATE_KEY"%string with
    | Some key =>
        if String.eqb key "" then read_key_file publicKey conf
        else io_ret key
    | None => read_key_file publicKey conf
    end.

Definition defaultConfig : configuration resolver :=
  {| envFilePath := Given (loaded "NODE_EJSON_FILE_PATH"%string);
     envFileDir := Given (Some "."%string);
     envFilePrefix :=
       Given (Some match loaded "NODE_ENV"%string with Some s => s | None => "env"%string end);
     envFileSuffix := Given (Some ".ejson"%string);
     keysDir := Given (Some "/opt/ejson/keys/"%string);
     getPrivateKey := Given (Some default_getPrivateKey);
     configJson := Absent |}.

Definition mergeConfigs (config : configuration resolver) : configuration resolver :=
  {| envFilePath := spread (envFilePath defaultConfig) (envFilePath config);
     envFileDir := spread (envFileDir defaultConfig) (envFileDir config);
     envFilePrefix := spread (envFilePrefix defaultConfig) (envFilePrefix config);
     envFileSuffix := spread (envFileSuffix defaultConfig) (envFileSuffix config);
     keysDir := spread (keysDir defaultConfig) (keysDir config);
     getPrivateKey := spread (getPrivateKey defaultConfig) (getPrivateKey config);
     configJson := spread (configJson defaultConfig) (configJson config) |}.

(** The path of the document when [configJson] does not give it. *)
Definition filePath (config : configuration resolver) : string :=
  match read (envFilePath config) with
  | Some p => p
  | None =>
      (template_text (read (envFileDir config)) ++ "/"
       ++ template_text (read (envFilePrefix config))
       ++ template_text (read (envFileSuffix config)))%string
  end.

Definition getConfigJson (config : configuration resolver) : IO value :=
  match read (configJson config) with
  | Some v =>
      if truthy v then io_ret v
      else envFile <~~ fs_readFile (filePath config) ;; io_result (JSON_parse envFile)
  | None => envFile <~~ fs_readFile (filePath config) ;; io_result (JSON_parse envFile)
  end.

(** [processEjson]: the argument [rawConf['_public_key']] is evaluated
    before the call, which fails when [conf.getPrivateKey] is undefined. *)
Definition processEjson (config : configuration resolver) : IO value :=
  let conf := mergeConfigs config in
  rawConf <~~ getConfigJson conf ;;
  publicKey <~~ io_result (read_public_key rawConf) ;;
  privateKey <~~ match read (getPrivateKey conf) with
                 | Some f =>
                     _ <~~ ([Core (Resolve publicKey)], Ret tt) ;;
                     f publicKey (view conf)
                 | None => ([], Raise (TypeError "conf.getPrivateKey is not a function"%string))
                 end ;;
  lift (processObjectFields rawConf privateKey).

End World.

End Config.

(** The text an option contributes to a path: its default when the
    caller leaves it out, and what the caller gives otherwise. *)
Definition option_text (default : string) (p : Config.property string) : string :=
  match p with
  | Config.Absent => default
  | Config.Given o => Config.template_text o
  end.

(** An environment variable that is set and not empty. *)
Definition truthy_string (o : option string) : bool :=
  match o with
  | Some s => negb (String.eqb s "")
  | None => false
  end.

(** The document is to be read from a file: the caller gives no truthy
    [configJson]. *)
Definition from_file {F : Type} (config : Config.configuration F) : Prop :=
  forall v, Config.read (Config.configJson config) = Some v -> truthy v = false.

(** A resolver that computes the key from the public key alone. *)
Definition pure_resolver (g : option value -> result string) : Config.resolver :=
  fun publicKey _ => Config.io_result (g publicKey).

(** ** Notions for the properties of the walker *)

(** A document the walker has nothing to do on: no key begins with [_]
    and no string begins with [EJ[], at any depth. *)
Fixpoint plain (v : value) : bool :=
  match v with
  | JStr s => negb (startsWith s "EJ[")
  | JArr elems => forallb plain elems
  | JObj fields =>
      forallb (fun p => negb (startsWith (fst p) "_") && plain (snd p)) fields
  | _ => true
  end.

(** A log of the walker in which every call of the parser is on a
    literal that begins with [EJ[] and every call of the codec follows
    the parser's call that accepted a literal, with the three fields of
    that literal and the key [pk].  With [whole], no call of the parser is
    left without the codec's. *)
Fixpoint paired (whole : bool) (pk : string) (l : list event) : bool :=
  match l with
  | [] => true
  | Parse s :: r =>
      startsWith s "EJ["
      && match parseEncryptedValue s with
         | Ok t =>
             match r with
             | Decrypt bx non pub key :: r' =>
                 String.eqb bx (box t) && String.eqb non (nonce t)
                 && String.eqb pub (encrypterPublic t) && String.eqb key pk
                 && paired whole pk r'
             | _ => false
             end
         | Throw _ => negb whole && match r with [] => true | _ => false end
         end
  | _ => false
  end.

(** A hexadecimal digit. *)
Definition is_hex (c : ascii) : bool :=
  match unhex c with
  | Some _ => true
  | None => false
  end.

(** Whether a computation returned. *)
Definition returned {A : Type} (o : outcome A) : bool :=
  match o with
  | Ret _ => true
  | _ => false
  end.

(** The log of a computation is paired, and wholly so when it
    returned. *)
Definition logged {A : Type} (pk : string) (m : M A) : Prop :=
  paired (returned (snd m)) pk (fst m) = true.

(** The number of characters of a text before its first [=]. *)
Fixpoint unpadded (s : string) : nat :=
  match s with
  | EmptyString => O
  | String c r => if Ascii.eqb c "=" then O else S (unpadded r)
  end.

(** The number of bytes a number of base64 characters decodes to. *)
Fixpoint decoded_length (n : nat) : nat :=
  match n with
  | S (S (S (S m))) => 3 + decoded_length m
  | 3%nat => 2
  | 2%nat => 1
  | _ => 0
  end.

(** ** A world for the examples

    The environment, the files and the configurations the examples of the
    configuration use: the document of the tests in [./env.ejson], and its
    private key, followed by a line end, in the key file the default
    resolver reads. *)

Definition line_end : string := String (ascii_of_N 10) EmptyString.

Definition quoted (s : string) : string :=
  (Config.double_quote ++ s ++ Config.double_quote)%string.

Definition test_document_text : string :=
  ("{" ++ quoted "_public_key" ++ ":" ++ quoted test_public_key ++ ","
   ++ quoted "test_secret" ++ ":" ++ quoted test_secret ++ "}")%string.

Definition test_key_file : string := ("/opt/ejson/keys/" ++ test_public_key)%string.

Definition no_such_file (path : string) : js_error :=
  Error ("ENOENT: no such file or directory, open '" ++ path ++ "'")%string.

Definition test_files (path : string) : result string :=
  if String.eqb path "./env.ejson" then Ok test_document_text
  else if String.eqb path test_key_file then Ok (test_private_key ++ line_end)%string
  else Throw (no_such_file path).

(** [JSON.parse] on the one text the files hold. *)
Definition test_JSON_parse (text : string) : result value :=
  if String.eqb text test_document_text then Ok testEjson
  else Throw (Error "Unexpected end of JSON input").

Definition no_environment : Config.environment := fun _ => None.

Definition key_environment : Config.environment :=
  fun name =>
    if String.eqb name "NODE_EJSON_PRIVATE_KEY" then Some test_private_key else None.

(** [processEjson()], [processEjson({configJson})] and
    [processEjson({configJson, getPrivateKey})]. *)
Definition no_options : Config.configuration Config.resolver :=
  Config.mkConfig Config.Absent Config.Absent Config.Absent Config.Absent Config.Absent
                  Config.Absent Config.Absent.

Definition document_given : Config.configuration Config.resolver :=
  Config.mkConfig Config.Absent Config.Absent Config.Absent Config.Absent Config.Absent
                  Config.Absent (Config.Given (Some testEjson)).

Definition document_and_resolver_given : Config.configuration Config.resolver :=
  Config.mkConfig Config.Absent Config.Absent Config.Absent Config.Absent Config.Absent
                  (Config.Given (Some (pure_resolver test_getPrivateKey)))
                  (Config.Given (Some testEjson)).

(** A document without secrets, and the document of the tests under a
    key of another. *)
Definition doc_plain : value :=
  (JObj [("name", JStr "app"); ("ports", JArr [JNum 80; JNum 443]);
        ("db", JObj [("host", JStr "localhost"); ("tls", JBool true)])])%string.

Definition doc_nested : value :=
  (JObj [("env", JStr "test"); ("inner", doc_falsy_sibling)])%string.

(** The document of the tests after the walk. *)
Definition testEjson_decrypted : value :=
  (JObj [("_public_key", JStr test_public_key); ("test_secret", JStr testSecretValue);
        ("public_key", JStr test_public_key)])%string.

Definition test_walk_log : list event :=
  [Parse test_secret;
   Decrypt test_box test_nonce test_encrypter_public test_private_key].

(** A number, a boolean or [null]. *)
Definition non_string_scalar (v : value) : bool :=
  match v with
  | JNull | JBool _ | JNum _ => true
  | _ => false
  end.

(** A number beside a default for it, truthy and falsy, and the token of
    the tests as an element of an array. *)
Definition doc_number_with_default : value :=
  (JObj [("_n", JNum 5); ("n", JNum 7)])%string.
Definition doc_zero_with_default : value :=
  (JObj [("_n", JNum 5); ("n", JNum 0)])%string.
Definition array_with_token : value := JArr [JNum 7; JStr test_secret].

(* ================================================================== *)
(** * Part II. Properties                                              *)
(* ================================================================== *)

(** ** The token parser *)

Section Matcher.

Local Open Scope string_scope.

Lemma lit_spec (p s r : string) : lit p s = Some r <-> s = p ++ r.
Proof.
  revert s; induction p as [|a p IH]; intros s; simpl.
  - split; [intros [= ->]; reflexivity | intros ->; reflexivity].
  - destruct s as [|b s]; [split; discriminate|].
    destruct (Ascii.eqb_spec a b) as [->|Hne].
    + rewrite IH. split; [intros ->; reflexivity | intros [= ->]; reflexivity].
    + split; [discriminate | intros [= E _]; congruence].
Qed.

Lemma cls_spec (P : ascii -> bool) (n : nat) (s f r : string) :
  cls P n s = Some (f, r) <->
  s = f ++ r /\ String.length f = n /\ all_chars P f = true.
Proof.
  revert s f r; induction n as [|n IH]; intros s f r; simpl.
  - split.
    + intros [= <- <-]. auto.
    + intros (-> & Hl & _). destruct f; [reflexivity | discriminate].
  - destruct s as [|c s].
    + split; [discriminate|]. intros (E & Hl & _).
      destruct f; simpl in *; discriminate.
    + destruct (P c) eqn:Pc.
      * destruct (cls P n s) as [[f' r']|] eqn:E.
        -- apply IH in E. destruct E as (-> & Hl & Ha).
           split.
           ++ intros [= <- <-]. simpl. rewrite Hl.
              unfold all_chars in *; simpl. rewrite Pc, Ha. auto.
           ++ intros (E & Hl' & Ha'). destruct f as [|c' f]; [discriminate|].
              simpl in E. injection E as <- E.
              assert (H : cls P n (f' ++ r') = Some (f, r)).
              { apply IH. rewrite E. unfold all_chars in *; simpl in *.
                apply andb_true_iff in Ha'. destruct Ha'. auto. }
              assert (H' : cls P n (f' ++ r') = Some (f', r')).
              { apply IH. auto. }
              congruence.
        -- split; [discriminate|]. intros (E' & Hl' & Ha').
           destruct f as [|c' f]; [discriminate|]. simpl in E'.
           injection E' as <- E'.
           assert (H : cls P n s = Some (f, r)).
           { apply IH. unfold all_chars in *; simpl in *.
             apply andb_true_iff in Ha'. destruct Ha'. auto. }
           congruence.
      * split; [discriminate|]. intros (E' & Hl' & Ha').
        destruct f as [|c' f]; [discriminate|]. simpl in E'.
        injection E' as <- E'. unfold all_chars in Ha'; simpl in Ha'.
        rewrite Pc in Ha'. discriminate.
Qed.

Lemma unsnoc_app (i : string) (l : ascii) : unsnoc (i ++ String l "") = Some (i, l).
Proof.
  induction i as [|c i IH]; simpl; [reflexivity|]. rewrite IH. reflexivity.
Qed.

Lemma unsnoc_spec (s i : string) (l : ascii) :
  unsnoc s = Some (i, l) <-> s = i ++ String l "".
Proof.
  split; [|intros ->; apply unsnoc_app].
  revert i; induction s as [|c s IH]; intros i; simpl; [discriminate|].
  destruct (unsnoc s) as [[i' l']|] eqn:E.
  - intros [= <- <-]. simpl. f_equal. apply IH. reflexivity.
  - intros [= <- <-]. destruct s; [reflexivity|].
    simpl in E. destruct (unsnoc s) as [[? ?]|]; discriminate.
Qed.

Lemma dots_bracket_end_spec (s bx : string) :
  dots_bracket_end s = Some bx <->
  s = bx ++ "]" /\ bx <> "" /\ has_line_terminator bx = false.
Proof.
  unfold dots_bracket_end. split.
  - destruct (unsnoc s) as [[i l]|] eqn:E; [|discriminate].
    apply unsnoc_spec in E. destruct i as [|c b]; [discriminate|].
    destruct (Ascii.eqb_spec l "]") as [->|]; [|discriminate].
    destruct (has_line_terminator (String c b)) eqn:Hlt; [discriminate|].
    intros [= <-]. repeat split; [assumption | discriminate | assumption].
  - intros (-> & Hne & Hlt). rewrite unsnoc_app.
    destruct bx as [|c b]; [congruence|]. rewrite Hlt. reflexivity.
Qed.

(** The matcher decides the pattern: it succeeds with the captures
    [d], [pub], [non], [bx] exactly on the texts [EJ[d:pub:non:bx]] whose
    fields have the widths and classes of the pattern and whose last
    field is a non-empty run of [.] characters. *)
Lemma ejsonRegex_spec (value : string) (d : ascii) (pub non bx : string) :
  ejsonRegex value = Some (d, pub, non, bx) <->
  value = token_text d pub non bx /\ fields_ok d pub non bx /\
  has_line_terminator bx = false.
Proof.
  unfold ejsonRegex, token_text, fields_ok. split.
  - destruct (lit "EJ[" value) as [[|d' r0]|] eqn:E0; try discriminate.
    apply lit_spec in E0.
    destruct (is_digit d') eqn:Hd; [|discriminate].
    destruct (lit ":" r0) as [r1|] eqn:E1; [|discriminate].
    apply lit_spec in E1.
    destruct (cls is_b64_class 44 r1) as [[pub' r2]|] eqn:E2; [|discriminate].
    apply cls_spec in E2. destruct E2 as (E2 & Lp & Ap).
    destruct (lit ":" r2) as [r3|] eqn:E3; [|discriminate].
    apply lit_spec in E3.
    destruct (cls is_b64_class 32 r3) as [[non' r4]|] eqn:E4; [|discriminate].
    apply cls_spec in E4. destruct E4 as (E4 & Ln & An).
    destruct (lit ":" r4) as [r5|] eqn:E5; [|discriminate].
    apply lit_spec in E5.
    destruct (dots_bracket_end r5) as [bx'|] eqn:E6; [|discriminate].
    apply dots_bracket_end_spec in E6. destruct E6 as (E6 & Hne & Hlt).
    intros [= <- <- <- <-]. subst.
    repeat split; auto.
  - intros (-> & (Hd & Lp & Ap & Ln & An & Hne) & Hlt).
    rewrite (proj2 (lit_spec "EJ[" _ _) eq_refl). cbv beta iota.
    rewrite Hd.
    rewrite (proj2 (lit_spec ":" _ _) eq_refl).
    rewrite (proj2 (cls_spec is_b64_class 44 _ pub _) (conj eq_refl (conj Lp Ap))).
    rewrite (proj2 (lit_spec ":" _ _) eq_refl).
    rewrite (proj2 (cls_spec is_b64_class 32 _ non _) (conj eq_refl (conj Ln An))).
    rewrite (proj2 (lit_spec ":" _ _) eq_refl).
    rewrite (proj2 (dots_bracket_end_spec _ bx) (conj eq_refl (conj Hne Hlt))).
    reflexivity.
Qed.

End Matcher.

(** The schema version is the value of the digit. *)
Lemma parseInt_digit_range (d : ascii) :
  is_digit d = true -> 0 <= parseInt_digit d <= 9.
Proof.
  unfold is_digit, in_range, parseInt_digit. intros H.
  apply andb_true_iff in H. destruct H as [H1 H2].
  apply N.leb_le in H1, H2. lia.
Qed.

(** C1 (as amended).  [parseEncryptedValue] returns a token exactly on the
    texts [EJ[d:pub:non:bx]] with [d] a decimal digit, [pub] 44 and [non] 32
    characters of the class [[A-Za-z0-9+=/]], and [bx] one or more
    characters none of which is a line terminator (LF, CR, U+2028,
    U+2029); the token then holds the digit as an integer and the three
    fields.  On every other text it throws one error whose message is
    [Invalid EJSON: ] followed by the text. *)
Theorem C1_parseEncryptedValue_grammar (value : string) :
  (forall t, parseEncryptedValue value = Ok t <->
     exists d pub non bx,
       value = token_text d pub non bx /\ fields_ok d pub non bx /\
       has_line_terminator bx = false /\
       t = {| schemaVersion := parseInt_digit d; encrypterPublic := pub;
              nonce := non; box := bx |}) /\
  (forall e, parseEncryptedValue value = Throw e <->
     e = Error ("Invalid EJSON: " ++ value) /\
     ~ exists d pub non bx,
         value = token_text d pub non bx /\ fields_ok d pub non bx /\
         has_line_terminator bx = false).
Proof.
  unfold parseEncryptedValue. split.
  - intros t. split.
    + destruct (ejsonRegex value) as [[[[d pub] non] bx]|] eqn:E; [|discriminate].
      apply ejsonRegex_spec in E. destruct E as (E & F & L).
      intros [= <-]. exists d, pub, non, bx. auto.
    + intros (d & pub & non & bx & E & F & L & ->).
      rewrite (proj2 (ejsonRegex_spec value d pub non bx) (conj E (conj F L))).
      reflexivity.
  - intros e. split.
    + destruct (ejsonRegex value) as [[[[d pub] non] bx]|] eqn:E; [discriminate|].
      intros [= <-]. split; [reflexivity|].
      intros (d & pub & non & bx & H).
      apply (proj2 (ejsonRegex_spec value d pub non bx)) in H. congruence.
    + intros (-> & Hno).
      destruct (ejsonRegex value) as [[[[d pub] non] bx]|] eqn:E; [|reflexivity].
      exfalso. apply Hno. exists d, pub, non, bx.
      apply ejsonRegex_spec. assumption.
Qed.

(** C1 as stated fails: a text that has the shape of the grammar, with a
    last field of one or more characters among which a line feed, is not
    parsed. *)
Lemma C1_counterexample :
  ~ (forall d pub non bx, fields_ok d pub non bx ->
       exists t, parseEncryptedValue (token_text d pub non bx) = Ok t).
Proof.
  intros H.
  destruct (H "1"%char "AAAAAAAAAAAAAAAAAAAAAAAAAAAAAAAAAAAAAAAAAAAA"%string
              "AAAAAAAAAAAAAAAAAAAAAAAAAAAAAAAA"%string
              (String "a" (String (ascii_of_nat 10) (String "b" EmptyString))))
    as [t Ht].
  - unfold fields_ok. repeat split; try reflexivity. discriminate.
  - vm_compute in Ht. discriminate.
Qed.

(** The repository's test of the parser. *)
Example parseEncryptedValue_test :
  parseEncryptedValue test_secret =
  Ok {| schemaVersion := 1;
        encrypterPublic := "jeDOl5qTBwflgRuusXrqoT5eclnznLKuCp8fxbuHjGg=";
        nonce := "fRVLp8YU/m9sb04HKAN9r8RVzLNWkdTu";
        box := "uhoMKBnFTUDSO5nayF/Wx/D+d8dPBIlLUJq8KA==" |}.
Proof. reflexivity. Qed.

(** ** Text encodings of [Buffer] *)

Lemma byte_of_range (c : ascii) : is_byte (byte_of c).
Proof.
  unfold is_byte, byte_of, code. pose proof (N_ascii_bounded c). lia.
Qed.

Lemma char_of_byte_of (c : ascii) : char_of (byte_of c) = c.
Proof.
  unfold char_of. rewrite Z.mod_small by apply byte_of_range.
  unfold byte_of, code. rewrite N2Z.id. apply ascii_N_embedding.
Qed.

Lemma string_of_bytes_of_string (s : string) : string_of_bytes (bytes_of_string s) = s.
Proof.
  unfold string_of_bytes, bytes_of_string. rewrite map_map.
  rewrite (map_ext _ (fun c => c)) by apply char_of_byte_of.
  rewrite map_id. apply string_of_list_ascii_of_string.
Qed.

Lemma bytes_of_string_range (s : string) : Forall is_byte (bytes_of_string s).
Proof.
  unfold bytes_of_string. apply Forall_forall. intros x Hx.
  apply in_map_iff in Hx. destruct Hx as (c & <- & _). apply byte_of_range.
Qed.

(** A decoding step that reads a sequence takes it off the input as it is. *)
Lemma utf8_step_some (b0 : Z) (r seq rest : bytes) :
  utf8_step b0 r = (Some seq, rest) -> seq ++ rest = b0 :: r.
Proof.
  unfold utf8_step.
  repeat match goal with
         | |- context [if ?c then _ else _] => destruct c
         | |- context [match ?l with [] => _ | _ :: _ => _ end] => destruct l
         end;
    intros [= <- <-]; reflexivity.
Qed.

Lemma utf8_decode_wf (fuel : nat) (b : bytes) :
  utf8_wf fuel b = true -> utf8_decode fuel b = b.
Proof.
  revert b; induction fuel as [|fuel IH]; intros b; simpl.
  - destruct b; [reflexivity | discriminate].
  - destruct b as [|b0 r]; [reflexivity|].
    destruct (utf8_step b0 r) as [[seq|] rest] eqn:E; [|discriminate].
    intros H. rewrite (IH _ H). simpl. apply utf8_step_some. assumption.
Qed.

(** Well-formed text survives [Buffer.from(s, 'utf8').toString('utf8')]. *)
Lemma utf8_roundtrip (s : string) :
  well_formed s = true -> toString_utf8 (Buffer_from_utf8 s) = s.
Proof.
  unfold well_formed, toString_utf8, Buffer_from_utf8. intros H.
  rewrite (utf8_decode_wf _ _ H). apply string_of_bytes_of_string.
Qed.

(** *** base64 *)

(** Facts about bytes and sextets are checked on all of them. *)
Lemma all_below_spec (n : nat) (p : Z -> bool) :
  all_below n p = true -> forall x, 0 <= x < Z.of_nat n -> p x = true.
Proof.
  unfold all_below. intros H x Hx.
  rewrite forallb_forall in H. specialize (H (Z.to_nat x)).
  rewrite Z2Nat.id in H by lia. apply H. apply in_seq. lia.
Qed.

Lemma sextet_ok_spec (v : Z) :
  sextet_ok v = true ->
  Ascii.eqb (b64_char v) "=" = false /\ b64_value (b64_char v) = Some v.
Proof.
  unfold sextet_ok. intros H. apply andb_true_iff in H. destruct H as [H1 H2].
  apply negb_true_iff in H1. split; [assumption|].
  destruct (b64_value (b64_char v)); [|discriminate].
  apply Z.eqb_eq in H2. congruence.
Qed.

Lemma pairs_check :
  all_below 256 (fun x => all_below 256 (fun y =>
    sextet_ok (s0 x) && sextet_ok (s1 x y) && sextet_ok (s2 x y) && sextet_ok (s3 x)
    && sextet_ok (Z.shiftl (Z.land x 3) 4) && sextet_ok (Z.shiftl (Z.land x 15) 2)
    && (b1 (s0 x) (s1 x y) =? x) && (b1 (s0 x) (Z.shiftl (Z.land x 3) 4) =? x)
    && (Z.land (s1 x y) 15 =? Z.shiftr y 4) && (Z.shiftr (s2 x y) 2 =? Z.land x 15)
    && (Z.shiftr (Z.shiftl (Z.land x 15) 2) 2 =? Z.land x 15)
    && (Z.lor (Z.shiftl (Z.shiftr x 4) 4) (Z.land x 15) =? x)
    && (Z.land (s2 x y) 3 =? Z.shiftr y 6)
    && (Z.lor (Z.shiftl (Z.shiftr x 6) 6) (s3 x) =? x))) = true.
Proof. vm_compute. reflexivity. Qed.

Ltac split_andb H :=
  repeat match type of H with
         | (_ && _)%bool = true =>
             let H' := fresh "K" in
             apply andb_true_iff in H; destruct H as [H H']
         end.

Lemma pair_facts (x y : Z) :
  is_byte x -> is_byte y ->
  sextet_ok (s0 x) = true /\ sextet_ok (s1 x y) = true /\
  sextet_ok (s2 x y) = true /\ sextet_ok (s3 x) = true /\
  sextet_ok (Z.shiftl (Z.land x 3) 4) = true /\
  sextet_ok (Z.shiftl (Z.land x 15) 2) = true /\
  b1 (s0 x) (s1 x y) = x /\ b1 (s0 x) (Z.shiftl (Z.land x 3) 4) = x /\
  Z.land (s1 x y) 15 = Z.shiftr y 4 /\ Z.shiftr (s2 x y) 2 = Z.land x 15 /\
  Z.shiftr (Z.shiftl (Z.land x 15) 2) 2 = Z.land x 15 /\
  Z.lor (Z.shiftl (Z.shiftr x 4) 4) (Z.land x 15) = x /\
  Z.land (s2 x y) 3 = Z.shiftr y 6 /\
  Z.lor (Z.shiftl (Z.shiftr x 6) 6) (s3 x) = x.
Proof.
  intros Hx Hy.
  pose proof (all_below_spec _ _ pairs_check x Hx) as H. cbv beta in H.
  pose proof (all_below_spec _ _ H y Hy) as K. cbv beta in K. clear H.
  split_andb K.
  repeat match goal with H : (_ =? _) = true |- _ => apply Z.eqb_eq in H end.
  repeat split; assumption.
Qed.

Lemma b64_sextets_cons (v : Z) (l : list ascii) :
  sextet_ok v = true -> b64_sextets (b64_char v :: l) = v :: b64_sextets l.
Proof.
  intros H. apply sextet_ok_spec in H. destruct H as [H1 H2].
  simpl. rewrite H1, H2. reflexivity.
Qed.

(** Induction on a list by groups of three. *)
Lemma list_ind3 (A : Type) (P : list A -> Prop) :
  P [] -> (forall x, P [x]) -> (forall x y, P [x; y]) ->
  (forall x y z r, P r -> P (x :: y :: z :: r)) ->
  forall l, P l.
Proof.
  intros H0 H1 H2 H3.
  assert (K : forall l, P l /\ (forall x, P (x :: l)) /\ (forall x y, P (x :: y :: l))).
  { induction l as [|a l (IH0 & IH1 & IH2)]; auto. }
  intros l. apply K.
Qed.

(** *** Code units of one-byte characters *)

Lemma code_unit_bytes_app (key rest : string) :
  all_chars is_ascii key = true ->
  code_unit_bytes (key ++ rest) = list_ascii_of_string key ++ code_unit_bytes rest.
Proof.
  unfold all_chars. induction key as [|c key IH];
    cbn [list_ascii_of_string forallb String.append app]; [reflexivity|].
  intros H. apply andb_true_iff in H. destruct H as [Hc Hk].
  unfold code_unit_bytes, bytes_of_string.
  cbn [list_ascii_of_string map length code_units].
  assert (Hb : (byte_of c <? 128) = true).
  { unfold is_ascii in Hc. apply N.ltb_lt in Hc. apply Z.ltb_lt. unfold byte_of. lia. }
  unfold utf8_step. rewrite Hb. cbn [code_point]. unfold utf16.
  assert (Hu : (byte_of c <? 65536) = true).
  { apply Z.ltb_lt. apply Z.ltb_lt in Hb. lia. }
  rewrite Hu. cbn [app map]. rewrite char_of_byte_of. f_equal.
  apply (IH Hk).
Qed.

Lemma code_unit_bytes_ascii (s : string) :
  all_chars is_ascii s = true -> code_unit_bytes s = list_ascii_of_string s.
Proof.
  intros H. pose proof (code_unit_bytes_app s "" H) as K.
  assert (E : forall t : string, (t ++ "")%string = t).
  { induction t as [|c t IH]; cbn; [reflexivity | rewrite IH; reflexivity]. }
  rewrite E in K. rewrite K. apply app_nil_r.
Qed.

Lemma class_ascii (c : ascii) : is_b64_class c = true -> is_ascii c = true.
Proof.
  destruct c as [[|] [|] [|] [|] [|] [|] [|] [|]]; intros H;
    first [discriminate H | reflexivity].
Qed.

Lemma forallb_class_ascii (l : list ascii) :
  forallb is_b64_class l = true -> forallb is_ascii l = true.
Proof.
  rewrite !forallb_forall. intros H c Hc. apply class_ascii. apply H. exact Hc.
Qed.

Lemma b64_char_class_check : all_below 64 (fun v => is_b64_class (b64_char v)) = true.
Proof. vm_compute. reflexivity. Qed.

Lemma b64_value_range (c : ascii) (v : Z) : b64_value c = Some v -> 0 <= v < 64.
Proof.
  unfold b64_value, in_range, byte_of.
  repeat match goal with
         | |- context [(?a <=? ?b)%N] => destruct (N.leb_spec a b)
         end; cbn [andb]; try (intros [= <-]; lia);
    repeat match goal with
           | |- context [if ?b then _ else _] => destruct b
           end; intros [= <-]; lia.
Qed.

Lemma sextet_class (v : Z) : sextet_ok v = true -> is_b64_class (b64_char v) = true.
Proof.
  intros H. apply sextet_ok_spec in H. destruct H as [_ H].
  apply b64_value_range in H.
  apply (all_below_spec 64 _ b64_char_class_check v). lia.
Qed.

Lemma b64_encode_class (b : bytes) :
  Forall is_byte b -> forallb is_b64_class (b64_encode b) = true.
Proof.
  induction b as [|x|x y|x y z r IH] using list_ind3; intros Hb.
  - reflexivity.
  - inversion_clear Hb as [|? ? Hx _].
    destruct (pair_facts x x Hx Hx) as (A0 & _ & _ & _ & A4 & _).
    apply sextet_class in A0, A4. unfold s0 in A0.
    cbn [b64_encode forallb]. rewrite A0, A4. reflexivity.
  - inversion_clear Hb as [|? ? Hx Hb']. inversion_clear Hb' as [|? ? Hy _].
    destruct (pair_facts x y Hx Hy) as (A0 & A1 & _).
    destruct (pair_facts y y Hy Hy) as (_ & _ & _ & _ & _ & B5 & _).
    apply sextet_class in A0, A1, B5. unfold s0, s1 in *.
    cbn [b64_encode forallb]. rewrite A0, A1, B5. reflexivity.
  - inversion_clear Hb as [|? ? Hx Hb']. inversion_clear Hb' as [|? ? Hy Hb''].
    inversion_clear Hb'' as [|? ? Hz Hr].
    destruct (pair_facts x y Hx Hy) as (A0 & A1 & _).
    destruct (pair_facts y z Hy Hz) as (_ & _ & B2 & _).
    destruct (pair_facts z z Hz Hz) as (_ & _ & _ & C3 & _).
    apply sextet_class in A0, A1, B2, C3. unfold s0, s1, s2, s3 in *.
    cbn [b64_encode forallb]. rewrite A0, A1, B2, C3, (IH Hr). reflexivity.
Qed.

(** The bytes of a buffer are what decoding its base64 text gives. *)
Lemma base64_roundtrip (b : bytes) :
  Forall is_byte b -> Buffer_from_base64 (toString_base64 b) = b.
Proof.
  intros Hb. unfold Buffer_from_base64, toString_base64.
  rewrite code_unit_bytes_ascii
    by (unfold all_chars; rewrite list_ascii_of_string_of_list_ascii;
        apply forallb_class_ascii, b64_encode_class; exact Hb).
  rewrite list_ascii_of_string_of_list_ascii. revert Hb.
  induction b as [|x|x y|x y z r IH] using list_ind3; intros Hb.
  - reflexivity.
  - inversion Hb as [|? ? Hx _]; subst.
    destruct (pair_facts x x Hx Hx) as (K0 & _ & _ & _ & K4 & _ & _ & K7 & _).
    cbn [b64_encode]. rewrite !b64_sextets_cons by assumption.
    transitivity [b1 (s0 x) (Z.shiftl (Z.land x 3) 4)]; [reflexivity|].
    rewrite K7. reflexivity.
  - inversion Hb as [|? ? Hx Hb']; subst. inversion Hb' as [|? ? Hy _]; subst.
    destruct (pair_facts x y Hx Hy) as (K0 & K1 & _ & _ & _ & _ & K6 & _ & K8 & _).
    destruct (pair_facts y y Hy Hy) as (_ & _ & _ & _ & _ & L5 & _ & _ & _ & _ & L10 & L11 & _).
    cbn [b64_encode]. fold (s0 x) (s1 x y).
    rewrite !b64_sextets_cons by assumption.
    transitivity [b1 (s0 x) (s1 x y);
                  Z.lor (Z.shiftl (Z.land (s1 x y) 15) 4)
                        (Z.shiftr (Z.shiftl (Z.land y 15) 2) 2)]; [reflexivity|].
    rewrite K6, K8, L10, L11. reflexivity.
  - inversion Hb as [|? ? Hx Hb']; subst. inversion Hb' as [|? ? Hy Hb'']; subst.
    inversion Hb'' as [|? ? Hz Hr]; subst.
    destruct (pair_facts x y Hx Hy) as (K0 & K1 & _ & _ & _ & _ & K6 & _ & K8 & _).
    destruct (pair_facts y z Hy Hz) as (_ & _ & L2 & _ & _ & _ & _ & _ & _ & L9 & _ & L11 & L12 & _).
    destruct (pair_facts z z Hz Hz) as (_ & _ & _ & M3 & _ & _ & _ & _ & _ & _ & _ & _ & _ & M13).
    cbn [b64_encode]. fold (s0 x) (s1 x y) (s2 y z) (s3 z).
    rewrite !b64_sextets_cons by assumption.
    transitivity (b1 (s0 x) (s1 x y)
                  :: Z.lor (Z.shiftl (Z.land (s1 x y) 15) 4) (Z.shiftr (s2 y z) 2)
                  :: Z.lor (Z.shiftl (Z.land (s2 y z) 3) 6) (s3 z)
                  :: b64_groups (b64_sextets (b64_encode r))); [reflexivity|].
    rewrite K6, K8, L9, L11, L12, M13, (IH Hr). reflexivity.
Qed.

(** ** The box primitive *)

Lemma le_encode_length (n : nat) (v : Z) : length (nacl.le_encode n v) = n.
Proof. revert v; induction n; intros v; simpl; auto. Qed.

Lemma le_encode_range (n : nat) (v : Z) : Forall is_byte (nacl.le_encode n v).
Proof.
  revert v; induction n; intros v; simpl; constructor; auto.
  unfold is_byte. apply Z.mod_pos_bound. lia.
Qed.

Lemma flat_map_length_const {A B : Type} (f : A -> list B) (n : nat) (l : list A) :
  (forall x, length (f x) = n) -> length (flat_map f l) = (n * length l)%nat.
Proof.
  intros H. induction l as [|a l IH]; simpl; [lia|].
  rewrite length_app, H, IH. lia.
Qed.

Lemma flat_map_Forall {A B : Type} (P : B -> Prop) (f : A -> list B) (l : list A) :
  (forall x, Forall P (f x)) -> Forall P (flat_map f l).
Proof.
  intros H. induction l as [|a l IH]; simpl; [constructor|].
  apply Forall_app. auto.
Qed.

Lemma Forall_take {A : Type} (P : A -> Prop) (n : nat) (l : list A) :
  Forall P l -> Forall P (firstn n l).
Proof.
  intros H. revert n; induction H as [|x l Hx Hl IH]; intros [|n]; simpl;
    constructor; auto.
Qed.

Lemma Forall_drop {A : Type} (P : A -> Prop) (n : nat) (l : list A) :
  Forall P l -> Forall P (skipn n l).
Proof.
  intros H. revert n; induction H as [|x l Hx Hl IH]; intros [|n]; simpl;
    try constructor; auto.
Qed.

Lemma firstn_length_app {A : Type} (n : nat) (a b : list A) :
  length a = n -> firstn n (a ++ b) = a.
Proof.
  intros <-. induction a as [|x a IH]; simpl; [destruct b; reflexivity | rewrite IH; reflexivity].
Qed.

Lemma skipn_length_app {A : Type} (n : nat) (a b : list A) :
  length a = n -> skipn n (a ++ b) = b.
Proof. intros <-. induction a as [|x a IH]; simpl; [reflexivity | exact IH]. Qed.

Lemma round_length (x : list Z) : length (nacl.round x) = length x.
Proof.
  unfold nacl.round.
  do 16 (destruct x as [|? x]; [reflexivity|]).
  destruct x; [|reflexivity].
  repeat match goal with |- context [nacl.quarter ?t] => destruct (nacl.quarter t) as [[[? ?] ?] ?] end.
  reflexivity.
Qed.

Lemma rounds_length (n : nat) (x : list Z) : length (nacl.rounds n x) = length x.
Proof.
  revert x; induction n; intros x; simpl; [reflexivity|].
  rewrite IHn. apply round_length.
Qed.

Lemma core_salsa20_length (inp k : bytes) : length (nacl.core_salsa20 inp k) = 64%nat.
Proof.
  unfold nacl.core_salsa20.
  rewrite (flat_map_length_const _ 4%nat) by (intros; apply le_encode_length).
  rewrite length_map, length_combine, rounds_length. reflexivity.
Qed.

Lemma core_salsa20_range (inp k : bytes) : Forall is_byte (nacl.core_salsa20 inp k).
Proof.
  unfold nacl.core_salsa20. cbv zeta.
  apply flat_map_Forall. intros; apply le_encode_range.
Qed.

Lemma core_hsalsa20_length (inp k : bytes) : length (nacl.core_hsalsa20 inp k) = 32%nat.
Proof.
  unfold nacl.core_hsalsa20.
  rewrite (flat_map_length_const _ 4%nat) by (intros; apply le_encode_length).
  reflexivity.
Qed.

Lemma salsa20_stream_length (len : nat) (n8 k : bytes) :
  length (nacl.salsa20_stream len n8 k) = len.
Proof.
  unfold nacl.salsa20_stream. rewrite length_firstn.
  rewrite (flat_map_length_const _ 64%nat) by (intros; apply core_salsa20_length).
  rewrite length_seq.
  pose proof (Nat.div_mod_eq (len + 63) 64).
  pose proof (Nat.mod_upper_bound (len + 63) 64).
  lia.
Qed.

Lemma salsa20_stream_range (len : nat) (n8 k : bytes) :
  Forall is_byte (nacl.salsa20_stream len n8 k).
Proof.
  unfold nacl.salsa20_stream. apply Forall_take.
  apply flat_map_Forall. intros; apply core_salsa20_range.
Qed.

Lemma xor_bytes_length (a b : bytes) :
  (length a <= length b)%nat -> length (nacl.xor_bytes a b) = length a.
Proof.
  intros H. unfold nacl.xor_bytes. rewrite length_map, length_combine. lia.
Qed.

(** Applying the same key stream twice gives the message back. *)
Lemma xor_bytes_involutive (m t : bytes) :
  (length m <= length t)%nat -> nacl.xor_bytes (nacl.xor_bytes m t) t = m.
Proof.
  unfold nacl.xor_bytes. revert t; induction m as [|x m IH]; intros t H.
  - reflexivity.
  - destruct t as [|y t]; simpl in H; [lia|]. simpl.
    rewrite IH by lia. f_equal.
    rewrite Z.lxor_assoc, Z.lxor_nilpotent, Z.lxor_0_r. reflexivity.
Qed.

Lemma xor_check :
  all_below 256 (fun x => all_below 256 (fun y =>
    (0 <=? Z.lxor x y) && (Z.lxor x y <? 256))) = true.
Proof. vm_compute. reflexivity. Qed.

Lemma xor_bytes_range (a b : bytes) :
  Forall is_byte a -> Forall is_byte b -> Forall is_byte (nacl.xor_bytes a b).
Proof.
  unfold nacl.xor_bytes. intros Ha; revert b.
  induction Ha as [|x a Hx Ha IH]; intros b Hb; [constructor|].
  destruct Hb as [|y b Hy Hb]; simpl; constructor; auto.
  pose proof (all_below_spec _ _ xor_check x Hx) as H. cbv beta in H.
  pose proof (all_below_spec _ _ H y Hy) as K. cbv beta in K.
  apply andb_true_iff in K. destruct K as [K1 K2].
  unfold is_byte. apply Z.leb_le in K1. apply Z.ltb_lt in K2. lia.
Qed.

Lemma bytes_eqb_refl (a : bytes) : nacl.bytes_eqb a a = true.
Proof.
  unfold nacl.bytes_eqb. rewrite Nat.eqb_refl. simpl.
  induction a as [|x a IH]; simpl; [reflexivity|].
  rewrite Z.eqb_refl. assumption.
Qed.

Lemma onetimeauth_length (m key : bytes) : length (nacl.onetimeauth m key) = 16%nat.
Proof. apply le_encode_length. Qed.

(** What [secretbox] seals, [secretbox.open] opens under the same nonce and
    key. *)
Lemma secretbox_open_secretbox (msg n key : bytes) :
  nacl.secretbox_open_raw (nacl.secretbox_raw msg n key) n key = Some msg.
Proof.
  unfold nacl.secretbox_open_raw, nacl.secretbox_raw.
  set (s := nacl.xsalsa20_stream (32 + length msg) n key).
  assert (Ls : length s = (32 + length msg)%nat) by apply salsa20_stream_length.
  set (c := nacl.xor_bytes msg (skipn 32 s)).
  assert (Lc : length c = length msg).
  { apply xor_bytes_length. rewrite length_skipn. lia. }
  set (tag := nacl.onetimeauth c (firstn 32 s)).
  assert (Lt : length tag = 16%nat) by apply onetimeauth_length.
  rewrite length_app, Lt.
  replace (16 + length c <? 16)%nat with false by (symmetry; apply Nat.ltb_ge; lia).
  rewrite (firstn_length_app 16 tag c Lt), (skipn_length_app 16 tag c Lt).
  rewrite Lc. fold s. fold tag. rewrite bytes_eqb_refl.
  f_equal. apply xor_bytes_involutive. rewrite length_skipn. lia.
Qed.

Lemma scalarmult_length (n p : bytes) : length (nacl.scalarmult n p) = 32%nat.
Proof.
  unfold nacl.scalarmult.
  destruct (nacl.ladder _ _ _ _) as [[[x2 z2] ?] ?]. apply le_encode_length.
Qed.

Lemma secretbox_raw_range (msg n key : bytes) :
  Forall is_byte msg -> Forall is_byte (nacl.secretbox_raw msg n key).
Proof.
  intros Hm. unfold nacl.secretbox_raw. apply Forall_app. split.
  - apply le_encode_range.
  - apply xor_bytes_range; [assumption|].
    apply Forall_drop. apply salsa20_stream_range.
Qed.

Lemma checkLengths_ok (k n : bytes) :
  length k = 32%nat -> length n = 24%nat -> nacl.checkLengths k n = Ok tt.
Proof. unfold nacl.checkLengths. intros -> ->. reflexivity. Qed.

Lemma checkBoxLengths_ok (pk sk : bytes) :
  length pk = 32%nat -> length sk = 32%nat -> nacl.checkBoxLengths pk sk = Ok tt.
Proof. unfold nacl.checkBoxLengths. intros -> ->. reflexivity. Qed.

(** Sealing to the recipient and opening as the recipient, on buffers. *)
Lemma box_open_box (msg n pkS skS pkR skR : bytes) :
  length n = 24%nat ->
  length pkS = 32%nat -> length skS = 32%nat ->
  length pkR = 32%nat -> length skR = 32%nat ->
  nacl.beforenm pkR skS = nacl.beforenm pkS skR ->
  exists sealed,
    nacl.box msg n pkR skS = Ok sealed /\
    sealed = nacl.secretbox_raw msg n (nacl.beforenm pkR skS) /\
    nacl.box_open sealed n pkS skR = Ok (Some msg).
Proof.
  intros Ln LpS LsS LpR LsR Hk.
  exists (nacl.secretbox_raw msg n (nacl.beforenm pkR skS)).
  unfold nacl.box, nacl.box_open, nacl.box_before, nacl.secretbox, nacl.secretbox_open.
  rewrite !checkBoxLengths_ok by assumption. simpl.
  rewrite <- Hk.
  rewrite !checkLengths_ok by (assumption || apply core_hsalsa20_length). simpl.
  rewrite secretbox_open_secretbox. auto.
Qed.

(** C2.  Round trip of the codec over its textual encodings: for a
    well-formed plaintext [P], a nonce [N] decoding to 24 bytes and two key
    pairs whose secrets satisfy the key-agreement symmetry of the
    primitive, [encrypt] with the recipient's public and the sender's
    secret key returns a text that [decrypt], with the same nonce, the
    sender's public and the recipient's secret key, turns back into
    [P]. *)
Theorem C2_decrypt_encrypt (P N senderPublic senderSecret recipientPublic recipientSecret : string) :
  well_formed P = true ->
  length (Buffer_from_base64 N) = 24%nat ->
  keypair senderPublic senderSecret ->
  keypair recipientPublic recipientSecret ->
  agreement (Buffer_from_hex senderSecret) (Buffer_from_hex recipientSecret) ->
  exists sealed,
    encrypt P N recipientPublic senderSecret = Ok sealed /\
    decrypt sealed N senderPublic recipientSecret = Ok P.
Proof.
  intros Hwf Ln [LsS HS] [LsR HR] Hagree.
  assert (LpS : length (Buffer_from_base64 senderPublic) = 32%nat).
  { rewrite HS. apply scalarmult_length. }
  assert (LpR : length (Buffer_from_base64 recipientPublic) = 32%nat).
  { rewrite HR. apply scalarmult_length. }
  assert (Hk : nacl.beforenm (Buffer_from_base64 recipientPublic) (Buffer_from_hex senderSecret)
               = nacl.beforenm (Buffer_from_base64 senderPublic) (Buffer_from_hex recipientSecret)).
  { unfold nacl.beforenm. rewrite HS, HR. unfold agreement in Hagree.
    rewrite Hagree. reflexivity. }
  destruct (box_open_box (Buffer_from_utf8 P) _ _ _ _ _ Ln LpS LsS LpR LsR Hk)
    as (sealed & Hbox & Hsealed & Hopen).
  exists (toString_base64 sealed). unfold encrypt, decrypt.
  rewrite Hbox. simpl. split; [reflexivity|].
  rewrite base64_roundtrip.
  - rewrite Hopen. simpl. rewrite utf8_roundtrip by assumption. reflexivity.
  - rewrite Hsealed. apply secretbox_raw_range. apply bytes_of_string_range.
Qed.

(** The theorem applies to the key pair of the tests as recipient, a
    second key pair as sender, and the tests' plaintext and nonce. *)
Lemma C2_decrypt_encrypt_witness :
  exists sealed,
    encrypt testSecretValue test_nonce test_public_key_b64 sender_private_key = Ok sealed /\
    decrypt sealed test_nonce sender_public_key_b64 test_private_key = Ok testSecretValue.
Proof.
  apply (C2_decrypt_encrypt testSecretValue test_nonce sender_public_key_b64
           sender_private_key test_public_key_b64 test_private_key).
  - reflexivity.
  - reflexivity.
  - split; vm_compute; reflexivity.
  - split; vm_compute; reflexivity.
  - vm_compute. reflexivity.
Defined.

(** The repository's tests of the codec. *)
Example decrypt_test :
  decrypt "uhoMKBnFTUDSO5nayF/Wx/D+d8dPBIlLUJq8KA==" "fRVLp8YU/m9sb04HKAN9r8RVzLNWkdTu"
          "jeDOl5qTBwflgRuusXrqoT5eclnznLKuCp8fxbuHjGg=" test_private_key
  = Ok testSecretValue.
Proof. vm_compute. reflexivity. Qed.

Example encrypt_test :
  encrypt testSecretValue "fRVLp8YU/m9sb04HKAN9r8RVzLNWkdTu"
          "jeDOl5qTBwflgRuusXrqoT5eclnznLKuCp8fxbuHjGg=" test_private_key
  = Ok "uhoMKBnFTUDSO5nayF/Wx/D+d8dPBIlLUJq8KA=="%string.
Proof. vm_compute. reflexivity. Qed.

(** ** Rejected ciphertexts *)

(** When the primitive rejects the ciphertext it returns [null], and
    [decrypt] passes [null] to [Buffer.from], which throws. *)
Lemma decrypt_rejected (message nonce theirPublicKey mySecretKey : string) :
  nacl.box_open (Buffer_from_base64 message) (Buffer_from_base64 nonce)
                (Buffer_from_base64 theirPublicKey) (Buffer_from_hex mySecretKey)
  = Ok None ->
  decrypt message nonce theirPublicKey mySecretKey = Throw null_buffer_error.
Proof. intros H. unfold decrypt. rewrite H. reflexivity. Qed.

(** C5 at its failing input.  On the ciphertext of the tests with its
    last byte changed, and on the ciphertext of the tests opened with
    another key, the primitive returns [null] and [decrypt] throws the
    [TypeError] of [Buffer.from(null)]: it returns no failure indicator. *)
Theorem C5_rejected_ciphertext_throws :
  nacl.box_open (Buffer_from_base64 tampered_box) (Buffer_from_base64 test_nonce)
                (Buffer_from_base64 test_encrypter_public) (Buffer_from_hex test_private_key)
  = Ok None /\
  decrypt tampered_box test_nonce test_encrypter_public test_private_key
  = Throw null_buffer_error /\
  decrypt test_box test_nonce test_encrypter_public sender_private_key
  = Throw null_buffer_error.
Proof.
  split; [vm_compute; reflexivity|].
  split; vm_compute; reflexivity.
Qed.

(** ** Properties and maps *)

Lemma lookup_replace_same {V : Type} (fields : list (string * V)) (k : string) (v w : V) :
  lookup fields k = Some w -> lookup (replace fields k v) k = Some v.
Proof.
  induction fields as [|[k' v'] r IH]; simpl; [discriminate|].
  destruct (String.eqb k' k) eqn:E; simpl; rewrite E; auto.
Qed.

Lemma lookup_replace_other {V : Type} (fields : list (string * V)) (k k' : string) (v : V) :
  k' <> k -> lookup (replace fields k v) k' = lookup fields k'.
Proof.
  intros Hne. induction fields as [|[k0 v0] r IH]; simpl; [reflexivity|].
  destruct (String.eqb k0 k) eqn:E; simpl.
  - apply String.eqb_eq in E. subst k0.
    destruct (String.eqb k k') eqn:E'; [apply String.eqb_eq in E'; congruence | reflexivity].
  - rewrite IH. reflexivity.
Qed.

Lemma lookup_add_index_same {V : Type} (fields : list (string * V)) (n : N) (k : string) (v : V) :
  lookup fields k = None -> lookup (add_index fields n k v) k = Some v.
Proof.
  induction fields as [|[k0 v0] r IH]; simpl.
  - rewrite String.eqb_refl. reflexivity.
  - destruct (String.eqb k0 k) eqn:E; [discriminate|]. intros H.
    destruct (array_index k0) as [n'|]; [destruct (n' <? n)%N|]; simpl;
      rewrite ?E, ?String.eqb_refl; auto.
Qed.

Lemma lookup_add_index_other {V : Type} (fields : list (string * V)) (n : N) (k k' : string) (v : V) :
  k' <> k -> lookup (add_index fields n k v) k' = lookup fields k'.
Proof.
  intros Hne. apply String.eqb_neq in Hne. rewrite String.eqb_sym in Hne.
  induction fields as [|[k0 v0] r IH]; simpl.
  - rewrite Hne. reflexivity.
  - destruct (array_index k0) as [n'|]; [destruct (n' <? n)%N|]; simpl;
      rewrite ?Hne, ?IH; reflexivity.
Qed.

Lemma lookup_app {V : Type} (f1 f2 : list (string * V)) (k : string) :
  lookup (f1 ++ f2) k = match lookup f1 k with Some v => Some v | None => lookup f2 k end.
Proof.
  induction f1 as [|[k0 v0] r IH]; simpl; [reflexivity|].
  destruct (String.eqb k0 k); auto.
Qed.

Lemma lookup_add_same {V : Type} (fields : list (string * V)) (k : string) (v : V) :
  lookup fields k = None -> lookup (add fields k v) k = Some v.
Proof.
  intros H. unfold add. destruct (array_index k).
  - apply lookup_add_index_same. assumption.
  - rewrite lookup_app, H. simpl. rewrite String.eqb_refl. reflexivity.
Qed.

Lemma lookup_add_other {V : Type} (fields : list (string * V)) (k k' : string) (v : V) :
  k' <> k -> lookup (add fields k v) k' = lookup fields k'.
Proof.
  intros Hne. unfold add. destruct (array_index k).
  - apply lookup_add_index_other. assumption.
  - rewrite lookup_app. destruct (lookup fields k'); [reflexivity|].
    simpl. apply String.eqb_neq in Hne. rewrite String.eqb_sym in Hne.
    rewrite Hne. reflexivity.
Qed.

(** On an object, [o[k] = v] makes [o[k]] be [v] and leaves the other
    properties as they are. *)
Lemma get_set_same (fields : list (string * value)) (k : string) (v : value) :
  get (set (JObj fields) k v) k = Some v.
Proof.
  simpl. destruct (lookup fields k) eqn:E; simpl.
  - eapply lookup_replace_same; eassumption.
  - apply lookup_add_same; assumption.
Qed.

Lemma get_set_other (fields : list (string * value)) (k k' : string) (v : value) :
  k' <> k -> get (set (JObj fields) k v) k' = get (JObj fields) k'.
Proof.
  intros Hne. simpl. destruct (lookup fields k); simpl.
  - apply lookup_replace_other; assumption.
  - apply lookup_add_other; assumption.
Qed.

Lemma set_is_object (fields : list (string * value)) (k : string) (v : value) :
  exists fields', set (JObj fields) k v = JObj fields'.
Proof. simpl. destruct (lookup fields k); eexists; reflexivity. Qed.

Lemma lookup_in_keys {V : Type} (fields : list (string * V)) (k : string) :
  lookup fields k <> None <-> In k (map fst fields).
Proof.
  induction fields as [|[k0 v0] r IH]; simpl.
  - split; [congruence | tauto].
  - destruct (String.eqb_spec k0 k) as [->|Hne].
    + split; [auto | discriminate].
    + rewrite IH. split; [auto | intros [?|?]; [congruence | assumption]].
Qed.

(** ** The effect monad *)

Lemma mbind_ret_l {A B : Type} (a : A) (k : A -> M B) : mbind (ret a) k = k a.
Proof. unfold mbind, ret. destruct (k a). reflexivity. Qed.

Lemma mbind_Ret_inv {A B : Type} (m : M A) (k : A -> M B) (l : list event) (b : B) :
  mbind m k = (l, Ret b) ->
  exists l1 a l2, m = (l1, Ret a) /\ k a = (l2, Ret b) /\ l = l1 ++ l2.
Proof.
  destruct m as [l1 [a|e|]]; simpl; try discriminate.
  destruct (k a) as [l2 o] eqn:E. intros [= <- ->].
  exists l1, a, l2. auto.
Qed.

Lemma for_in_app (f : value -> string -> M value) (ks1 ks2 : list string) (c : value) :
  for_in f (ks1 ++ ks2) c = mbind (for_in f ks1 c) (fun c' => for_in f ks2 c').
Proof.
  revert c; induction ks1 as [|k ks1 IH]; intros c; simpl.
  - destruct (for_in f ks2 c). reflexivity.
  - destruct (f c k) as [l [c1|e|]]; simpl; try reflexivity.
    rewrite IH. destruct (for_in f ks1 c1) as [l1 [c2|e|]]; simpl; try reflexivity.
    destruct (for_in f ks2 c2) as [l2 o]. rewrite app_assoc. reflexivity.
Qed.

(** ** The walker and the resolver *)

Lemma resolver_calls_app (l1 l2 : list event) :
  resolver_calls (l1 ++ l2) = (resolver_calls l1 + resolver_calls l2)%nat.
Proof. unfold resolver_calls. rewrite filter_app, length_app. reflexivity. Qed.

Lemma mbind_no_resolve {A B : Type} (m : M A) (k : A -> M B) :
  resolver_calls (fst m) = 0%nat -> (forall a, resolver_calls (fst (k a)) = 0%nat) ->
  resolver_calls (fst (mbind m k)) = 0%nat.
Proof.
  intros Hm Hk. destruct m as [l [a|e|]]; simpl in *; try assumption.
  specialize (Hk a). destruct (k a) as [l' o]. simpl in *.
  rewrite resolver_calls_app. lia.
Qed.

Lemma body_no_resolve (recur : value -> M value) (pk : string) (c : value) (k : string) :
  (forall v, resolver_calls (fst (recur v)) = 0%nat) ->
  resolver_calls (fst (body recur pk c k)) = 0%nat.
Proof.
  intros Hr. unfold body.
  destruct (startsWith k "_").
  - destruct (negb _); [destruct (get c k)|]; reflexivity.
  - destruct (get c k) as [[|b|n|s|elems|fields]|]; try reflexivity.
    + apply mbind_no_resolve; auto.
    + destruct (startsWith s "EJ["); [|reflexivity].
      apply mbind_no_resolve; [destruct (parseEncryptedValue s); reflexivity|].
      intros t. apply mbind_no_resolve; [destruct (decrypt _ _ _ _); reflexivity|].
      reflexivity.
    + apply mbind_no_resolve; auto.
    + apply mbind_no_resolve; auto.
Qed.

Lemma for_in_no_resolve (f : value -> string -> M value) (ks : list string) (c : value) :
  (forall c k, resolver_calls (fst (f c k)) = 0%nat) ->
  resolver_calls (fst (for_in f ks c)) = 0%nat.
Proof.
  intros Hf. revert c; induction ks as [|k ks IH]; intros c; simpl; [reflexivity|].
  apply mbind_no_resolve; auto.
Qed.

(** The walker never calls the resolver. *)
Lemma walk_no_resolve (fuel : nat) (v : value) (pk : string) :
  resolver_calls (fst (walk fuel v pk)) = 0%nat.
Proof.
  revert v; induction fuel as [|fuel IH]; intros v; simpl; [reflexivity|].
  apply for_in_no_resolve. intros c k. apply body_no_resolve. intros; apply IH.
Qed.

(** C3 (as amended).  On a document whose root mapping has no [_public_key]
    field, [processEjson] calls the key resolver exactly once, first, with
    [undefined]; when the resolver fails the call fails with the resolver's
    error, and otherwise the document is walked with the key it returned.
    There is no error for the missing field. *)
Theorem C3_resolver_called_once (getPrivateKey : option value -> result string)
  (fields : list (string * value)) :
  lookup fields "_public_key" = None ->
  resolver_calls (fst (processEjson getPrivateKey (JObj fields))) = 1%nat /\
  (forall e, getPrivateKey None = Throw e ->
     processEjson getPrivateKey (JObj fields) = ([Resolve None], Raise e)) /\
  (forall key, getPrivateKey None = Ok key ->
     processEjson getPrivateKey (JObj fields) =
     (Resolve None :: fst (processObjectFields (JObj fields) key),
      snd (processObjectFields (JObj fields) key))).
Proof.
  intros H. unfold processEjson, read_public_key, get, own_props. rewrite H.
  unfold call, mbind.
  destruct (getPrivateKey None) as [key|e] eqn:E.
  - pose proof (walk_no_resolve (S (depth (JObj fields))) (JObj fields) key) as Hw.
    fold (processObjectFields (JObj fields) key) in Hw.
    destruct (processObjectFields (JObj fields) key) as [l o] eqn:Ew.
    cbn [fst snd app] in *. repeat split.
    + change (Resolve None :: l) with ([Resolve None] ++ l).
      rewrite resolver_calls_app, Hw. reflexivity.
    + discriminate.
    + intros key' [= <-]. rewrite Ew. reflexivity.
  - repeat split.
    + intros e' [= <-]. reflexivity.
    + discriminate.
Qed.

Lemma C3_resolver_called_once_witness :
  resolver_calls (fst (processEjson test_getPrivateKey doc_no_public_key)) = 1%nat /\
  (forall e, test_getPrivateKey None = Throw e ->
     processEjson test_getPrivateKey doc_no_public_key = ([Resolve None], Raise e)) /\
  (forall key, test_getPrivateKey None = Ok key ->
     processEjson test_getPrivateKey doc_no_public_key =
     (Resolve None :: fst (processObjectFields doc_no_public_key key),
      snd (processObjectFields doc_no_public_key key))).
Proof.
  apply (C3_resolver_called_once test_getPrivateKey [("a"%string, JNum 1)]).
  reflexivity.
Defined.

(** C3 as stated fails: a document without [_public_key] is processed
    with one call of the resolver, and returned. *)
Lemma C3_counterexample :
  get doc_no_public_key "_public_key" = None /\
  processEjson test_getPrivateKey doc_no_public_key
  = ([Resolve None], Ret doc_no_public_key).
Proof. split; reflexivity. Qed.

(** ** Defaults from underscore keys *)

(** The step at a key [_name]: [name] gets the value of [_name] unless
    [o[name]] is truthy. *)
Lemma body_alias (recur : value -> M value) (pk : string) (c : value) (key : string) (v : value) :
  startsWith key "_" = true -> get c key = Some v ->
  body recur pk c key =
  ret (if truthy_get c (slice1 key) then c else set c (slice1 key) v).
Proof.
  intros Hk Hg. unfold body. rewrite Hk, Hg.
  destruct (truthy_get c (slice1 key)); reflexivity.
Qed.

(** C4 at its failing input.  With [{"_x": "v", "x": ""}] the walker
    replaces the value of [x], which is present, by the value of [_x]. *)
Theorem C4_falsy_sibling_overwritten :
  processObjectFields doc_falsy_sibling test_private_key
  = ([], Ret (JObj [("_x", JStr "v"); ("x", JStr "v")]))%string.
Proof. reflexivity. Qed.

(** The two cases of the specification's example behave as it says. *)
Example alias_absent :
  (processObjectFields (JObj [("_x", JStr "v")]) test_private_key
   = ([], Ret (JObj [("_x", JStr "v"); ("x", JStr "v")])))%string.
Proof. reflexivity. Qed.

Example alias_present :
  (processObjectFields (JObj [("_x", JStr "v"); ("x", JStr "w")]) test_private_key
   = ([], Ret (JObj [("_x", JStr "v"); ("x", JStr "w")])))%string.
Proof. reflexivity. Qed.

(** ** Failures *)





(** ** Values the walker leaves alone, and arrays *)

Lemma replace_same (fields : list (string * value)) (k : string) (v : value) :
  lookup fields k = Some v -> replace fields k v = fields.
Proof.
  induction fields as [|[k0 v0] r IH]; simpl; [reflexivity|].
  destruct (String.eqb k0 k).
  - intros [= ->]. reflexivity.
  - intros H. rewrite IH by assumption. reflexivity.
Qed.

Lemma set_nth_same (elems : list value) (i : nat) (v : value) :
  nth_error elems i = Some v -> set_nth elems i v = elems.
Proof.
  revert i; induction elems as [|x r IH]; intros [|i]; simpl; try discriminate.
  - intros [= ->]. reflexivity.
  - intros H. rewrite IH by assumption. reflexivity.
Qed.

(** The keys of an array are the decimal texts of its indices, which are
    pairwise distinct. *)
Lemma index_key_inj (n m : N) : index_key n = index_key m -> n = m.
Proof.
  unfold index_key. intros H.
  assert (Hn : forall k, N.to_uint k <> Decimal.Nil).
  { intros [|p]; simpl; [discriminate | apply DecimalPos.Unsigned.to_uint_nonnil]. }
  apply (f_equal NilZero.uint_of_string) in H.
  rewrite !NilZero.usu in H by apply Hn.
  injection H as H. apply DecimalN.Unsigned.to_uint_inj. assumption.
Qed.

Lemma index_key_no_underscore (n : N) : startsWith (index_key n) "_" = false.
Proof. unfold index_key. destruct (N.to_uint n); reflexivity. Qed.

Lemma map_fst_combine {A B : Type} (a : list A) (b : list B) :
  length a = length b -> map fst (combine a b) = a.
Proof.
  revert b; induction a as [|x a IH]; intros [|y b]; simpl; try discriminate; auto.
  intros [= H]. rewrite IH by assumption. reflexivity.
Qed.

Lemma map_snd_combine {A B : Type} (a : list A) (b : list B) :
  length a = length b -> map snd (combine a b) = b.
Proof.
  revert b; induction a as [|x a IH]; intros [|y b]; simpl; try discriminate; auto.
  intros [= H]. rewrite IH by assumption. reflexivity.
Qed.

Lemma for_in_keys_array (elems : list value) :
  for_in_keys (JArr elems) = map (fun i => index_key (N.of_nat i)) (seq 0 (length elems)).
Proof.
  unfold for_in_keys, own_props, indexed. apply map_fst_combine.
  rewrite length_map, length_seq. reflexivity.
Qed.

Lemma map_snd_indexed (elems : list value) : map snd (indexed elems) = elems.
Proof.
  unfold indexed. apply map_snd_combine. rewrite length_map, length_seq. reflexivity.
Qed.

(** Element [i] of an array is its property [i]. *)
Lemma lookup_indexed_from (s : nat) (elems : list value) (i : nat) :
  lookup (combine (map (fun j => index_key (N.of_nat j)) (seq s (length elems))) elems)
         (index_key (N.of_nat (s + i)))
  = nth_error elems i.
Proof.
  revert s i; induction elems as [|x r IH]; intros s i; simpl.
  - destruct i; reflexivity.
  - destruct i as [|i]; simpl.
    + rewrite Nat.add_0_r, String.eqb_refl. reflexivity.
    + destruct (String.eqb_spec (index_key (N.of_nat s)) (index_key (N.of_nat (s + S i))))
        as [E|_].
      * apply index_key_inj in E. lia.
      * replace (s + S i)%nat with (S s + i)%nat by lia. apply IH.
Qed.

Lemma lookup_indexed (elems : list value) (i : nat) :
  lookup (indexed elems) (index_key (N.of_nat i)) = nth_error elems i.
Proof. apply (lookup_indexed_from 0 elems i). Qed.

Lemma replace_indexed_from (s : nat) (elems : list value) (i : nat) (v : value) :
  map snd (replace (combine (map (fun j => index_key (N.of_nat j)) (seq s (length elems))) elems)
                   (index_key (N.of_nat (s + i))) v)
  = set_nth elems i v.
Proof.
  revert s i; induction elems as [|x r IH]; intros s i; simpl.
  - destruct i; reflexivity.
  - destruct i as [|i]; simpl.
    + rewrite Nat.add_0_r, String.eqb_refl. simpl.
      rewrite map_snd_combine by (rewrite length_map, length_seq; reflexivity).
      reflexivity.
    + destruct (String.eqb_spec (index_key (N.of_nat s)) (index_key (N.of_nat (s + S i))))
        as [E|_].
      * apply index_key_inj in E. lia.
      * simpl. replace (s + S i)%nat with (S s + i)%nat by lia. rewrite IH. reflexivity.
Qed.

Lemma replace_indexed (elems : list value) (i : nat) (v : value) :
  map snd (replace (indexed elems) (index_key (N.of_nat i)) v) = set_nth elems i v.
Proof. apply (replace_indexed_from 0 elems i v). Qed.

Lemma set_array_element (elems : list value) (i : nat) (w v : value) :
  nth_error elems i = Some w ->
  set (JArr elems) (index_key (N.of_nat i)) v = JArr (set_nth elems i v).
Proof.
  intros H. unfold set. rewrite lookup_indexed, H, replace_indexed. reflexivity.
Qed.

(** Writing back the value a property has changes nothing. *)
Lemma set_get_same (c : value) (k : string) (v : value) :
  get c k = Some v -> set c k v = c.
Proof.
  unfold get. destruct c as [|b|n|s|elems|fields]; simpl; try discriminate.
  - intros H. rewrite H, replace_same, map_snd_indexed by assumption. reflexivity.
  - intros H. rewrite H, replace_same by assumption. reflexivity.
Qed.

(** C7 as stated fails: the token of the tests, as the second element of
    an array, is parsed and decrypted. *)
Lemma C7_counterexample :
  processEjson test_getPrivateKey doc_token_in_array
  = ([Resolve (Some (JStr test_public_key)); Parse test_secret;
      Decrypt "uhoMKBnFTUDSO5nayF/Wx/D+d8dPBIlLUJq8KA==" "fRVLp8YU/m9sb04HKAN9r8RVzLNWkdTu"
              "jeDOl5qTBwflgRuusXrqoT5eclnznLKuCp8fxbuHjGg=" test_private_key],
     Ret (JObj [("_public_key", JStr test_public_key);
                ("list", JArr [JNum 7; JStr testSecretValue]);
                ("public_key", JStr test_public_key)]))%string.
Proof. vm_compute. reflexivity. Qed.

(** ** Strings that are not tokens *)

(** C8, first part: at a key whose value is a string without the prefix
    [EJ[], the step of the walker does not call the parser or the codec
    and returns the document as it is. *)
Lemma body_plain_string (recur : value -> M value) (pk : string) (c : value)
  (key s : string) :
  startsWith key "_" = false -> get c key = Some (JStr s) ->
  startsWith s "EJ[" = false ->
  body recur pk c key = ret c.
Proof. intros Hk Hg Hp. unfold body. rewrite Hk, Hg, Hp. reflexivity. Qed.

(** ** The default for [public_key] *)

Lemma startsWith_underscore (key : string) :
  startsWith key "_" = true -> key = String "_" (slice1 key).
Proof.
  destruct key as [|a key]; cbn [startsWith slice1]; [discriminate|].
  destruct (Ascii.eqb_spec "_" a) as [<-|]; cbn [andb]; [reflexivity | discriminate].
Qed.

Lemma walk_null (fuel : nat) (pk : string) (l : list event) (r : value) :
  walk fuel JNull pk = (l, Ret r) -> r = JNull.
Proof. destruct fuel; simpl; [discriminate|]. intros [= _ <-]. reflexivity. Qed.

Section PublicKeyAlias.

Variable pk : string.
Variable privateKey : string.
Variable recur : value -> M value.

Hypothesis pk_nonempty : pk <> EmptyString.
Hypothesis recur_null : forall l r, recur JNull = (l, Ret r) -> r = JNull.

Lemma truthy_pk : truthy (JStr pk) = true.
Proof.
  simpl. destruct (String.eqb_spec pk ""); [contradiction | reflexivity].
Qed.

Lemma set_other_keys (c : value) (k : string) (v : value) :
  is_object c -> k <> "_public_key"%string -> k <> "public_key"%string ->
  is_object (set c k v) /\
  get (set c k v) "_public_key" = get c "_public_key" /\
  get (set c k v) "public_key" = get c "public_key".
Proof.
  intros [fields ->] H1 H2. split; [apply set_is_object|].
  split; apply get_set_other; congruence.
Qed.

Lemma body_after_alias (c : value) (key : string) (l : list event) (c' : value) :
  after_alias pk c ->
  (key = "public_key"%string -> startsWith pk "EJ[" = false) ->
  body recur privateKey c key = (l, Ret c') ->
  after_alias pk c'.
Proof.
  intros (Ho & H1 & H2) Hvis. unfold body.
  destruct (startsWith key "_") eqn:Hu.
  - destruct (truthy_get c (slice1 key)) eqn:Ht; simpl.
    + intros [= _ <-]. repeat split; assumption.
    + destruct (get c key) as [v|]; intros [= _ <-]; [|repeat split; assumption].
      destruct (set_other_keys c (slice1 key) v Ho) as (Ho' & E1 & E2).
      * intros E. unfold truthy_get in Ht. rewrite E, H1, truthy_pk in Ht. discriminate.
      * intros E. unfold truthy_get in Ht. rewrite E, H2, truthy_pk in Ht. discriminate.
      * repeat split; congruence.
  - assert (Hk1 : key <> "_public_key"%string) by (intros ->; discriminate).
    destruct (String.eqb_spec key "public_key") as [->|Hk2].
    + rewrite H2, (Hvis eq_refl). intros [= _ <-]. repeat split; assumption.
    + destruct (get c key) as [[|b|n|s|elems|fields]|];
        try (intros [= _ <-]; repeat split; assumption).
      * intros H. apply mbind_Ret_inv in H. destruct H as (l1 & r & l2 & _ & [= _ <-] & _).
        destruct (set_other_keys c key r Ho Hk1 Hk2) as (Ho' & E1 & E2).
        repeat split; congruence.
      * destruct (startsWith s "EJ["); [|intros [= _ <-]; repeat split; assumption].
        intros H. apply mbind_Ret_inv in H. destruct H as (l1 & t & l2 & _ & H & _).
        apply mbind_Ret_inv in H. destruct H as (l3 & plain & l4 & _ & [= _ <-] & _).
        destruct (set_other_keys c key (JStr plain) Ho Hk1 Hk2) as (Ho' & E1 & E2).
        repeat split; congruence.
      * intros H. apply mbind_Ret_inv in H. destruct H as (l1 & r & l2 & _ & [= _ <-] & _).
        destruct (set_other_keys c key r Ho Hk1 Hk2) as (Ho' & E1 & E2).
        repeat split; congruence.
      * intros H. apply mbind_Ret_inv in H. destruct H as (l1 & r & l2 & _ & [= _ <-] & _).
        destruct (set_other_keys c key r Ho Hk1 Hk2) as (Ho' & E1 & E2).
        repeat split; congruence.
Qed.

Lemma body_before_alias (c : value) (key : string) (l : list event) (c' : value) :
  before_alias pk c ->
  body recur privateKey c key = (l, Ret c') ->
  (key = "_public_key"%string -> after_alias pk c') /\
  (key <> "_public_key"%string -> before_alias pk c').
Proof.
  intros (Ho & H1 & H2). unfold body.
  destruct (startsWith key "_") eqn:Hu.
  - destruct (String.eqb_spec key "_public_key") as [->|Hk1].
    + assert (Ht : truthy_get c "public_key" = false).
      { unfold truthy_get. destruct H2 as [->|(w & -> & Hw)]; [reflexivity | exact Hw]. }
      simpl slice1. rewrite Ht, H1. simpl. intros [= _ <-].
      split; [intros _ | congruence].
      destruct Ho as [fields ->]. split; [apply set_is_object|]. split.
      * rewrite get_set_other by discriminate. assumption.
      * apply get_set_same.
    + intros H. split; [congruence | intros _].
      destruct (truthy_get c (slice1 key)) eqn:Ht; simpl in H.
      * injection H as _ <-. repeat split; assumption.
      * destruct (get c key) as [v|]; injection H as _ <-; [|repeat split; assumption].
        destruct (set_other_keys c (slice1 key) v Ho) as (Ho' & E1 & E2).
        -- intros E. unfold truthy_get in Ht. rewrite E, H1, truthy_pk in Ht. discriminate.
        -- intros E. apply Hk1. rewrite (startsWith_underscore key Hu), E. reflexivity.
        -- split; [assumption|]. split; [congruence|]. rewrite E2. assumption.
  - assert (Hk1 : key <> "_public_key"%string) by (intros ->; discriminate).
    intros H. split; [congruence | intros _].
    destruct (String.eqb_spec key "public_key") as [->|Hk2].
    + destruct H2 as [E|(w & E & Hw)]; rewrite E in H.
      * injection H as _ <-. repeat split; auto.
      * destruct w as [|b|n|s|elems|fields]; try discriminate Hw.
        -- apply mbind_Ret_inv in H. destruct H as (l1 & r & l2 & Hr & [= _ <-] & _).
           apply recur_null in Hr. subst r.
           rewrite (set_get_same c "public_key" JNull E). repeat split; eauto.
        -- injection H as _ <-. repeat split; eauto.
        -- injection H as _ <-. repeat split; eauto.
        -- simpl in Hw. apply negb_false_iff, String.eqb_eq in Hw. subst s.
           simpl in H. injection H as _ <-. repeat split; eauto.
    + assert (K : forall v, before_alias pk (set c key v)).
      { intros v. destruct (set_other_keys c key v Ho Hk1 Hk2) as (Ho' & E1 & E2).
        split; [assumption|]. split; [congruence|]. rewrite E2. assumption. }
      destruct (get c key) as [[|b|n|s|elems|fields]|];
        try (injection H as _ <-; repeat split; assumption).
      * apply mbind_Ret_inv in H. destruct H as (l1 & r & l2 & _ & [= _ <-] & _). apply K.
      * destruct (startsWith s "EJ["); [|injection H as _ <-; repeat split; assumption].
        apply mbind_Ret_inv in H. destruct H as (l1 & t & l2 & _ & H & _).
        apply mbind_Ret_inv in H. destruct H as (l3 & plain & l4 & _ & [= _ <-] & _).
        apply K.
      * apply mbind_Ret_inv in H. destruct H as (l1 & r & l2 & _ & [= _ <-] & _). apply K.
      * apply mbind_Ret_inv in H. destruct H as (l1 & r & l2 & _ & [= _ <-] & _). apply K.
Qed.

Lemma for_in_after_alias (keys : list string) (c : value) (l : list event) (c' : value) :
  after_alias pk c ->
  (In "public_key"%string keys -> startsWith pk "EJ[" = false) ->
  for_in (body recur privateKey) keys c = (l, Ret c') ->
  after_alias pk c'.
Proof.
  revert c l; induction keys as [|key keys IH]; intros c l Hc Hvis; simpl.
  - intros [= _ <-]. assumption.
  - intros H. apply mbind_Ret_inv in H. destruct H as (l1 & c1 & l2 & Hb & Hf & _).
    apply (IH c1 l2); [|intros; apply Hvis; right; assumption | assumption].
    apply (body_after_alias c key l1 c1 Hc); [|assumption].
    intros ->. apply Hvis. left. reflexivity.
Qed.

Lemma for_in_before_alias (keys : list string) (c : value) (l : list event) (c' : value) :
  before_alias pk c ->
  (In "public_key"%string keys -> startsWith pk "EJ[" = false) ->
  In "_public_key"%string keys ->
  for_in (body recur privateKey) keys c = (l, Ret c') ->
  after_alias pk c'.
Proof.
  revert c l; induction keys as [|key keys IH]; intros c l Hc Hvis Hin; simpl.
  - destruct Hin.
  - intros H. apply mbind_Ret_inv in H. destruct H as (l1 & c1 & l2 & Hb & Hf & _).
    destruct (body_before_alias c key l1 c1 Hc Hb) as [KA KB].
    destruct (String.eqb_spec key "_public_key") as [->|Hne].
    + apply (for_in_after_alias keys c1 l2);
        [apply KA; reflexivity | intros; apply Hvis; right; assumption | assumption].
    + apply (IH c1 l2);
        [apply KB; assumption | intros; apply Hvis; right; assumption | | assumption].
      destruct Hin as [E|Hin]; [congruence | assumption].
Qed.

End PublicKeyAlias.

(** For a document whose root mapping has [_public_key] with a non-empty
    string value [pk], and in which [public_key] is absent, or present
    with a falsy value while [pk] is not prefixed by [EJ[]: when
    [processEjson] returns a document, its root has [public_key] equal to
    [pk] and [_public_key] still equal to [pk]. *)
Lemma public_key_default (getPrivateKey : option value -> result string)
  (fields : list (string * value)) (pk : string) (log : list event) (doc : value) :
  lookup fields "_public_key" = Some (JStr pk) ->
  pk <> EmptyString ->
  (lookup fields "public_key" = None \/
   (startsWith pk "EJ[" = false /\
    exists w, lookup fields "public_key" = Some w /\ truthy w = false)) ->
  processEjson getPrivateKey (JObj fields) = (log, Ret doc) ->
  get doc "public_key" = Some (JStr pk) /\ get doc "_public_key" = Some (JStr pk).
Proof.
  intros H1 Hne H2 Hrun.
  unfold processEjson, read_public_key in Hrun.
  apply mbind_Ret_inv in Hrun. destruct Hrun as (l1 & key & l2 & _ & Hw & _).
  unfold processObjectFields in Hw. cbn [walk] in Hw.
  unfold structuredClone in Hw. cbn [for_in_keys] in Hw.
  assert (Hafter : after_alias pk doc).
  { apply (for_in_before_alias pk key (fun v => walk (depth (JObj fields)) v key) Hne
             (fun l r => walk_null (depth (JObj fields)) key l r)
             (map fst fields) (JObj fields) l2 doc); [| | |exact Hw].
    - split; [eexists; reflexivity|]. split; [exact H1|].
      destruct H2 as [E|(_ & w & E & Hw')]; [left; exact E | right; exists w; auto].
    - intros Hin. destruct H2 as [E|(Hp & _)]; [|exact Hp].
      apply lookup_in_keys in Hin. contradiction.
    - apply lookup_in_keys. simpl in H1. congruence. }
  destruct Hafter as (_ & E1 & E2). auto.
Qed.

(** C10 (as amended).  For a document whose root mapping has
    [_public_key] with a non-empty string value [pk] and no key
    [public_key]: when [processEjson] returns a document, its root has
    [public_key] equal to [pk], and [_public_key] still equal to [pk]. *)
Theorem C10_public_key_default (getPrivateKey : option value -> result string)
  (fields : list (string * value)) (pk : string) (log : list event) (doc : value) :
  lookup fields "_public_key" = Some (JStr pk) ->
  pk <> EmptyString ->
  lookup fields "public_key" = None ->
  processEjson getPrivateKey (JObj fields) = (log, Ret doc) ->
  get doc "public_key" = Some (JStr pk) /\ get doc "_public_key" = Some (JStr pk).
Proof.
  intros H1 Hne H2 Hrun.
  apply (public_key_default getPrivateKey fields pk log doc H1 Hne (or_introl H2) Hrun).
Qed.

Lemma C10_public_key_default_witness :
  (get (JObj [("_public_key", JStr test_public_key); ("test_secret", JStr testSecretValue);
              ("public_key", JStr test_public_key)]) "public_key"
   = Some (JStr test_public_key) /\
   get (JObj [("_public_key", JStr test_public_key); ("test_secret", JStr testSecretValue);
              ("public_key", JStr test_public_key)]) "_public_key"
   = Some (JStr test_public_key))%string.
Proof.
  apply (C10_public_key_default test_getPrivateKey
           [("_public_key", JStr test_public_key); ("test_secret", JStr test_secret)]%string
           test_public_key
           [Resolve (Some (JStr test_public_key)); Parse test_secret;
            Decrypt "uhoMKBnFTUDSO5nayF/Wx/D+d8dPBIlLUJq8KA==" "fRVLp8YU/m9sb04HKAN9r8RVzLNWkdTu"
                    "jeDOl5qTBwflgRuusXrqoT5eclnznLKuCp8fxbuHjGg=" test_private_key]).
  - reflexivity.
  - discriminate.
  - reflexivity.
  - vm_compute. reflexivity.
Defined.

(** C10 as stated fails in two ways.  When [_public_key] holds a token
    and [public_key] is present, falsy and visited later, [public_key]
    ends as the plaintext of the token; when [_public_key] is empty and
    [__public_key] is present, [_public_key] is replaced. *)
Lemma C10_counterexample :
  (snd (processEjson test_getPrivateKey doc_public_key_is_token)
   = Ret (JObj [("_public_key", JStr test_secret); ("public_key", JStr testSecretValue)]) /\
   snd (processEjson test_getPrivateKey doc_public_key_empty)
   = Ret (JObj [("_public_key", JStr "K"); ("__public_key", JStr "K");
                ("public_key", JStr "")]))%string.
Proof. split; vm_compute; reflexivity. Qed.

(** The repository's test of [processEjson]: the secret of the test
    document is decrypted. *)
Example processEjson_test :
  (snd (processEjson test_getPrivateKey testEjson)
   = Ret (JObj [("_public_key", JStr test_public_key); ("test_secret", JStr testSecretValue);
                ("public_key", JStr test_public_key)]))%string.
Proof. vm_compute. reflexivity. Qed.

(** ** The walk ends

    The fuel [processObjectFields] gives to [walk] is enough: the depth of
    the values the loop reads never exceeds that of the document. *)

Lemma depth_array (elems : list value) : depth (JArr elems) = S (maxdepth elems).
Proof. reflexivity. Qed.

Lemma depth_object (fields : list (string * value)) :
  depth (JObj fields) = S (maxdepth (map snd fields)).
Proof.
  simpl. f_equal. unfold maxdepth.
  induction fields as [|[k v] r IH]; simpl; [reflexivity|]. rewrite IH. reflexivity.
Qed.

Lemma maxdepth_in (l : list value) (v : value) : In v l -> (depth v <= maxdepth l)%nat.
Proof.
  unfold maxdepth. induction l as [|x r IH]; simpl; [tauto|].
  intros [->|H]; [lia | specialize (IH H); lia].
Qed.

Lemma maxdepth_bound (l : list value) (m : nat) :
  (forall x, In x l -> (depth x <= m)%nat) -> (maxdepth l <= m)%nat.
Proof.
  unfold maxdepth. induction l as [|x r IH]; simpl; intros H; [lia|].
  assert (depth x <= m)%nat by (apply H; auto).
  assert (fold_right (fun e d => Nat.max (depth e) d) O r <= m)%nat by (apply IH; auto).
  lia.
Qed.

Lemma lookup_in_values {V : Type} (fields : list (string * V)) (k : string) (v : V) :
  lookup fields k = Some v -> In v (map snd fields).
Proof.
  induction fields as [|[k0 v0] r IH]; simpl; [discriminate|].
  destruct (String.eqb k0 k); [intros [= ->]; auto | auto].
Qed.

Lemma in_replace_values {V : Type} (fields : list (string * V)) (k : string) (v x : V) :
  In x (map snd (replace fields k v)) -> x = v \/ In x (map snd fields).
Proof.
  induction fields as [|[k0 v0] r IH]; simpl; [tauto|].
  destruct (String.eqb k0 k); simpl; intros [<-|H]; auto.
  destruct (IH H); auto.
Qed.

Lemma in_add_index_values {V : Type} (fields : list (string * V)) (n : N) (k : string) (v x : V) :
  In x (map snd (add_index fields n k v)) -> x = v \/ In x (map snd fields).
Proof.
  induction fields as [|[k0 v0] r IH]; simpl; [intros [<-|[]]; auto|].
  destruct (array_index k0) as [n'|]; [destruct (n' <? n)%N|]; simpl;
    intros [<-|H]; auto.
  destruct (IH H); auto.
Qed.

Lemma in_add_values {V : Type} (fields : list (string * V)) (k : string) (v x : V) :
  In x (map snd (add fields k v)) -> x = v \/ In x (map snd fields).
Proof.
  unfold add. destruct (array_index k); [apply in_add_index_values|].
  rewrite map_app, in_app_iff. simpl. intros [H|[<-|[]]]; auto.
Qed.

Lemma depth_get (c : value) (k : string) (v : value) :
  get c k = Some v -> (S (depth v) <= depth c)%nat.
Proof.
  unfold get. destruct c as [|b|n|s|elems|fields]; cbn [own_props]; try discriminate.
  - intros H. apply lookup_in_values in H. rewrite map_snd_indexed in H.
    apply maxdepth_in in H. rewrite depth_array. lia.
  - intros H. apply lookup_in_values, maxdepth_in in H. rewrite depth_object. lia.
Qed.

Lemma depth_set (c : value) (k : string) (v : value) :
  (depth (set c k v) <= Nat.max (depth c) (S (depth v)))%nat.
Proof.
  destruct c as [|b|n|s|elems|fields]; cbn [set]; try lia.
  - destruct (lookup (indexed elems) k); [|lia].
    rewrite !depth_array.
    assert (maxdepth (map snd (replace (indexed elems) k v))
            <= Nat.max (maxdepth elems) (depth v))%nat; [|lia].
    apply maxdepth_bound. intros x Hx. apply in_replace_values in Hx.
    destruct Hx as [->|Hx]; [lia|].
    rewrite map_snd_indexed in Hx. apply maxdepth_in in Hx. lia.
  - destruct (lookup fields k); rewrite !depth_object.
    + assert (maxdepth (map snd (replace fields k v))
              <= Nat.max (maxdepth (map snd fields)) (depth v))%nat; [|lia].
      apply maxdepth_bound. intros x Hx. apply in_replace_values in Hx.
      destruct Hx as [->|Hx]; [lia|]. apply maxdepth_in in Hx. lia.
    + assert (maxdepth (map snd (add fields k v))
              <= Nat.max (maxdepth (map snd fields)) (depth v))%nat; [|lia].
      apply maxdepth_bound. intros x Hx. apply in_add_values in Hx.
      destruct Hx as [->|Hx]; [lia|]. apply maxdepth_in in Hx. lia.
Qed.

Lemma body_ends (n : nat) (recur : value -> M value) (pk : string) (c : value) (key : string) :
  ends_upto n recur -> (depth c <= S n)%nat ->
  snd (body recur pk c key) <> OutOfFuel /\
  forall c', snd (body recur pk c key) = Ret c' -> (depth c' <= depth c)%nat.
Proof.
  intros Hr Hc. unfold body.
  assert (Hrec : forall v, get c key = Some v ->
            snd (mbind (recur v) (fun r => ret (set c key r))) <> OutOfFuel /\
            forall c', snd (mbind (recur v) (fun r => ret (set c key r))) = Ret c' ->
                       (depth c' <= depth c)%nat).
  { intros v Hg. pose proof (depth_get c key v Hg) as Hd.
    destruct (Hr v) as [H1 H2]; [lia|].
    destruct (recur v) as [l [r|e|]]; unfold mbind, ret; cbn [snd] in *;
      [|split; discriminate | congruence].
    split; [discriminate|]. intros c' [= <-].
    specialize (H2 r eq_refl). pose proof (depth_set c key r). lia. }
  destruct (startsWith key "_").
  - destruct (truthy_get c (slice1 key)); simpl; [split; [discriminate | intros c' [= <-]; lia]|].
    destruct (get c key) as [v|] eqn:Hg; simpl; (split; [discriminate | intros c' [= <-]]); [|lia].
    pose proof (depth_get c key v Hg). pose proof (depth_set c (slice1 key) v). lia.
  - destruct (get c key) as [[|b|n0|s|elems|fields]|] eqn:Hg;
      try (simpl; split; [discriminate | intros c' [= <-]; lia]);
      try (apply Hrec; reflexivity).
    destruct (startsWith s "EJ["); [|simpl; split; [discriminate | intros c' [= <-]; lia]].
    destruct (parseEncryptedValue s) as [t|e]; simpl; [|split; discriminate].
    destruct (decrypt _ _ _ _) as [plain|e]; simpl; [|split; discriminate].
    split; [discriminate|]. intros c' [= <-].
    pose proof (depth_get c key _ Hg) as G1. pose proof (depth_set c key (JStr plain)) as G2.
    cbn [depth] in G1, G2. lia.
Qed.

Lemma for_in_ends (n : nat) (recur : value -> M value) (pk : string)
  (keys : list string) (c : value) :
  ends_upto n recur -> (depth c <= S n)%nat ->
  snd (for_in (body recur pk) keys c) <> OutOfFuel /\
  forall c', snd (for_in (body recur pk) keys c) = Ret c' -> (depth c' <= depth c)%nat.
Proof.
  intros Hr. revert c; induction keys as [|key keys IH]; intros c Hc; simpl.
  - split; [discriminate | intros c' [= <-]; lia].
  - destruct (body_ends n recur pk c key Hr Hc) as [H1 H2].
    destruct (body recur pk c key) as [l [c1|e|]]; unfold mbind; cbn [snd] in *;
      [|split; discriminate | congruence].
    specialize (H2 c1 eq_refl).
    destruct (IH c1) as [K1 K2]; [lia|].
    destruct (for_in (body recur pk) keys c1) as [l' o]; cbn [snd] in *.
    split; [assumption|]. intros c' Hc'. specialize (K2 c' Hc'). lia.
Qed.

Lemma walk_ends (n : nat) (pk : string) : ends_upto n (fun v => walk (S n) v pk).
Proof.
  induction n as [|n IH]; intros u Hu.
  - destruct u as [|b|m|s|elems|fields]; simpl in Hu; try lia;
      (split; [discriminate | intros r [= <-]; apply Nat.le_refl]).
  - cbn [walk]. unfold structuredClone.
    apply (for_in_ends n (fun v => walk (S n) v pk)); assumption.
Qed.

(** [processObjectFields] returns or throws on every document. *)
Lemma processObjectFields_ends (rawConf : value) (privateKey : string) :
  snd (processObjectFields rawConf privateKey) <> OutOfFuel.
Proof.
  unfold processObjectFields.
  apply (walk_ends (depth rawConf) privateKey rawConf). lia.
Qed.

(** ** The walker on a store: what it writes *)

Lemma store_length_write (h : Store.heap) (l : Store.loc) (o : Store.object) :
  length (Store.write h l o) = length h.
Proof.
  revert l; induction h as [|x r IH]; intros [|l]; simpl; auto.
Qed.

Lemma store_read_write_other (h : Store.heap) (l l' : Store.loc) (o : Store.object) :
  l' <> l -> Store.read (Store.write h l o) l' = Store.read h l'.
Proof.
  unfold Store.read. revert l l'; induction h as [|x r IH]; intros [|l] [|l'] H;
    simpl; try reflexivity; try congruence.
  apply IH. congruence.
Qed.

Lemma store_read_write_same (h : Store.heap) (l : Store.loc) (o : Store.object) :
  (l < length h)%nat -> Store.read (Store.write h l o) l = Some o.
Proof.
  unfold Store.read. revert l; induction h as [|x r IH]; intros [|l] H; simpl in *;
    try lia; [reflexivity|]. apply IH. lia.
Qed.

Lemma unchanged_refl (h : Store.heap) : Store.unchanged h h.
Proof. split; auto. Qed.

Lemma unchanged_trans (h1 h2 h3 : Store.heap) :
  Store.unchanged h1 h2 -> Store.unchanged h2 h3 -> Store.unchanged h1 h3.
Proof.
  intros [L1 R1] [L2 R2]. split; [lia|].
  intros l Hl. rewrite R2 by lia. apply R1. assumption.
Qed.

Lemma unchanged_alloc (h : Store.heap) (o : Store.object) :
  Store.unchanged h (fst (Store.alloc h o)).
Proof.
  unfold Store.alloc, Store.unchanged, Store.read. simpl. rewrite length_app. simpl.
  split; [lia|]. intros l Hl. apply nth_error_app1. assumption.
Qed.

Lemma unchanged_write (h0 h : Store.heap) (l : Store.loc) (o : Store.object) :
  Store.unchanged h0 h -> (length h0 <= l)%nat -> Store.unchanged h0 (Store.write h l o).
Proof.
  intros [L R] Hl. split; [rewrite store_length_write; assumption|].
  intros l' Hl'. rewrite store_read_write_other by lia. apply R. assumption.
Qed.

(** A function on stores that leaves the existing objects as they are. *)
Lemma clone_props_unchanged (cl : Store.heap -> Store.val -> option (Store.heap * Store.val))
  (ps : list (string * Store.val)) :
  (forall h v h1 v1, cl h v = Some (h1, v1) -> Store.unchanged h h1) ->
  forall h h1 ps', Store.clone_props cl h ps = Some (h1, ps') -> Store.unchanged h h1.
Proof.
  intros Hcl. induction ps as [|[k v] r IH]; intros h h1 ps'; simpl.
  - intros [= <- _]. apply unchanged_refl.
  - destruct (cl h v) as [[h2 v2]|] eqn:E; [|discriminate].
    destruct (Store.clone_props cl h2 r) as [[h3 r3]|] eqn:E'; [|discriminate].
    intros [= <- _]. eapply unchanged_trans; [eapply Hcl | eapply IH]; eassumption.
Qed.

Lemma structuredClone_unchanged (fuel : nat) (h : Store.heap) (v : Store.val)
  (h1 : Store.heap) (c : Store.val) :
  Store.structuredClone fuel h v = Some (h1, c) ->
  Store.unchanged h h1 /\
  (forall l, v = Store.Ref l ->
     exists l', c = Store.Ref l' /\ (length h <= l' < length h1)%nat).
Proof.
  revert h v h1 c; induction fuel as [|fuel IH]; intros h v h1 c.
  - destruct v; simpl; try discriminate;
      intros [= <- <-]; (split; [apply unchanged_refl | discriminate]).
  - destruct v as [|b|n|s|l]; simpl;
      try (intros [= <- <-]; (split; [apply unchanged_refl | discriminate])).
    destruct (Store.read h l) as [o|]; [|discriminate].
    destruct (Store.clone_props (Store.structuredClone fuel) h (Store.props o))
      as [[h2 ps]|] eqn:E; [|discriminate].
    intros [= <- <-].
    assert (U : Store.unchanged h h2).
    { eapply clone_props_unchanged; [|exact E].
      intros h0 v0 h3 v3 H. apply (IH _ _ _ _ H). }
    split.
    + eapply unchanged_trans; [exact U|].
      apply (unchanged_alloc h2 {| Store.is_array := Store.is_array o; Store.props := ps |}).
    + intros l0 _. exists (length h2). split; [reflexivity|].
      rewrite length_app. simpl. destruct U. lia.
Qed.

Lemma structuredClone_scalar (fuel : nat) (h : Store.heap) (v : Store.val) :
  (forall l, v <> Store.Ref l) -> Store.structuredClone fuel h v = Some (h, v).
Proof.
  intros H. destruct fuel; destruct v; try reflexivity; exfalso; eapply H; reflexivity.
Qed.

Section Frame.

Variable recur : Store.heap -> Store.val -> M (Store.heap * Store.val).
Variable privateKey : string.
Variable h0 : Store.heap.
Variable l : Store.loc.

Hypothesis recur_unchanged :
  forall h v log h' r, recur h v = (log, Ret (h', r)) -> Store.unchanged h h'.
Hypothesis l_new : (length h0 <= l)%nat.

Lemma body_unchanged (h : Store.heap) (key : string) (log : list event) (h' : Store.heap) :
  Store.unchanged h0 h ->
  Store.body recur privateKey l h key = (log, Ret h') ->
  Store.unchanged h0 h'.
Proof.
  intros U. unfold Store.body.
  destruct (Store.read h l) as [o|]; [|intros [= _ <-]; assumption].
  destruct (startsWith key "_").
  - destruct (negb _); [|intros [= _ <-]; assumption].
    destruct (lookup (Store.props o) key); intros [= _ <-];
      [apply unchanged_write|]; assumption.
  - destruct (lookup (Store.props o) key) as [[|b|n|s|l1]|];
      try (intros [= _ <-]; assumption).
    + intros H. apply mbind_Ret_inv in H. destruct H as (l2 & [h1 r] & l3 & Hr & H & _).
      apply recur_unchanged in Hr. simpl in H.
      assert (U1 : Store.unchanged h0 h1) by (eapply unchanged_trans; eassumption).
      destruct (Store.read h1 l); injection H as _ <-;
        [apply unchanged_write|]; assumption.
    + destruct (startsWith s "EJ["); [|intros [= _ <-]; assumption].
      intros H. apply mbind_Ret_inv in H. destruct H as (l2 & t & l3 & _ & H & _).
      apply mbind_Ret_inv in H. destruct H as (l4 & plain & l5 & _ & [= _ <-] & _).
      apply unchanged_write; assumption.
    + intros H. apply mbind_Ret_inv in H. destruct H as (l2 & [h1 r] & l3 & Hr & H & _).
      apply recur_unchanged in Hr. simpl in H.
      assert (U1 : Store.unchanged h0 h1) by (eapply unchanged_trans; eassumption).
      destruct (Store.read h1 l); injection H as _ <-;
        [apply unchanged_write|]; assumption.
Qed.

Lemma for_in_unchanged (keys : list string) (h : Store.heap) (log : list event)
  (h' : Store.heap) :
  Store.unchanged h0 h ->
  Store.for_in (Store.body recur privateKey l) keys h = (log, Ret h') ->
  Store.unchanged h0 h'.
Proof.
  revert h log; induction keys as [|key keys IH]; intros h log U; simpl.
  - intros [= _ <-]. assumption.
  - intros H. apply mbind_Ret_inv in H. destruct H as (l1 & h1 & l2 & Hb & Hf & _).
    apply (IH h1 l2); [|assumption].
    eapply body_unchanged; eassumption.
Qed.

End Frame.

Section Growth.

Variable recur : Store.heap -> Store.val -> M (Store.heap * Store.val).
Variable privateKey : string.
Variable l : Store.loc.

Hypothesis recur_unchanged :
  forall h v log h' r, recur h v = (log, Ret (h', r)) -> Store.unchanged h h'.

Lemma body_grows (h : Store.heap) (key : string) (log : list event) (h' : Store.heap) :
  Store.body recur privateKey l h key = (log, Ret h') -> (length h <= length h')%nat.
Proof.
  unfold Store.body.
  destruct (Store.read h l) as [o|]; [|intros [= _ <-]; lia].
  destruct (startsWith key "_").
  - destruct (negb _); [|intros [= _ <-]; lia].
    destruct (lookup (Store.props o) key); intros [= _ <-];
      rewrite ?store_length_write; lia.
  - destruct (lookup (Store.props o) key) as [[|b|n|s|l1]|];
      try (intros [= _ <-]; lia).
    + intros H. apply mbind_Ret_inv in H. destruct H as (l2 & [h1 r] & l3 & Hr & H & _).
      apply recur_unchanged in Hr. destruct Hr as [L _]. simpl in H.
      destruct (Store.read h1 l); injection H as _ <-;
        rewrite ?store_length_write; lia.
    + destruct (startsWith s "EJ["); [|intros [= _ <-]; lia].
      intros H. apply mbind_Ret_inv in H. destruct H as (l2 & t & l3 & _ & H & _).
      apply mbind_Ret_inv in H. destruct H as (l4 & plain & l5 & _ & [= _ <-] & _).
      rewrite store_length_write. lia.
    + intros H. apply mbind_Ret_inv in H. destruct H as (l2 & [h1 r] & l3 & Hr & H & _).
      apply recur_unchanged in Hr. destruct Hr as [L _]. simpl in H.
      destruct (Store.read h1 l); injection H as _ <-;
        rewrite ?store_length_write; lia.
Qed.

Lemma for_in_grows (keys : list string) (h : Store.heap) (log : list event)
  (h' : Store.heap) :
  Store.for_in (Store.body recur privateKey l) keys h = (log, Ret h') ->
  (length h <= length h')%nat.
Proof.
  revert h log; induction keys as [|key keys IH]; intros h log; simpl.
  - intros [= _ <-]. lia.
  - intros H. apply mbind_Ret_inv in H. destruct H as (l1 & h1 & l2 & Hb & Hf & _).
    apply body_grows in Hb. apply IH in Hf. lia.
Qed.

End Growth.

(** A walk on the store leaves the objects that exist as they are and
    returns a new object. *)
Lemma store_walk_unchanged (fuel : nat) (h : Store.heap) (rawConf : Store.val)
  (privateKey : string) (log : list event) (h' : Store.heap) (r : Store.val) :
  Store.processObjectFields fuel h rawConf privateKey = (log, Ret (h', r)) ->
  Store.unchanged h h' /\
  (forall l, rawConf = Store.Ref l ->
     exists l', r = Store.Ref l' /\ (length h <= l' < length h')%nat).
Proof.
  revert h rawConf log h' r; induction fuel as [|fuel IH]; intros h rawConf log h' r;
    simpl; [discriminate|].
  destruct (Store.structuredClone fuel h rawConf) as [[h1 c]|] eqn:Ec; [|discriminate].
  destruct (structuredClone_unchanged fuel h rawConf h1 c Ec) as [U Hnew].
  destruct c as [|b|n|s|l1].
  - intros [= _ <- <-]. split; [assumption|].
    intros l Hl. destruct (Hnew l Hl) as (l' & E & _). discriminate.
  - intros [= _ <- <-]. split; [assumption|].
    intros l Hl. destruct (Hnew l Hl) as (l' & E & _). discriminate.
  - intros [= _ <- <-]. split; [assumption|].
    intros l Hl. destruct (Hnew l Hl) as (l' & E & _). discriminate.
  - intros [= _ <- <-]. split; [assumption|].
    intros l Hl. destruct (Hnew l Hl) as (l' & E & _). discriminate.
  - destruct rawConf as [|b|n|s|l0];
      try (rewrite structuredClone_scalar in Ec by discriminate; discriminate).
    destruct (Hnew l0 eq_refl) as (l' & [= <-] & Hl1).
    destruct (Store.read h1 l1) as [o|].
    + intros H. apply mbind_Ret_inv in H. destruct H as (la & h2 & lb & Hf & [= _ <- <-] & _).
      assert (U2 : Store.unchanged h h2).
      { assert (Hrec : forall hx vx lx hx' rx,
                  Store.processObjectFields fuel hx vx privateKey = (lx, Ret (hx', rx)) ->
                  Store.unchanged hx hx').
        { intros hx vx lx hx' rx Hx. apply (IH _ _ _ _ _ Hx). }
        apply (for_in_unchanged _ privateKey h l1 Hrec (proj1 Hl1)
                 (map fst (Store.props o)) h1 la h2 U Hf). }
      split; [assumption|]. intros l _. exists l1. split; [reflexivity|].
      assert (length h1 <= length h2)%nat; [|lia].
      assert (Hrec : forall hx vx lx hx' rx,
                Store.processObjectFields fuel hx vx privateKey = (lx, Ret (hx', rx)) ->
                Store.unchanged hx hx').
      { intros hx vx lx hx' rx Hx. apply (IH _ _ _ _ _ Hx). }
      apply (for_in_grows _ privateKey l1 Hrec (map fst (Store.props o)) h1 la h2 Hf).
    + intros [= _ <- <-]. split; [assumption|].
      intros l _. exists l1. split; [reflexivity | assumption].
Qed.

(** C9 (as amended).  The walker does not change the document it is
    given: it walks a copy made by [structuredClone].  After a call that
    returns, every object that was in the store before the call, the
    document passed in among them, is as it was, and the document returned
    is an object that did not exist before the call. *)
Theorem C9_input_not_mutated (fuel : nat) (h : Store.heap) (rawConf : Store.val)
  (privateKey : string) (log : list event) (h' : Store.heap) (r : Store.val) :
  Store.processObjectFields fuel h rawConf privateKey = (log, Ret (h', r)) ->
  Store.unchanged h h' /\
  (forall l, rawConf = Store.Ref l ->
     exists l', r = Store.Ref l' /\ (length h <= l' < length h')%nat).
Proof. apply store_walk_unchanged. Qed.

Lemma C9_input_not_mutated_witness :
  Store.unchanged Store.test_heap Store.test_heap_after /\
  (forall l, Store.Ref 0%nat = Store.Ref l ->
     exists l', Store.Ref 1%nat = Store.Ref l' /\
                (length Store.test_heap <= l' < length Store.test_heap_after)%nat).
Proof.
  apply (C9_input_not_mutated 2%nat Store.test_heap (Store.Ref 0%nat) test_private_key
           Store.test_log Store.test_heap_after (Store.Ref 1%nat)).
  vm_compute. reflexivity.
Defined.

(** C9 as stated fails: after the walk of the test document, which
    returns, the object passed in (at location 0) still holds the token,
    and the document returned is another object (at location 1), which
    holds the plaintext. *)
Lemma C9_counterexample :
  Store.processObjectFields 2%nat Store.test_heap (Store.Ref 0%nat) test_private_key
  = (Store.test_log, Ret (Store.test_heap_after, Store.Ref 1%nat)) /\
  Store.read Store.test_heap_after 0%nat = Store.read Store.test_heap 0%nat /\
  option_map (fun o => lookup (Store.props o) "test_secret") (Store.read Store.test_heap_after 0%nat)
  = Some (Some (Store.Str test_secret)) /\
  option_map (fun o => lookup (Store.props o) "test_secret") (Store.read Store.test_heap_after 1%nat)
  = Some (Some (Store.Str testSecretValue)).
Proof.
  split; [vm_compute; reflexivity|].
  split; [reflexivity|]. split; reflexivity.
Qed.

(** ** The walker on a store and the walker on documents

    The two embeddings of [processObjectFields] agree: on a store value
    that stands for a document, the walker on the store logs the same
    calls and ends the same way as the walker on the document, and what it
    returns stands for the document the latter returns. *)

Lemma Forall2_impl_in {A B : Type} (R R' : A -> B -> Prop) (l1 : list A) (l2 : list B) :
  Forall2 R l1 l2 ->
  (forall x y, In x l1 -> In y l2 -> R x y -> R' x y) ->
  Forall2 R' l1 l2.
Proof.
  induction 1 as [|x y l1 l2 Hxy H IH]; intros Himp; constructor.
  - apply Himp; simpl; auto.
  - apply IH. intros x' y' Hx Hy. apply Himp; simpl; auto.
Qed.

Lemma repr_container_inv (ok : Store.loc -> Prop) (h : Store.heap) (d : value) (l : Store.loc) :
  Store.repr ok h d (Store.Ref l) ->
  ok l /\ Store.container d /\
  exists ps, Store.read h l = Some {| Store.is_array := Store.is_arr d; Store.props := ps |} /\
             Store.rel_props ok h (own_props d) ps.
Proof.
  intros H. inversion H; subst; simpl; (split; [assumption|]); (split; [exact I|]);
    eexists; split; eassumption.
Qed.

Lemma repr_container_intro (ok : Store.loc -> Prop) (h : Store.heap) (d : value)
  (l : Store.loc) (ps : list (string * Store.val)) :
  Store.container d -> ok l ->
  Store.read h l = Some {| Store.is_array := Store.is_arr d; Store.props := ps |} ->
  Store.rel_props ok h (own_props d) ps ->
  Store.repr ok h d (Store.Ref l).
Proof.
  destruct d; simpl; try contradiction; intros _ Hok Hr Hp.
  - eapply Store.repr_arr; eassumption.
  - eapply Store.repr_obj; eassumption.
Qed.

Lemma repr_scalar (ok : Store.loc -> Prop) (h : Store.heap) (d : value) (v : Store.val) :
  Store.repr ok h d v -> (forall l, v <> Store.Ref l) ->
  forall ok' h', Store.repr ok' h' d v.
Proof.
  intros H Hv ok' h'. inversion H; subst; try constructor; exfalso; eapply Hv; reflexivity.
Qed.

Lemma child_depth (d c : value) :
  In c (map snd (own_props d)) -> (S (depth c) <= depth d)%nat.
Proof.
  destruct d as [|b|n|s|elems|fields]; simpl; try tauto.
  - rewrite map_snd_indexed. intros H. apply maxdepth_in in H.
    change (S (depth c) <= depth (JArr elems))%nat. rewrite depth_array. lia.
  - intros H. apply maxdepth_in in H.
    change (S (depth c) <= depth (JObj fields))%nat. rewrite depth_object. lia.
Qed.

(** [repr] only looks at the objects at [ok] locations. *)
Lemma repr_mono_depth (n : nat) (ok ok' : Store.loc -> Prop) (h h' : Store.heap) :
  (forall l, ok l -> ok' l /\ Store.read h' l = Store.read h l) ->
  forall d v, (depth d <= n)%nat -> Store.repr ok h d v -> Store.repr ok' h' d v.
Proof.
  intros Hok. induction n as [|n IH]; intros d v Hd H.
  - inversion H; subst; try constructor; simpl in Hd; lia.
  - destruct v as [|b|m|s|l]; try (inversion H; subst; constructor).
    apply repr_container_inv in H. destruct H as (Hl & Hc & ps & Hr & Hp).
    destruct (Hok l Hl) as [Hl' Hr'].
    apply (repr_container_intro ok' h' d l ps Hc Hl'); [congruence|].
    apply (Forall2_impl_in _ _ _ _ Hp). intros f p Hf _ [E R]. split; [exact E|].
    apply IH; [|exact R].
    assert (S (depth (snd f)) <= depth d)%nat; [|lia].
    apply child_depth. apply in_map. exact Hf.
Qed.

Lemma repr_mono (ok ok' : Store.loc -> Prop) (h h' : Store.heap) (d : value) (v : Store.val) :
  (forall l, ok l -> ok' l /\ Store.read h' l = Store.read h l) ->
  Store.repr ok h d v -> Store.repr ok' h' d v.
Proof. intros Hok. apply (repr_mono_depth (depth d) ok ok' h h' Hok). lia. Qed.

Lemma rel_props_mono (ok ok' : Store.loc -> Prop) (h h' : Store.heap)
  (fields : list (string * value)) (ps : list (string * Store.val)) :
  (forall l, ok l -> ok' l /\ Store.read h' l = Store.read h l) ->
  Store.rel_props ok h fields ps -> Store.rel_props ok' h' fields ps.
Proof.
  intros Hok Hp. apply (Forall2_impl_in _ _ _ _ Hp). intros f p _ _ [E R].
  split; [exact E | apply (repr_mono ok ok' h h' _ _ Hok R)].
Qed.

Lemma repr_truthy (ok : Store.loc -> Prop) (h : Store.heap) (d : value) (v : Store.val) :
  Store.repr ok h d v -> truthy d = Store.truthy v.
Proof. intros H. inversion H; reflexivity. Qed.

Lemma rel_props_keys (ok : Store.loc -> Prop) (h : Store.heap)
  (fields : list (string * value)) (ps : list (string * Store.val)) :
  Store.rel_props ok h fields ps -> map fst fields = map fst ps.
Proof. induction 1 as [|f p fs ps' [E _] _ IH]; simpl; congruence. Qed.

Lemma rel_props_lookup (ok : Store.loc -> Prop) (h : Store.heap)
  (fields : list (string * value)) (ps : list (string * Store.val)) (k : string) :
  Store.rel_props ok h fields ps ->
  match lookup fields k, lookup ps k with
  | Some d, Some v => Store.repr ok h d v
  | None, None => True
  | _, _ => False
  end.
Proof.
  induction 1 as [|[k1 d1] [k2 v2] fs ps' [E R] _ IH]; simpl; [exact I|].
  simpl in E. subst k2. destruct (String.eqb k1 k); [exact R | exact IH].
Qed.

Lemma rel_props_replace (ok : Store.loc -> Prop) (h : Store.heap)
  (fields : list (string * value)) (ps : list (string * Store.val)) (k : string)
  (d : value) (v : Store.val) :
  Store.rel_props ok h fields ps -> Store.repr ok h d v ->
  Store.rel_props ok h (replace fields k d) (replace ps k v).
Proof.
  intros Hp Hv. induction Hp as [|[k1 d1] [k2 v2] fs ps' [E R] Hp IH]; simpl; [constructor|].
  simpl in E. subst k2. destruct (String.eqb k1 k); constructor; auto.
Qed.

Lemma rel_props_add_index (ok : Store.loc -> Prop) (h : Store.heap)
  (fields : list (string * value)) (ps : list (string * Store.val)) (n : N) (k : string)
  (d : value) (v : Store.val) :
  Store.rel_props ok h fields ps -> Store.repr ok h d v ->
  Store.rel_props ok h (add_index fields n k d) (add_index ps n k v).
Proof.
  intros Hp Hv. induction Hp as [|[k1 d1] [k2 v2] fs ps' [E R] Hp IH]; simpl.
  - constructor; [split; [reflexivity | exact Hv] | constructor].
  - simpl in E. subst k2.
    destruct (array_index k1) as [n'|]; [destruct (n' <? n)%N|];
      repeat (constructor; auto).
Qed.

Lemma rel_props_add (ok : Store.loc -> Prop) (h : Store.heap)
  (fields : list (string * value)) (ps : list (string * Store.val)) (k : string)
  (d : value) (v : Store.val) :
  Store.rel_props ok h fields ps -> Store.repr ok h d v ->
  Store.rel_props ok h (add fields k d) (add ps k v).
Proof.
  intros Hp Hv. unfold add. destruct (array_index k).
  - apply rel_props_add_index; assumption.
  - apply Forall2_app; [exact Hp|]. constructor; [split; [reflexivity | exact Hv] | constructor].
Qed.

Lemma repr_root_repr (lo : nat) (h : Store.heap) (d : value) (c : Store.val) :
  Store.repr_root lo h d c -> Store.repr (fun l => (lo <= l < length h)%nat) h d c.
Proof.
  destruct c as [|b|n|s|l]; simpl;
    try (intros H; apply (repr_scalar _ _ _ _ H); discriminate).
  intros (Hl & Hc & ps & Hr & Hp).
  apply (repr_container_intro _ h d l ps Hc Hl Hr).
  apply (rel_props_mono _ _ h h _ _ (fun l' H => conj (proj1 H) eq_refl) Hp).
Qed.

Lemma unchanged_read (h h' : Store.heap) (l : Store.loc) :
  Store.unchanged h h' -> (l < length h)%nat -> Store.read h' l = Store.read h l.
Proof. intros [_ H]. apply H. Qed.

Lemma clone_props_spec (fuel : nat) (ok : Store.loc -> Prop) (h_in : Store.heap)
  (fields : list (string * value)) (ps : list (string * Store.val)) :
  clone_ok fuel ->
  (forall l, ok l -> (l < length h_in)%nat) ->
  Store.rel_props ok h_in fields ps ->
  (forall f, In f fields -> (depth (snd f) <= fuel)%nat) ->
  forall h, Store.unchanged h_in h ->
  exists h1 ps', Store.clone_props (Store.structuredClone fuel) h ps = Some (h1, ps') /\
                 Store.unchanged h h1 /\
                 Store.rel_props (fun l => (length h <= l < length h1)%nat) h1 fields ps'.
Proof.
  intros Hclone Hok Hp. induction Hp as [|[k d] [k' v] fs ps0 [E R] Hp IH]; intros Hd h U.
  - exists h, []. simpl. split; [reflexivity|]. split; [apply unchanged_refl | constructor].
  - simpl in E. subst k'. simpl in R.
    assert (R' : Store.repr ok h d v).
    { apply (repr_mono ok ok h_in h d v); [|exact R].
      intros l Hl. split; [exact Hl|]. apply unchanged_read; auto. }
    destruct (Hclone ok h d v R') as (h2 & c & Ec & U2 & Rc).
    { intros l Hl. specialize (Hok l Hl). destruct U. lia. }
    { apply (Hd (k, d)). left. reflexivity. }
    destruct IH with (h := h2) as (h3 & ps' & Ep & U3 & Rp).
    { intros f Hf. apply Hd. right. exact Hf. }
    { eapply unchanged_trans; eassumption. }
    exists h3, ((k, c) :: ps'). simpl. rewrite Ec, Ep.
    split; [reflexivity|]. split; [eapply unchanged_trans; eassumption|].
    destruct U2 as [L2 _]. pose proof U3 as [L3 _].
    constructor.
    + split; [reflexivity|]. simpl.
      apply (repr_mono (fun l => (length h <= l < length h2)%nat) _ h2 h3);
        [|apply repr_root_repr; exact Rc].
      intros l Hl. split; [lia|]. apply unchanged_read; [exact U3 | lia].
    + apply (rel_props_mono (fun l => (length h2 <= l < length h3)%nat) _ h3 h3);
        [|exact Rp].
      intros l Hl. split; [lia | reflexivity].
Qed.

Lemma repr_scalar_depth (ok : Store.loc -> Prop) (h : Store.heap) (d : value) (v : Store.val) :
  Store.repr ok h d v -> (depth d <= 0)%nat -> forall l, v <> Store.Ref l.
Proof. intros H Hd l. inversion H; subst; simpl in Hd; try discriminate; lia. Qed.

Lemma read_alloc_new (h : Store.heap) (o : Store.object) :
  Store.read (h ++ [o]) (length h) = Some o.
Proof. unfold Store.read. rewrite nth_error_app2, Nat.sub_diag by lia. reflexivity. Qed.

Lemma read_alloc_old (h : Store.heap) (o : Store.object) (l : Store.loc) :
  (l < length h)%nat -> Store.read (h ++ [o]) l = Store.read h l.
Proof. intros H. unfold Store.read. apply nth_error_app1. exact H. Qed.

(** [structuredClone] copies a document into new objects. *)
Lemma structuredClone_spec (fuel : nat) : clone_ok fuel.
Proof.
  induction fuel as [|fuel IH]; intros ok h d v R Hok Hd.
  - pose proof (repr_scalar_depth ok h d v R Hd) as Hv.
    exists h, v. rewrite structuredClone_scalar by exact Hv.
    split; [reflexivity|]. split; [apply unchanged_refl|].
    destruct v; try (apply (repr_scalar _ _ _ _ R Hv)). exfalso. eapply Hv. reflexivity.
  - destruct v as [|b|n|s|l];
      try (eexists h, _; rewrite structuredClone_scalar by discriminate;
           split; [reflexivity|]; split; [apply unchanged_refl|];
           apply (repr_scalar _ _ _ _ R); discriminate).
    apply repr_container_inv in R. destruct R as (Hl & Hc & ps & Hr & Hp).
    destruct (clone_props_spec fuel ok h (own_props d) ps IH Hok Hp) with (h := h)
      as (h1 & ps' & Ep & U1 & Rp).
    { intros f Hf. assert (S (depth (snd f)) <= depth d)%nat; [|lia].
      apply child_depth. apply in_map. exact Hf. }
    { apply unchanged_refl. }
    simpl. rewrite Hr. cbn [Store.props Store.is_array]. rewrite Ep.
    eexists _, _. split; [reflexivity|].
    pose proof U1 as [L1 _].
    split.
    + eapply unchanged_trans; [exact U1|]. apply (unchanged_alloc h1).
    + simpl. rewrite length_app. simpl. split; [lia|]. split; [exact Hc|].
      exists ps'. split; [apply read_alloc_new|].
      apply (rel_props_mono (fun l' => (length h <= l' < length h1)%nat) _ h1 _ _ _);
        [|exact Rp].
      intros l' Hl'. split; [lia|]. apply read_alloc_old. lia.
Qed.

Lemma combine_fst_snd {A B : Type} (f : list (A * B)) : combine (map fst f) (map snd f) = f.
Proof. induction f as [|[a b] f IH]; simpl; [reflexivity|]. rewrite IH. reflexivity. Qed.

Lemma map_fst_replace {V : Type} (fields : list (string * V)) (k : string) (v : V) :
  map fst (replace fields k v) = map fst fields.
Proof.
  induction fields as [|[k0 v0] r IH]; simpl; [reflexivity|].
  destruct (String.eqb k0 k); simpl; [reflexivity | rewrite IH; reflexivity].
Qed.

(** Replacing an element of an array gives an array again. *)
Lemma indexed_replace (elems : list value) (k : string) (d : value) :
  indexed (map snd (replace (indexed elems) k d)) = replace (indexed elems) k d.
Proof.
  rewrite <- (combine_fst_snd (replace (indexed elems) k d)) at 2.
  unfold indexed at 1. f_equal.
  rewrite map_fst_replace, length_map.
  assert (L : length (replace (indexed elems) k d) = length elems).
  { rewrite <- (length_map fst), map_fst_replace, length_map.
    unfold indexed. rewrite length_combine, length_map, length_seq. lia. }
  rewrite L. symmetry. apply (for_in_keys_array elems).
Qed.

Lemma own_props_set (c : value) (k : string) (d : value) :
  Store.container c ->
  (Store.is_arr c = true -> get c k <> None) ->
  own_props (set c k d) =
  match lookup (own_props c) k with
  | Some _ => replace (own_props c) k d
  | None => add (own_props c) k d
  end /\
  Store.is_arr (set c k d) = Store.is_arr c /\ Store.container (set c k d).
Proof.
  destruct c as [|b|n|s|elems|fields]; simpl; try contradiction; intros _ Hk.
  - unfold get in Hk. simpl in Hk.
    destruct (lookup (indexed elems) k); [|exfalso; apply Hk; reflexivity].
    simpl. rewrite indexed_replace. auto.
  - destruct (lookup fields k); simpl; auto.
Qed.

(** Writing related values at the same key keeps the copy in the store
    related to the copy on the document side. *)
Lemma repr_root_set (lo : nat) (h : Store.heap) (c : value) (l : Store.loc)
  (o : Store.object) (k : string) (d : value) (v : Store.val) :
  Store.repr_root lo h c (Store.Ref l) ->
  Store.read h l = Some o ->
  (Store.is_arr c = true -> get c k <> None) ->
  Store.repr (fun l' => (lo <= l' < length h)%nat /\ l' <> l) h d v ->
  Store.repr_root lo (Store.write h l (Store.set_prop o k v)) (set c k d) (Store.Ref l) /\
  Store.is_arr (set c k d) = Store.is_arr c.
Proof.
  intros (Hl & Hc & ps & Hr & Hp) Ho Hk Hv.
  rewrite Hr in Ho. injection Ho as <-.
  destruct (own_props_set c k d Hc Hk) as (Eprops & Earr & Hc').
  split; [|exact Earr].
  simpl. rewrite store_length_write. split; [exact Hl|]. split; [exact Hc'|].
  eexists. split.
  - rewrite store_read_write_same by lia. unfold Store.set_prop. simpl.
    rewrite Earr. reflexivity.
  - rewrite Eprops.
    pose proof (rel_props_lookup _ h _ _ k Hp) as Hlk.
    assert (Hm : forall l', (lo <= l' < length h)%nat /\ l' <> l ->
                 ((lo <= l' < length h)%nat /\ l' <> l) /\
                 Store.read (Store.write h l (Store.set_prop
                    {| Store.is_array := Store.is_arr c; Store.props := ps |} k v)) l'
                 = Store.read h l').
    { intros l' Hl'. split; [exact Hl'|]. apply store_read_write_other. tauto. }
    destruct (lookup (own_props c) k), (lookup ps k); try contradiction.
    + apply (rel_props_mono _ _ h _ _ _ Hm). apply rel_props_replace; assumption.
    + apply (rel_props_mono _ _ h _ _ _ Hm). apply rel_props_add; assumption.
Qed.

Lemma get_set_keeps (c : value) (k' : string) (v : value) (k : string) :
  Store.container c -> (Store.is_arr c = true -> get c k' <> None) ->
  get c k <> None -> get (set c k' v) k <> None.
Proof.
  intros Hc Hk' Hk. destruct (own_props_set c k' v Hc Hk') as (E & _ & _).
  unfold get in *. rewrite E.
  destruct (lookup (own_props c) k') eqn:E'.
  - apply lookup_in_keys. rewrite map_fst_replace. apply lookup_in_keys. exact Hk.
  - destruct (String.eqb_spec k k') as [->|Hne].
    + rewrite lookup_add_same by exact E'. discriminate.
    + rewrite lookup_add_other by exact Hne. exact Hk.
Qed.

Section StepSimulation.

Variable n : nat.
Variable privateKey : string.
Variable recur_p : value -> M value.
Variable recur_s : Store.heap -> Store.val -> M (Store.heap * Store.val).
Variable lo : nat.
Variable l : Store.loc.

Hypothesis recur_sim :
  forall ok h d v,
    Store.repr ok h d v -> (forall l', ok l' -> (l' < length h)%nat) ->
    (depth d <= n)%nat -> sim h (recur_p d) (recur_s h v).
Hypothesis recur_p_ends : ends_upto n recur_p.

Lemma sim_step_ret (c : value) (h : Store.heap) :
  Store.repr_root lo h c (Store.Ref l) -> sim_step lo l c h (ret c) (ret h).
Proof.
  intros St. unfold sim_step, ret. simpl. split; [reflexivity|].
  exists h. split; [reflexivity|]. split; [lia|]. split; [reflexivity|].
  split; [lia|]. split; [auto | exact St].
Qed.

Lemma sim_step_set (c : value) (h : Store.heap) (o : Store.object) (k : string)
  (d : value) (v : Store.val) :
  Store.repr_root lo h c (Store.Ref l) ->
  Store.read h l = Some o ->
  (Store.is_arr c = true -> get c k <> None) ->
  (S (depth d) <= depth c)%nat ->
  Store.repr (fun l' => (lo <= l' < length h)%nat /\ l' <> l) h d v ->
  sim_step lo l c h (ret (set c k d)) (ret (Store.write h l (Store.set_prop o k v))).
Proof.
  intros St Ho Hk Hd Hv.
  destruct (repr_root_set lo h c l o k d v St Ho Hk Hv) as [St' Earr].
  unfold sim_step, ret. simpl. split; [reflexivity|].
  eexists. split; [reflexivity|].
  split; [rewrite store_length_write; lia|]. split; [exact Earr|].
  split; [pose proof (depth_set c k d); lia|]. split; [|exact St'].
  intros k0. apply get_set_keeps; [apply St | exact Hk].
Qed.

Lemma recur_step_sim (c : value) (h : Store.heap) (key : string) (d : value) (v : Store.val) :
  Store.repr_root lo h c (Store.Ref l) -> (depth c <= S n)%nat ->
  get c key = Some d ->
  Store.repr (fun l' => (lo <= l' < length h)%nat /\ l' <> l) h d v ->
  sim_step lo l c h
    (mbind (recur_p d) (fun r => ret (set c key r)))
    (mbind (recur_s h v)
           (fun p => match Store.read (fst p) l with
                     | Some o => ret (Store.write (fst p) l (Store.set_prop o key (snd p)))
                     | None => ret (fst p)
                     end)).
Proof.
  intros St Hd Hg R.
  pose proof St as (Hl & Hc & ps & Hr & Hp).
  pose proof (depth_get c key d Hg) as Hdd.
  assert (Hsim : sim h (recur_p d) (recur_s h v)).
  { apply (recur_sim _ h d v R); [intros l' [H _]; lia | lia]. }
  destruct (recur_p_ends d) as [_ Hends]; [lia|].
  unfold sim in Hsim.
  destruct (recur_p d) as [lp [d'|e|]]; destruct (recur_s h v) as [ls os];
    cbn [fst snd] in *.
  - destruct Hsim as (-> & h1 & r & -> & U & Rr).
    specialize (Hends d' eq_refl).
    pose proof U as [L1 _].
    assert (Hr1 : Store.read h1 l = Some {| Store.is_array := Store.is_arr c; Store.props := ps |}).
    { rewrite (unchanged_read h h1 l U) by lia. exact Hr. }
    assert (St1 : Store.repr_root lo h1 c (Store.Ref l)).
    { simpl. split; [lia|]. split; [exact Hc|]. exists ps. split; [exact Hr1|].
      apply (rel_props_mono (fun l' => (lo <= l' < length h)%nat /\ l' <> l)
               (fun l' => (lo <= l' < length h1)%nat /\ l' <> l) h h1 _ _); [|exact Hp].
      intros l' [H1 H2]. split; [split; [lia | exact H2]|].
      apply unchanged_read; [exact U | lia]. }
    assert (Rr1 : Store.repr (fun l' => (lo <= l' < length h1)%nat /\ l' <> l) h1 d' r).
    { apply (repr_mono (fun l' => (length h <= l' < length h1)%nat)
               (fun l' => (lo <= l' < length h1)%nat /\ l' <> l) h1 h1 d' r); [|exact Rr].
      intros l' H. split; [split; lia | reflexivity]. }
    assert (Hk : Store.is_arr c = true -> get c key <> None) by (intros _; congruence).
    pose proof (sim_step_set c h1 _ key d' r St1 Hr1 Hk ltac:(lia) Rr1) as S1.
    unfold sim_step, mbind, ret in *. cbn [fst snd] in *. rewrite Hr1.
    destruct S1 as (_ & h' & [= <-] & Hlen & Earr & Hdep & Hkeep & St').
    split; [reflexivity|]. eexists. split; [reflexivity|].
    split; [rewrite store_length_write in *; lia|].
    split; [exact Earr|]. split; [exact Hdep|]. split; [exact Hkeep | exact St'].
  - destruct Hsim as (-> & ->). unfold sim_step, mbind. cbn [fst snd]. auto.
  - unfold sim_step, mbind. cbn [fst snd]. exact I.
Qed.

End StepSimulation.

Section LoopSimulation.

Variable n : nat.
Variable privateKey : string.
Variable recur_p : value -> M value.
Variable recur_s : Store.heap -> Store.val -> M (Store.heap * Store.val).
Variable lo : nat.
Variable l : Store.loc.

Hypothesis recur_sim :
  forall ok h d v,
    Store.repr ok h d v -> (forall l', ok l' -> (l' < length h)%nat) ->
    (depth d <= n)%nat -> sim h (recur_p d) (recur_s h v).
Hypothesis recur_p_ends : ends_upto n recur_p.

(** One step of the loop. *)
Lemma body_sim (c : value) (h : Store.heap) (key : string) :
  Store.repr_root lo h c (Store.Ref l) -> (depth c <= S n)%nat -> key_ok c key ->
  sim_step lo l c h (body recur_p privateKey c key)
                    (Store.body recur_s privateKey l h key).
Proof.
  intros St Hd Hk.
  pose proof St as (Hl & Hc & ps & Hr & Hp).
  unfold body, Store.body. rewrite Hr.
  destruct (startsWith key "_") eqn:Hu.
  - assert (Harr : Store.is_arr c = true -> get c (slice1 key) <> None).
    { intros H. destruct (Hk H) as [H' _]. congruence. }
    assert (Ht : truthy_get c (slice1 key)
                 = Store.truthy_get {| Store.is_array := Store.is_arr c; Store.props := ps |}
                                    (slice1 key)).
    { unfold truthy_get, Store.truthy_get, get. cbn [Store.props].
      pose proof (rel_props_lookup _ h _ _ (slice1 key) Hp) as Hlk.
      destruct (lookup (own_props c) (slice1 key)), (lookup ps (slice1 key));
        try contradiction; [eapply repr_truthy; eassumption | reflexivity]. }
    rewrite <- Ht.
    destruct (truthy_get c (slice1 key)); cbn [negb]; [apply sim_step_ret; exact St|].
    unfold get. cbn [Store.props].
    pose proof (rel_props_lookup _ h _ _ key Hp) as Hlk.
    destruct (lookup (own_props c) key) as [d|] eqn:Eg, (lookup ps key) as [v|];
      try contradiction; [|apply sim_step_ret; exact St].
    apply (sim_step_set lo l c h _ (slice1 key) d v St Hr Harr); [|exact Hlk].
    apply (depth_get c key d Eg).
  - unfold get. cbn [Store.props].
    pose proof (rel_props_lookup _ h _ _ key Hp) as Hlk.
    destruct (lookup (own_props c) key) as [d|] eqn:Eg, (lookup ps key) as [v|];
      try contradiction; [|apply sim_step_ret; exact St].
    assert (Hkey : Store.is_arr c = true -> get c key <> None)
      by (intros _; unfold get; congruence).
    pose proof (recur_step_sim n recur_p recur_s lo l recur_sim recur_p_ends
                  c h key d v St Hd Eg Hlk) as Hrec.
    inversion Hlk; subst.
    + exact Hrec.
    + apply sim_step_ret; exact St.
    + apply sim_step_ret; exact St.
    + destruct (startsWith s "EJ["); [|apply sim_step_ret; exact St].
      destruct (parseEncryptedValue s) as [t|e]; [|unfold sim_step; simpl; auto].
      destruct (decrypt (box t) (nonce t) (encrypterPublic t) privateKey) as [plain|e] eqn:Ed.
      * pose proof (sim_step_set lo l c h _ key (JStr plain) (Store.Str plain) St Hr Hkey)
          as Hs.
        unfold sim_step, call, mbind, ret in *. rewrite Ed. cbn [fst snd app] in *.
        destruct Hs as (_ & h' & [= <-] & Hs).
        { apply (depth_get c key _ Eg). }
        { constructor. }
        split; [reflexivity|]. eexists. split; [reflexivity | exact Hs].
      * unfold sim_step, call, mbind. rewrite Ed. simpl. auto.
    + exact Hrec.
    + exact Hrec.
Qed.

(** The loop. *)
Lemma for_in_sim (keys : list string) (c : value) (h : Store.heap) :
  Store.repr_root lo h c (Store.Ref l) -> (depth c <= S n)%nat ->
  Forall (key_ok c) keys ->
  sim_step lo l c h (for_in (body recur_p privateKey) keys c)
                    (Store.for_in (Store.body recur_s privateKey l) keys h).
Proof.
  revert c h; induction keys as [|key keys IH]; intros c h St Hd Hk.
  - apply sim_step_ret. exact St.
  - inversion Hk as [|? ? Hk1 Hk2]; subst.
    pose proof (body_sim c h key St Hd Hk1) as Hb.
    cbn [for_in Store.for_in]. unfold sim_step in Hb.
    destruct (body recur_p privateKey c key) as [lp [c1|e|]];
      destruct (Store.body recur_s privateKey l h key) as [ls os]; cbn [fst snd] in Hb.
    + destruct Hb as (-> & h1 & -> & Hlen & Earr & Hdep & Hkeep & St1).
      assert (Hk' : Forall (key_ok c1) keys).
      { apply (Forall_impl _ (P := key_ok c)); [|exact Hk2].
        intros k Hkk Ha. rewrite Earr in Ha. destruct (Hkk Ha) as [H1 H2]. auto. }
      specialize (IH c1 h1 St1 ltac:(lia) Hk'). unfold sim_step in IH |- *.
      unfold mbind.
      destruct (for_in (body recur_p privateKey) keys c1) as [lp' [c2|e|]];
        destruct (Store.for_in (Store.body recur_s privateKey l) keys h1) as [ls' os'];
        cbn [fst snd] in *.
      * destruct IH as (-> & h2 & -> & Hlen2 & Earr2 & Hdep2 & Hkeep2 & St2).
        split; [reflexivity|]. exists h2. split; [reflexivity|].
        split; [lia|]. split; [congruence|]. split; [lia|]. split; [auto | exact St2].
      * destruct IH as (-> & ->). auto.
      * exact I.
    + destruct Hb as (-> & ->). unfold sim_step, mbind. cbn [fst snd]. auto.
    + unfold sim_step, mbind. cbn [fst snd]. exact I.
Qed.

End LoopSimulation.

Lemma repr_depth_scalar (ok : Store.loc -> Prop) (h : Store.heap) (d : value) (v : Store.val) :
  Store.repr ok h d v -> (forall l, v <> Store.Ref l) -> own_props d = [].
Proof.
  intros H Hv. inversion H; subst; try reflexivity; exfalso; eapply Hv; reflexivity.
Qed.

Lemma array_keys_ok (d : value) : Forall (key_ok d) (for_in_keys d).
Proof.
  apply Forall_forall. intros k Hk Harr. split.
  - destruct d as [|b|n|s|elems|fields]; try discriminate.
    rewrite for_in_keys_array in Hk. apply in_map_iff in Hk.
    destruct Hk as (i & <- & _). apply index_key_no_underscore.
  - unfold get. apply lookup_in_keys. exact Hk.
Qed.

Lemma walk_S (fuel : nat) (rawConf : value) (privateKey : string) :
  walk (S fuel) rawConf privateKey =
  for_in (body (fun v => walk fuel v privateKey) privateKey) (for_in_keys rawConf) rawConf.
Proof. reflexivity. Qed.

Lemma store_walk_S (fuel : nat) (h : Store.heap) (rawConf : Store.val) (privateKey : string) :
  Store.processObjectFields (S fuel) h rawConf privateKey =
  match Store.structuredClone fuel h rawConf with
  | None => ([], OutOfFuel)
  | Some (h1, configJson) =>
      match configJson with
      | Store.Ref l =>
          match Store.read h1 l with
          | Some o =>
              mbind (Store.for_in
                       (Store.body (fun h v => Store.processObjectFields fuel h v privateKey)
                                   privateKey l)
                       (map fst (Store.props o)) h1)
                    (fun h2 => ret (h2, configJson))
          | None => ret (h1, configJson)
          end
      | _ => ret (h1, configJson)
      end
  end.
Proof. reflexivity. Qed.

(** The walker on the store does what the walker on documents does. *)
Theorem store_walk_refines (n : nat) (privateKey : string) :
  forall ok h d v,
    Store.repr ok h d v -> (forall l, ok l -> (l < length h)%nat) -> (depth d <= n)%nat ->
    sim h (walk (S n) d privateKey) (Store.processObjectFields (S n) h v privateKey).
Proof.
  induction n as [|n IH]; intros ok h d v R Hok Hd.
  - pose proof (repr_scalar_depth ok h d v R Hd) as Hv.
    pose proof (repr_depth_scalar ok h d v R Hv) as Hp.
    rewrite walk_S, store_walk_S. unfold for_in_keys. rewrite Hp. cbn [map for_in].
    destruct v as [|b|m|s|l]; [| | | |exfalso; eapply Hv; reflexivity];
      (cbn [Store.structuredClone];
       unfold sim, ret; cbn [fst snd]; split; [reflexivity|];
       eexists h, _; split; [reflexivity|]; split; [apply unchanged_refl|];
       apply (repr_scalar ok h d _ R); discriminate).
  - destruct (structuredClone_spec (S n) ok h d v R Hok Hd) as (h1 & c0 & Ec & U1 & Rc).
    rewrite walk_S, store_walk_S, Ec.
    destruct c0 as [|b|m|s|l].
    1-4: (pose proof (repr_depth_scalar _ h1 d _ Rc ltac:(discriminate)) as Hp;
          unfold for_in_keys; rewrite Hp; cbn [map for_in];
          unfold sim, ret; cbn [fst snd]; split; [reflexivity|];
          eexists h1, _; split; [reflexivity|]; split; [exact U1|];
          apply (repr_scalar _ h1 d _ Rc); discriminate).
    pose proof Rc as (Hl & Hc & ps & Hr & Hp).
    rewrite Hr. cbn [Store.props].
    rewrite <- (rel_props_keys _ h1 _ _ Hp). fold (for_in_keys d).
    pose proof (for_in_sim n privateKey (fun v => walk (S n) v privateKey)
                  (fun h v => Store.processObjectFields (S n) h v privateKey)
                  (length h) l
                  (fun ok h d v => IH ok h d v)
                  (walk_ends n privateKey)
                  (for_in_keys d) d h1 Rc Hd (array_keys_ok d)) as Hsim.
    unfold sim_step in Hsim. unfold sim.
    destruct (for_in (body (fun v0 => walk (S n) v0 privateKey) privateKey) (for_in_keys d) d)
      as [lp [c'|e|]];
      destruct (Store.for_in
                  (Store.body (fun h0 v0 => Store.processObjectFields (S n) h0 v0 privateKey)
                              privateKey l) (for_in_keys d) h1) as [ls os] eqn:Es;
      cbn [fst snd] in *.
    + destruct Hsim as (-> & h2 & -> & Hlen & _ & _ & _ & St2).
      unfold mbind, ret. cbn beta iota. cbn [fst snd]. rewrite app_nil_r. split; [reflexivity|].
      exists h2, (Store.Ref l). split; [reflexivity|].
      split; [|apply repr_root_repr; exact St2].
      apply (for_in_unchanged
               (fun h0 v0 => Store.processObjectFields (S n) h0 v0 privateKey) privateKey h l
               (fun hx vx lx hx' rx Hx =>
                  proj1 (store_walk_unchanged (S n) hx vx privateKey lx hx' rx Hx))
               (proj1 Hl) (for_in_keys d) h1 ls h2 U1 Es).
    + destruct Hsim as (-> & ->). unfold mbind. cbn [fst snd]. auto.
    + exact I.
Qed.

(** At a key whose value is a string without the prefix [EJ[], the step
    of the walker calls neither the parser nor the codec and leaves the
    document as it is.  And decrypting the same document twice with the
    same key does the same work and gives the same result: when a first
    walk of a document in the store returns, a second walk of the same
    object logs the same calls of the parser and the codec and returns a
    document with the same content, which is the one the walker on
    documents returns. *)
Theorem plain_strings_and_repeated_walk :
  (forall recur privateKey c key s,
     startsWith key "_" = false -> get c key = Some (JStr s) ->
     startsWith s "EJ[" = false ->
     body recur privateKey c key = ret c) /\
  (forall ok h d v privateKey log h1 r1,
     Store.repr ok h d v -> (forall l, ok l -> (l < length h)%nat) ->
     Store.processObjectFields (S (depth d)) h v privateKey = (log, Ret (h1, r1)) ->
     exists d' h2 r2,
       processObjectFields d privateKey = (log, Ret d') /\
       Store.repr (fun l => (length h <= l < length h1)%nat) h1 d' r1 /\
       Store.processObjectFields (S (depth d)) h1 v privateKey = (log, Ret (h2, r2)) /\
       Store.repr (fun l => (length h1 <= l < length h2)%nat) h2 d' r2).
Proof.
  split; [intros; apply body_plain_string with (s := s); assumption|].
  intros ok h d v privateKey log h1 r1 R Hok Hrun.
  pose proof (store_walk_refines (depth d) privateKey ok h d v R Hok (Nat.le_refl _)) as S1.
  pose proof (processObjectFields_ends d privateKey) as Hends.
  unfold processObjectFields in *. unfold sim in S1. rewrite Hrun in S1.
  destruct (walk (S (depth d)) d privateKey) as [lp [d'|e|]] eqn:Ew; cbn [fst snd] in *.
  - destruct S1 as (-> & h' & r & [= <- <-] & U & R1).
    assert (R' : Store.repr ok h1 d v).
    { apply (repr_mono ok ok h h1 d v); [|exact R].
      intros l Hl. split; [exact Hl|]. apply unchanged_read; auto. }
    assert (Hok' : forall l, ok l -> (l < length h1)%nat).
    { intros l Hl. specialize (Hok l Hl). destruct U. lia. }
    pose proof (store_walk_refines (depth d) privateKey ok h1 d v R' Hok' (Nat.le_refl _)) as S2.
    unfold sim in S2. rewrite Ew in S2. cbn [fst snd] in S2.
    destruct S2 as (E2 & h2 & r2 & E2' & _ & R2).
    exists d', h2, r2. split; [reflexivity|]. split; [exact R1|]. split; [|exact R2].
    destruct (Store.processObjectFields (S (depth d)) h1 v privateKey) as [l2 o2].
    cbn [fst snd] in *. subst. reflexivity.
  - destruct S1 as (_ & [=]).
  - congruence.
Qed.

(** The test document is decrypted twice, from the same object. *)
Example repeated_walk_test :
  Store.processObjectFields 2 Store.test_heap_after (Store.Ref 0%nat) test_private_key
  = (Store.test_log,
     Ret (Store.test_heap_after ++
          [{| Store.is_array := false;
              Store.props := [("_public_key", Store.Str test_public_key);
                              ("test_secret", Store.Str testSecretValue);
                              ("public_key", Store.Str test_public_key)]%string |}],
          Store.Ref 2%nat)).
Proof. vm_compute. reflexivity. Qed.

(** C8 at its failing input.  The walk of [{"_x": "", "__x": "v"}] returns
    a document without any token in which [x] is the empty string; the walk
    of that document is not a no-op: it replaces the value of [x], a string
    without the prefix [EJ[], by ["v"]. *)
Theorem C8_decrypted_document_altered :
  (processObjectFields doc_default_chain test_private_key
   = ([], Ret (JObj [("_x", JStr "v"); ("__x", JStr "v"); ("x", JStr "")])) /\
   processObjectFields (JObj [("_x", JStr "v"); ("__x", JStr "v"); ("x", JStr "")])
                       test_private_key
   = ([], Ret (JObj [("_x", JStr "v"); ("__x", JStr "v"); ("x", JStr "v")])))%string.
Proof. split; reflexivity. Qed.

(** ** The theorems at the test data *)

Lemma C1_parseEncryptedValue_grammar_witness :
  exists d pub non bx,
    test_secret = token_text d pub non bx /\ fields_ok d pub non bx /\
    has_line_terminator bx = false /\
    {| schemaVersion := 1; encrypterPublic := test_encrypter_public;
       nonce := test_nonce; box := test_box |}
    = {| schemaVersion := parseInt_digit d; encrypterPublic := pub;
         nonce := non; box := bx |}.
Proof.
  apply (proj1 (C1_parseEncryptedValue_grammar test_secret)). reflexivity.
Defined.

Lemma testEjson_in_test_heap :
  Store.repr (fun l => l = 0%nat) Store.test_heap testEjson (Store.Ref 0%nat).
Proof.
  eapply Store.repr_obj; [reflexivity | reflexivity|].
  repeat constructor.
Qed.

Lemma plain_strings_and_repeated_walk_at_test_data :
  (body (fun v => walk 1 v test_private_key) test_private_key
        (JObj [("name", JStr "plain")]) "name"
   = ret (JObj [("name", JStr "plain")]))%string /\
  exists d' h2 r2,
    processObjectFields testEjson test_private_key = (Store.test_log, Ret d') /\
    Store.repr (fun l => (length Store.test_heap <= l < length Store.test_heap_after)%nat)
               Store.test_heap_after d' (Store.Ref 1%nat) /\
    Store.processObjectFields (S (depth testEjson)) Store.test_heap_after (Store.Ref 0%nat)
                              test_private_key
    = (Store.test_log, Ret (h2, r2)) /\
    Store.repr (fun l => (length Store.test_heap_after <= l < length h2)%nat) h2 d' r2.
Proof.
  split.
  - apply (proj1 plain_strings_and_repeated_walk) with (s := "plain"%string);
      reflexivity.
  - apply (proj2 plain_strings_and_repeated_walk (fun l => l = 0%nat)
             Store.test_heap testEjson (Store.Ref 0%nat) test_private_key
             Store.test_log Store.test_heap_after (Store.Ref 1%nat)).
    + exact testEjson_in_test_heap.
    + intros l ->. simpl. lia.
    + vm_compute. reflexivity.
Qed.

(* ================================================================== *)
(** * Part III. The configuration, and more on the walker             *)
(* ================================================================== *)

(** ** The configuration *)

Section ConfigProperties.

Variables loaded env : Config.environment.
Variable readFile : string -> result string.
Variable JSON_parse : string -> result value.

Lemma io_bind_ret_l {A B : Type} (a : A) (k : A -> Config.IO B) :
  Config.io_bind (Config.io_ret a) k = k a.
Proof. unfold Config.io_bind, Config.io_ret. destruct (k a). reflexivity. Qed.

Lemma io_bind_Ret {A B : Type} (l : list Config.effect) (a : A) (k : A -> Config.IO B) :
  Config.io_bind (l, Ret a) k = (l ++ fst (k a), snd (k a)).
Proof. unfold Config.io_bind. destruct (k a). reflexivity. Qed.

Lemma lift_mbind_call {A : Type} (ev : event) (r : result A) (k : A -> M value) :
  Config.lift (mbind (call ev r) k) =
  Config.io_bind ([Config.Core ev], Ret tt)
    (fun _ => Config.io_bind (Config.io_result r) (fun a => Config.lift (k a))).
Proof.
  unfold Config.lift, Config.io_bind, Config.io_result, call, mbind.
  destruct r as [a|e]; simpl; [|reflexivity].
  destruct (k a) as [l o]. reflexivity.
Qed.

(** X1.  A caller that gives the document and a resolver of its own gets the
    walk of that document with the key of that resolver; the environment
    and the files play no part. *)
Theorem processEjson_given_document (config : Config.configuration Config.resolver)
  (doc : value) (g : option value -> result string) :
  Config.read (Config.configJson config) = Some doc -> truthy doc = true ->
  Config.getPrivateKey config = Config.Given (Some (pure_resolver g)) ->
  Config.processEjson loaded env readFile JSON_parse config = Config.lift (processEjson g doc).
Proof.
  intros Hdoc Ht Hf. unfold Config.processEjson, Config.getConfigJson.
  assert (Hc : Config.read (Config.configJson (Config.mergeConfigs loaded env readFile config)) = Some doc).
  { cbn. destruct (Config.configJson config); [discriminate | exact Hdoc]. }
  rewrite Hc, Ht, io_bind_ret_l.
  assert (Hg : Config.read (Config.getPrivateKey (Config.mergeConfigs loaded env readFile config)) = Some (pure_resolver g)).
  { cbn. rewrite Hf. reflexivity. }
  rewrite Hg. unfold processEjson.
  destruct (read_public_key doc) as [publicKey|e]; [|reflexivity].
  cbn [Config.io_result]. rewrite (io_bind_ret_l publicKey).
  rewrite lift_mbind_call. unfold pure_resolver.
  unfold Config.io_bind, Config.io_result, Config.lift.
  destruct (g publicKey) as [key|e]; simpl; [|reflexivity].
  destruct (processObjectFields doc key) as [l o]. reflexivity.
Qed.

(** The path of the document file, from the caller's options and the
    environment at load time. *)
Lemma filePath_merged (config : Config.configuration Config.resolver) :
  Config.filePath (Config.mergeConfigs loaded env readFile config) =
  let prefix := match loaded "NODE_ENV"%string with Some s => s | None => "env"%string end in
  let built := (option_text "." (Config.envFileDir config) ++ "/"
                ++ option_text prefix (Config.envFilePrefix config)
                ++ option_text ".ejson" (Config.envFileSuffix config))%string in
  match Config.envFilePath config with
  | Config.Given (Some p) => p
  | Config.Given None => built
  | Config.Absent =>
      match loaded "NODE_EJSON_FILE_PATH"%string with
      | Some p => p
      | None => built
      end
  end.
Proof.
  unfold Config.filePath. cbn.
  destruct (Config.envFilePath config) as [|[p|]]; cbn;
    [destruct (loaded "NODE_EJSON_FILE_PATH"%string); cbn| |]; try reflexivity;
    destruct (Config.envFileDir config), (Config.envFilePrefix config),
      (Config.envFileSuffix config); reflexivity.
Qed.

Lemma getConfigJson_from_file (config : Config.configuration Config.resolver) :
  from_file config ->
  Config.getConfigJson readFile JSON_parse (Config.mergeConfigs loaded env readFile config) =
  Config.io_bind
    (Config.fs_readFile readFile (Config.filePath (Config.mergeConfigs loaded env readFile config)))
    (fun envFile => Config.io_result (JSON_parse envFile)).
Proof.
  intros Hf. unfold Config.getConfigJson.
  replace (Config.read (Config.configJson (Config.mergeConfigs loaded env readFile config)))
    with (Config.read (Config.configJson config))
    by (cbn; destruct (Config.configJson config); reflexivity).
  destruct (Config.read (Config.configJson config)) as [v|] eqn:E; [|reflexivity].
  rewrite (Hf v E). reflexivity.
Qed.

(** X2.  Without a truthy [configJson] the document is read from one
    file and parsed.  The file is the caller's [envFilePath]; without it,
    the [NODE_EJSON_FILE_PATH] of load time; without that, or when the
    caller gives [envFilePath] as undefined, directory, [/], prefix and
    suffix, each the caller's when given (an option given as undefined
    reads [undefined]) and else [.], the [NODE_ENV] of load time (or
    [env]) and [.ejson]. *)
Theorem document_file (config : Config.configuration Config.resolver) :
  from_file config ->
  let prefix := match loaded "NODE_ENV"%string with Some s => s | None => "env"%string end in
  let built := (option_text "." (Config.envFileDir config) ++ "/"
                ++ option_text prefix (Config.envFilePrefix config)
                ++ option_text ".ejson" (Config.envFileSuffix config))%string in
  let path := match Config.envFilePath config with
              | Config.Given (Some p) => p
              | Config.Given None => built
              | Config.Absent =>
                  match loaded "NODE_EJSON_FILE_PATH"%string with
                  | Some p => p
                  | None => built
                  end
              end in
  Config.getConfigJson readFile JSON_parse (Config.mergeConfigs loaded env readFile config) =
  ([Config.ReadFile path],
   match readFile path with
   | Ok envFile => match JSON_parse envFile with Ok doc => Ret doc | Throw e => Raise e end
   | Throw e => Raise e
   end).
Proof.
  intros Hf. cbv zeta. rewrite (getConfigJson_from_file config Hf), filePath_merged.
  cbv zeta. unfold Config.fs_readFile, Config.io_bind, Config.io_result.
  match goal with |- context [readFile ?p] => destruct (readFile p) as [envFile|e] end;
    [|reflexivity].
  destruct (JSON_parse envFile); reflexivity.
Qed.

Lemma processEjson_loaded (config : Config.configuration Config.resolver)
  (l : list Config.effect) (doc : value) :
  Config.getPrivateKey config = Config.Absent ->
  Config.getConfigJson readFile JSON_parse (Config.mergeConfigs loaded env readFile config)
    = (l, Ret doc) ->
  doc <> JNull ->
  Config.processEjson loaded env readFile JSON_parse config =
  Config.io_bind (l ++ [Config.Core (Resolve (get doc "_public_key"))], Ret tt)
    (fun _ =>
       Config.io_bind
         (Config.default_getPrivateKey env readFile (get doc "_public_key")
            (Config.view (Config.mergeConfigs loaded env readFile config)))
         (fun privateKey => Config.lift (processObjectFields doc privateKey))).
Proof.
  intros Hg Hl Hn. unfold Config.processEjson. rewrite Hl, io_bind_Ret. cbv beta.
  assert (Hp : read_public_key doc = Ok (get doc "_public_key")).
  { destruct doc; try reflexivity. congruence. }
  rewrite Hp.
  change (Config.io_result (Ok (get doc "_public_key")))
    with (Config.io_ret (get doc "_public_key")).
  rewrite !io_bind_ret_l.
  replace (Config.read (Config.getPrivateKey (Config.mergeConfigs loaded env readFile config)))
    with (Some (Config.default_getPrivateKey env readFile))
    by (cbn; rewrite Hg; reflexivity).
  destruct (Config.default_getPrivateKey env readFile (get doc "_public_key")
              (Config.view (Config.mergeConfigs loaded env readFile config))) as [lk [key|e|]];
    cbn.
  - destruct (processObjectFields doc key) as [lw o]. cbn.
    rewrite ?app_nil_r, <- ?app_assoc. reflexivity.
  - rewrite ?app_nil_r, <- ?app_assoc. reflexivity.
  - rewrite ?app_nil_r, <- ?app_assoc. reflexivity.
Qed.

(** X3.  With the default resolver and a non-empty
    [NODE_EJSON_PRIVATE_KEY] in the environment, that text is the private
    key, whatever the public key of the document is, and no key file is
    read: after the document is loaded the run is the call of the
    resolver and the walk. *)
Theorem private_key_from_environment (config : Config.configuration Config.resolver)
  (l : list Config.effect) (doc : value) (key : string) :
  Config.getPrivateKey config = Config.Absent ->
  Config.getConfigJson readFile JSON_parse (Config.mergeConfigs loaded env readFile config)
    = (l, Ret doc) ->
  doc <> JNull ->
  env "NODE_EJSON_PRIVATE_KEY"%string = Some key -> key <> ""%string ->
  Config.processEjson loaded env readFile JSON_parse config =
  (l ++ Config.Core (Resolve (get doc "_public_key"))
     :: map Config.Core (fst (processObjectFields doc key)),
   snd (processObjectFields doc key)).
Proof.
  intros Hg Hl Hn He Hk. rewrite (processEjson_loaded config l doc Hg Hl Hn).
  unfold Config.default_getPrivateKey. rewrite He.
  apply String.eqb_neq in Hk. rewrite Hk. cbn.
  destruct (processObjectFields doc key) as [lw o]. cbn.
  rewrite <- app_assoc. reflexivity.
Qed.

(** X4.  With the default resolver and no (or an empty)
    [NODE_EJSON_PRIVATE_KEY], the private key is the whole text of one
    file, read after the document is loaded: the file named by the keys
    directory (the caller's, or [/opt/ejson/keys/]) followed, with
    nothing in between, by the text of the document's [_public_key],
    which is [undefined] when the document has none.  When that file
    cannot be read the run fails with its error and nothing is walked. *)
Theorem private_key_from_file (config : Config.configuration Config.resolver)
  (l : list Config.effect) (doc : value) :
  Config.getPrivateKey config = Config.Absent ->
  Config.keysDir config <> Config.Given None ->
  Config.getConfigJson readFile JSON_parse (Config.mergeConfigs loaded env readFile config)
    = (l, Ret doc) ->
  doc <> JNull ->
  truthy_string (env "NODE_EJSON_PRIVATE_KEY"%string) = false ->
  let publicKey := get doc "_public_key" in
  let keyFile := (option_text "/opt/ejson/keys/" (Config.keysDir config)
                  ++ match publicKey with
                     | Some v => Config.ToString v
                     | None => "undefined"
                     end)%string in
  Config.processEjson loaded env readFile JSON_parse config =
  match readFile keyFile with
  | Ok key =>
      (l ++ Config.Core (Resolve publicKey) :: Config.ReadFile keyFile
         :: map Config.Core (fst (processObjectFields doc key)),
       snd (processObjectFields doc key))
  | Throw e =>
      (l ++ [Config.Core (Resolve publicKey); Config.ReadFile keyFile], Raise e)
  end.
Proof.
  intros Hg Hd Hl Hn He. cbv zeta. rewrite (processEjson_loaded config l doc Hg Hl Hn).
  assert (Hd' : Config.default_getPrivateKey env readFile (get doc "_public_key")
                  (Config.view (Config.mergeConfigs loaded env readFile config))
                = Config.read_key_file readFile (get doc "_public_key")
                    (Config.view (Config.mergeConfigs loaded env readFile config))).
  { unfold Config.default_getPrivateKey, truthy_string in *.
    destruct (env "NODE_EJSON_PRIVATE_KEY"%string) as [key|]; [|reflexivity].
    apply negb_false_iff in He. rewrite He. reflexivity. }
  rewrite Hd'. unfold Config.read_key_file.
  assert (Hp : Config.plus
                 (Config.read (Config.keysDir (Config.view (Config.mergeConfigs loaded env readFile config))))
                 (get doc "_public_key")
               = Some (option_text "/opt/ejson/keys/" (Config.keysDir config)
                       ++ match get doc "_public_key" with
                          | Some v => Config.ToString v
                          | None => "undefined"
                          end)%string).
  { cbn. destruct (Config.keysDir config) as [|[d|]]; [| |congruence];
      cbn; destruct (get doc "_public_key"); reflexivity. }
  rewrite Hp. unfold Config.fs_readFile.
  match goal with |- context [readFile ?p] => destruct (readFile p) as [key|e] end; cbn.
  - destruct (processObjectFields doc key) as [lw o]. cbn.
    rewrite <- app_assoc. reflexivity.
  - rewrite <- app_assoc. reflexivity.
Qed.

End ConfigProperties.

(** ** The walker on documents without secrets *)

Lemma lookup_indexed_key (elems : list value) (k : string) (v : value) :
  lookup (indexed elems) k = Some v ->
  startsWith k "_" = false /\ In v elems.
Proof.
  intros H. split.
  - assert (Hk : In k (map fst (indexed elems))).
    { apply lookup_in_keys. congruence. }
    change (map fst (indexed elems)) with (for_in_keys (JArr elems)) in Hk.
    rewrite for_in_keys_array in Hk. apply in_map_iff in Hk.
    destruct Hk as (i & <- & _). apply index_key_no_underscore.
  - rewrite <- (map_snd_indexed elems). eapply lookup_in_values; eassumption.
Qed.

Lemma plain_get (c : value) (k : string) (v : value) :
  plain c = true -> get c k = Some v ->
  startsWith k "_" = false /\ plain v = true.
Proof.
  unfold get. destruct c as [|b|n|s|elems|fields]; cbn [own_props lookup]; try discriminate.
  - intros Hp Hl. apply lookup_indexed_key in Hl. destruct Hl as [Hk Hin].
    split; [exact Hk|]. cbn [plain] in Hp. rewrite forallb_forall in Hp. auto.
  - cbn [plain]. induction fields as [|[k0 v0] r IH]; cbn [lookup forallb fst snd];
      [discriminate|].
    intros Hp Hl. apply andb_true_iff in Hp. destruct Hp as [Hp Hr].
    apply andb_true_iff in Hp. destruct Hp as [Hk Hv].
    destruct (String.eqb_spec k0 k) as [->|Hne].
    + injection Hl as <-. split; [|exact Hv]. now apply negb_true_iff in Hk.
    + auto.
Qed.

Lemma body_plain (recur : value -> M value) (pk : string) (c : value) (key : string) :
  plain c = true ->
  (forall v, get c key = Some v -> recur v = ([], Ret v)) ->
  body recur pk c key = ret c.
Proof.
  intros Hp Hr. unfold body.
  destruct (get c key) as [v|] eqn:E.
  - destruct (plain_get c key v Hp E) as [Hk Hv]. rewrite Hk.
    destruct v as [|b|n|s|elems|fields]; try reflexivity.
    + rewrite (Hr _ eq_refl). cbn. rewrite (set_get_same c key _ E). reflexivity.
    + cbn [plain] in Hv. apply negb_true_iff in Hv. rewrite Hv. reflexivity.
    + rewrite (Hr _ eq_refl). cbn. rewrite (set_get_same c key _ E). reflexivity.
    + rewrite (Hr _ eq_refl). cbn. rewrite (set_get_same c key _ E). reflexivity.
  - destruct (startsWith key "_"); [|reflexivity].
    destruct (negb _); reflexivity.
Qed.

Lemma for_in_plain (recur : value -> M value) (pk : string) (keys : list string) (c : value) :
  plain c = true ->
  (forall key v, get c key = Some v -> recur v = ([], Ret v)) ->
  for_in (body recur pk) keys c = ret c.
Proof.
  intros Hp Hr. induction keys as [|key keys IH]; cbn [for_in]; [reflexivity|].
  rewrite (body_plain recur pk c key Hp (Hr key)), mbind_ret_l. exact IH.
Qed.

Lemma walk_plain (fuel : nat) (pk : string) (v : value) :
  (depth v < fuel)%nat -> plain v = true -> walk fuel v pk = ([], Ret v).
Proof.
  revert v; induction fuel as [|fuel IH]; intros v Hd Hp; [lia|].
  rewrite walk_S. apply for_in_plain; [exact Hp|].
  intros key u Hu. destruct (plain_get v key u Hp Hu) as [_ Hpu].
  apply IH; [|exact Hpu]. apply depth_get in Hu. lia.
Qed.

(** X5.  A document in which no key begins with [_] and no string begins
    with [EJ[], at any depth, is returned as it is, and neither the parser
    nor the codec is called. *)
Theorem plain_document_unchanged (rawConf : value) (privateKey : string) :
  plain rawConf = true ->
  processObjectFields rawConf privateKey = ([], Ret rawConf).
Proof.
  intros Hp. unfold processObjectFields. apply walk_plain; [lia | exact Hp].
Qed.

(** ** What a step of the walker does to the copy *)

Lemma body_Ret_inv (recur : value -> M value) (pk : string) (c : value) (key : string)
  (l : list event) (c' : value) :
  body recur pk c key = (l, Ret c') ->
  (l = [] /\ c' = c) \/
  (exists x, l = [] /\ startsWith key "_" = true /\ truthy_get c (slice1 key) = false /\
             get c key = Some x /\ c' = set c (slice1 key) x) \/
  (exists s t p, startsWith key "_" = false /\ get c key = Some (JStr s) /\
                 startsWith s "EJ[" = true /\ parseEncryptedValue s = Ok t /\
                 decrypt (box t) (nonce t) (encrypterPublic t) pk = Ok p /\
                 l = [Parse s; Decrypt (box t) (nonce t) (encrypterPublic t) pk] /\
                 c' = set c key (JStr p)) \/
  (exists child x, startsWith key "_" = false /\ get c key = Some child /\
                   recur child = (l, Ret x) /\ c' = set c key x).
Proof.
  unfold body. destruct (startsWith key "_") eqn:Hk.
  - destruct (truthy_get c (slice1 key)) eqn:Ht; cbn [negb].
    + intros [= <- <-]. left. auto.
    + destruct (get c key) as [x|] eqn:Hx.
      * intros [= <- <-]. right. left. exists x. auto.
      * intros [= <- <-]. left. auto.
  - assert (Hrec : forall child, get c key = Some child ->
              mbind (recur child) (fun r => ret (set c key r)) = (l, Ret c') ->
              exists x, recur child = (l, Ret x) /\ c' = set c key x).
    { intros child _ H. apply mbind_Ret_inv in H.
      destruct H as (l1 & x & l2 & Hr & Hs & ->). unfold ret in Hs. injection Hs as <- <-.
      exists x. rewrite app_nil_r. auto. }
    destruct (get c key) as [[|b|n|s|elems|fields]|] eqn:Hg;
      try (intros [= <- <-]; left; auto; fail).
    + intros H. destruct (Hrec _ eq_refl H) as (x & Hr & ->).
      right. right. right. exists JNull, x. auto.
    + destruct (startsWith s "EJ[") eqn:Hs; [|intros [= <- <-]; left; auto].
      intros H. apply mbind_Ret_inv in H. destruct H as (l1 & t & l2 & Hp & H & ->).
      apply mbind_Ret_inv in H. destruct H as (l3 & p & l4 & Hd & Hr & ->).
      unfold call in Hp, Hd.
      destruct (parseEncryptedValue s) as [t'|] eqn:Ep; [|discriminate].
      injection Hp as <- <-.
      destruct (decrypt _ _ _ _) as [p'|] eqn:Ed; [|discriminate].
      injection Hd as <- <-. unfold ret in Hr. injection Hr as <- <-.
      right. right. left. exists s, t', p'. repeat split; auto.
    + intros H. destruct (Hrec _ eq_refl H) as (x & Hr & ->).
      right. right. right. exists (JArr elems), x. auto.
    + intros H. destruct (Hrec _ eq_refl H) as (x & Hr & ->).
      right. right. right. exists (JObj fields), x. auto.
Qed.

Lemma slice1_underscore (k : string) : slice1 (String "_" k) = k.
Proof. reflexivity. Qed.

(** A step leaves a truthy value alone at every key but the one it is
    at, and at that one too when it begins with [_]. *)
Lemma body_keeps (recur : value -> M value) (pk : string) (c : value) (key k : string)
  (w : value) (l : list event) (c' : value) :
  is_object c -> get c k = Some w -> truthy w = true ->
  (startsWith key "_" = false -> key <> k) ->
  body recur pk c key = (l, Ret c') ->
  is_object c' /\ get c' k = Some w.
Proof.
  intros [fields ->] Hg Ht Hne H.
  apply body_Ret_inv in H.
  destruct H as [[_ ->] | [(x & _ & Hk & Hf & _ & ->)
                         | [(s & t & p & Hk & _ & _ & _ & _ & _ & ->)
                           | (child & x & Hk & _ & _ & ->)]]].
  - split; [eexists; reflexivity | exact Hg].
  - split; [apply set_is_object|].
    rewrite get_set_other; [exact Hg|].
    intros E. rewrite <- E in Hf. unfold truthy_get in Hf. rewrite Hg in Hf. congruence.
  - split; [apply set_is_object|].
    rewrite get_set_other; [exact Hg|]. intros E. symmetry in E. now apply Hne.
  - split; [apply set_is_object|].
    rewrite get_set_other; [exact Hg|]. intros E. symmetry in E. now apply Hne.
Qed.

Lemma for_in_keeps (recur : value -> M value) (pk : string) (keys : list string)
  (c : value) (k : string) (w : value) (l : list event) (c' : value) :
  is_object c -> get c k = Some w -> truthy w = true ->
  (forall key, In key keys -> startsWith key "_" = false -> key <> k) ->
  for_in (body recur pk) keys c = (l, Ret c') ->
  is_object c' /\ get c' k = Some w.
Proof.
  revert c l; induction keys as [|key keys IH]; intros c l Ho Hg Ht Hne; cbn [for_in].
  - intros [= <- <-]. auto.
  - intros H. apply mbind_Ret_inv in H. destruct H as (l1 & c1 & l2 & H1 & H2 & ->).
    destruct (body_keeps recur pk c key k w l1 c1 Ho Hg Ht) as [Ho1 Hg1]; auto.
    { apply Hne. left. reflexivity. }
    apply (IH c1 l2); auto. intros key' Hin. apply Hne. right. exact Hin.
Qed.

(** X6.  A truthy value under a key that begins with [_] is in the
    returned document as it was in the given one: it is not decrypted
    when it is a token, not walked when it is a mapping or a sequence,
    and not replaced by a default. *)
Theorem underscore_value_retained (fields : list (string * value)) (privateKey k : string)
  (v : value) (l : list event) (r : value) :
  startsWith k "_" = true -> lookup fields k = Some v -> truthy v = true ->
  processObjectFields (JObj fields) privateKey = (l, Ret r) ->
  get r k = Some v.
Proof.
  intros Hk Hl Ht H. unfold processObjectFields in H. rewrite walk_S in H.
  eapply for_in_keeps in H; [apply H | eexists; reflexivity | exact Hl | exact Ht |].
  intros key _ Hkey ->. congruence.
Qed.

(** ** The keys of the returned document *)

Lemma body_object (recur : value -> M value) (pk : string) (c : value) (key : string)
  (l : list event) (c' : value) :
  is_object c -> body recur pk c key = (l, Ret c') -> is_object c'.
Proof.
  intros [fields ->] H. apply body_Ret_inv in H.
  destruct H as [[_ ->] | [(x & _ & _ & _ & _ & ->)
                         | [(s & t & p & _ & _ & _ & _ & _ & _ & ->)
                           | (child & x & _ & _ & _ & ->)]]];
    [eexists; reflexivity | apply set_is_object ..].
Qed.

Lemma get_set_present (fields : list (string * value)) (k' k : string) (v : value) :
  get (JObj fields) k <> None -> get (set (JObj fields) k' v) k <> None.
Proof.
  intros H. destruct (String.eqb_spec k k') as [->|Hne].
  - rewrite get_set_same. discriminate.
  - rewrite get_set_other; assumption.
Qed.

Lemma body_keeps_keys (recur : value -> M value) (pk : string) (c : value) (key k : string)
  (l : list event) (c' : value) :
  is_object c -> get c k <> None ->
  body recur pk c key = (l, Ret c') -> get c' k <> None.
Proof.
  intros [fields ->] Hg H. apply body_Ret_inv in H.
  destruct H as [[_ ->] | [(x & _ & _ & _ & _ & ->)
                         | [(s & t & p & _ & _ & _ & _ & _ & _ & ->)
                           | (child & x & _ & _ & _ & ->)]]];
    [exact Hg | apply get_set_present; exact Hg ..].
Qed.

Lemma body_new_key (recur : value -> M value) (pk : string) (c : value) (key k : string)
  (l : list event) (c' : value) :
  is_object c -> get c' k <> None ->
  body recur pk c key = (l, Ret c') ->
  get c k <> None \/
  (startsWith key "_" = true /\ k = slice1 key /\ inherited k = false).
Proof.
  intros [fields ->] Hg H. apply body_Ret_inv in H.
  destruct H as [[_ ->] | [(x & _ & Hk & Hf & _ & ->)
                         | [(s & t & p & _ & Hc & _ & _ & _ & _ & ->)
                           | (child & x & _ & Hc & _ & ->)]]].
  - left. exact Hg.
  - destruct (String.eqb_spec k (slice1 key)) as [->|Hne].
    + unfold truthy_get in Hf.
      destruct (get (JObj fields) (slice1 key)); [left; discriminate | right; auto].
    + left. rewrite get_set_other in Hg; assumption.
  - left. destruct (String.eqb_spec k key) as [->|Hne]; [congruence|].
    rewrite get_set_other in Hg; assumption.
  - left. destruct (String.eqb_spec k key) as [->|Hne]; [congruence|].
    rewrite get_set_other in Hg; assumption.
Qed.

Lemma body_default_key (recur : value -> M value) (pk : string) (c : value) (key : string)
  (l : list event) (c' : value) :
  is_object c -> startsWith key "_" = true -> get c key <> None ->
  inherited (slice1 key) = false ->
  body recur pk c key = (l, Ret c') -> get c' (slice1 key) <> None.
Proof.
  intros [fields ->] Hk Hg Hi. destruct (get (JObj fields) key) as [v|] eqn:Hv; [|congruence].
  rewrite (body_alias recur pk _ key v Hk Hv).
  destruct (truthy_get (JObj fields) (slice1 key)) eqn:Ht; intros [= _ <-].
  - unfold truthy_get in Ht. destruct (get (JObj fields) (slice1 key)); congruence.
  - change (get (set (JObj fields) (slice1 key) v) (slice1 key) <> None).
    rewrite get_set_same. discriminate.
Qed.

Section KeysOfTheLoop.

Variable recur : value -> M value.
Variable pk : string.

Lemma for_in_object (keys : list string) (c : value) (l : list event) (c' : value) :
  is_object c -> for_in (body recur pk) keys c = (l, Ret c') -> is_object c'.
Proof.
  revert c l; induction keys as [|key keys IH]; intros c l Ho; cbn [for_in].
  - intros [= _ <-]. exact Ho.
  - intros H. apply mbind_Ret_inv in H. destruct H as (l1 & c1 & l2 & H1 & H2 & _).
    eapply IH; [|exact H2]. eapply body_object; eassumption.
Qed.

Lemma for_in_keeps_keys (keys : list string) (c : value) (k : string)
  (l : list event) (c' : value) :
  is_object c -> get c k <> None ->
  for_in (body recur pk) keys c = (l, Ret c') -> get c' k <> None.
Proof.
  revert c l; induction keys as [|key keys IH]; intros c l Ho Hg; cbn [for_in].
  - intros [= _ <-]. exact Hg.
  - intros H. apply mbind_Ret_inv in H. destruct H as (l1 & c1 & l2 & H1 & H2 & _).
    eapply IH; [| |exact H2].
    + exact (body_object recur pk c key l1 c1 Ho H1).
    + exact (body_keeps_keys recur pk c key k l1 c1 Ho Hg H1).
Qed.

Lemma for_in_new_key (keys : list string) (c : value) (k : string)
  (l : list event) (c' : value) :
  is_object c -> get c' k <> None ->
  for_in (body recur pk) keys c = (l, Ret c') ->
  get c k <> None \/
  (In (String "_" k) keys /\ inherited k = false).
Proof.
  revert c l; induction keys as [|key keys IH]; intros c l Ho Hg; cbn [for_in].
  - intros [= _ <-]. left. exact Hg.
  - intros H. apply mbind_Ret_inv in H. destruct H as (l1 & c1 & l2 & H1 & H2 & _).
    destruct (IH c1 l2 (body_object _ _ _ _ _ _ Ho H1) Hg H2) as [Hc1|[Hin Hi]].
    + destruct (body_new_key _ _ _ _ _ _ _ Ho Hc1 H1) as [Hc|(Hk & -> & Hi)].
      * left. exact Hc.
      * right. split; [|exact Hi]. left. apply startsWith_underscore. exact Hk.
    + right. split; [right; exact Hin | exact Hi].
Qed.

Lemma for_in_default_key (keys : list string) (c : value) (key : string)
  (l : list event) (c' : value) :
  is_object c -> In key keys -> startsWith key "_" = true -> get c key <> None ->
  inherited (slice1 key) = false ->
  for_in (body recur pk) keys c = (l, Ret c') -> get c' (slice1 key) <> None.
Proof.
  revert c l; induction keys as [|key0 keys IH]; intros c l Ho Hin Hk Hg Hi; cbn [for_in];
    [destruct Hin|].
  intros H. apply mbind_Ret_inv in H. destruct H as (l1 & c1 & l2 & H1 & H2 & _).
  pose proof (body_object _ _ _ _ _ _ Ho H1) as Ho1.
  destruct (in_dec string_dec key keys) as [Hin'|Hout].
  - eapply IH; [exact Ho1 | exact Hin' | exact Hk | | exact Hi | exact H2].
    exact (body_keeps_keys recur pk c key0 key l1 c1 Ho Hg H1).
  - destruct Hin as [->|Hin]; [|exfalso; apply Hout; exact Hin].
    eapply for_in_keeps_keys; [exact Ho1 | | exact H2].
    exact (body_default_key recur pk c key l1 c1 Ho Hk Hg Hi H1).
Qed.

End KeysOfTheLoop.

(** X7.  The keys of the document returned for a mapping are the keys of
    the given mapping and, for each of its keys [_name], the key [name]
    unless it names a property every object inherits: nothing is removed,
    and nothing else is added. *)
Theorem keys_of_result (fields : list (string * value)) (privateKey : string)
  (l : list event) (r : value) :
  processObjectFields (JObj fields) privateKey = (l, Ret r) ->
  is_object r /\
  forall k, get r k <> None <->
            (lookup fields k <> None \/
             (lookup fields (String "_" k) <> None /\ inherited k = false)).
Proof.
  intros H. unfold processObjectFields in H. rewrite walk_S in H.
  assert (Ho : is_object (JObj fields)) by (eexists; reflexivity).
  split; [eapply for_in_object; eassumption|].
  intros k. split.
  - intros Hg. destruct (for_in_new_key _ _ _ _ _ _ _ Ho Hg H) as [Hc|[Hin Hi]].
    + left. exact Hc.
    + right. split; [|exact Hi]. apply lookup_in_keys. exact Hin.
  - intros [Hk|[Hk Hi]].
    + eapply for_in_keeps_keys; [exact Ho | exact Hk | exact H].
    + change k with (slice1 (String "_" k)).
      eapply for_in_default_key; [exact Ho | | destruct k; reflexivity | exact Hk | exact Hi | exact H].
      apply lookup_in_keys. exact Hk.
Qed.

(** ** Tokens of a mapping are replaced by their plaintexts *)

Lemma token_truthy (s : string) : startsWith s "EJ[" = true -> truthy (JStr s) = true.
Proof. destruct s; [discriminate | reflexivity]. Qed.

Lemma nonempty_truthy (p : string) : p <> ""%string -> truthy (JStr p) = true.
Proof. intros H. cbn. apply String.eqb_neq in H. rewrite H. reflexivity. Qed.

Lemma body_token (recur : value -> M value) (pk : string) (c : value) (key s : string)
  (l : list event) (c' : value) :
  startsWith key "_" = false -> get c key = Some (JStr s) -> startsWith s "EJ[" = true ->
  body recur pk c key = (l, Ret c') ->
  exists t p, parseEncryptedValue s = Ok t /\
              decrypt (box t) (nonce t) (encrypterPublic t) pk = Ok p /\
              l = [Parse s; Decrypt (box t) (nonce t) (encrypterPublic t) pk] /\
              c' = set c key (JStr p).
Proof.
  intros Hk Hg Hs. unfold body. rewrite Hk, Hg, Hs. unfold call.
  destruct (parseEncryptedValue s) as [t|]; [|discriminate]. cbn [mbind].
  destruct (decrypt _ _ _ _) as [p|] eqn:Hd; [|discriminate].
  unfold ret. intros [= <- <-]. exists t, p. auto.
Qed.

(** X8.  In the document returned for a mapping with distinct keys, a
    token under a key that does not begin with [_] is replaced by its
    plaintext: the parser accepted the literal, the codec opened it with
    the walker's key, and the result holds the plaintext at that key,
    provided the plaintext is not empty (an empty one is falsy, so that
    the default from [_key] may replace it). *)
Theorem token_replaced (fields : list (string * value)) (privateKey k s : string)
  (l : list event) (r : value) :
  NoDup (map fst fields) ->
  startsWith k "_" = false -> lookup fields k = Some (JStr s) ->
  startsWith s "EJ[" = true ->
  processObjectFields (JObj fields) privateKey = (l, Ret r) ->
  exists t p, parseEncryptedValue s = Ok t /\
              decrypt (box t) (nonce t) (encrypterPublic t) privateKey = Ok p /\
              In (Decrypt (box t) (nonce t) (encrypterPublic t) privateKey) l /\
              (p <> ""%string -> get r k = Some (JStr p)).
Proof.
  intros Hnd Hk Hl Hs H. unfold processObjectFields in H. rewrite walk_S in H.
  assert (Hin : In k (map fst fields)) by (apply lookup_in_keys; congruence).
  destruct (in_split _ _ Hin) as (pre & post & E).
  change (for_in_keys (JObj fields)) with (map fst fields) in H.
  rewrite E in H, Hnd. apply NoDup_remove_2 in Hnd.
  rewrite for_in_app in H. apply mbind_Ret_inv in H.
  destruct H as (l1 & c1 & l2 & H1 & H2 & ->).
  cbn [for_in] in H2. apply mbind_Ret_inv in H2.
  destruct H2 as (l3 & c2 & l4 & H3 & H4 & ->).
  destruct (for_in_keeps _ _ _ _ k (JStr s) _ _ (ex_intro _ fields eq_refl) Hl
              (token_truthy s Hs)
              (fun key Hi _ (Hkey : key = k) =>
                 Hnd (in_or_app _ _ _ (or_introl (eq_ind_r (fun x => In x pre) Hi (eq_sym Hkey)))))
              H1) as [Ho1 Hg1].
  destruct (body_token _ _ _ _ _ _ _ Hk Hg1 Hs H3) as (t & p & Hp & Hd & -> & ->).
  exists t, p. split; [exact Hp|]. split; [exact Hd|]. split.
  - apply in_or_app. right. apply in_or_app. left. right. left. reflexivity.
  - intros Hne. destruct Ho1 as [f1 ->].
    eapply for_in_keeps in H4;
      [apply H4 | apply set_is_object | apply get_set_same | apply nonempty_truthy; exact Hne |].
    intros key Hi _ ->. apply Hnd. apply in_or_app. right. exact Hi.
Qed.

(** ** The calls of the parser and of the codec *)

Lemma paired_weaken (w : bool) (pk : string) (l : list event) :
  paired true pk l = true -> paired w pk l = true.
Proof.
  assert (K : forall n l, (length l <= n)%nat ->
              paired true pk l = true -> paired w pk l = true).
  { clear l. induction n as [|n IH]; intros l Hn.
    - destruct l; [reflexivity | simpl in Hn; lia].
    - destruct l as [|[pub|s|bx non pub key] r]; cbn [paired]; try discriminate; [reflexivity|].
      destruct (startsWith s "EJ["); [|discriminate]. cbn [andb].
      destruct (parseEncryptedValue s) as [t|e]; [|discriminate].
      destruct r as [|[pub'|s'|bx non pub key] r']; try discriminate.
      intros H. apply andb_true_iff in H. destruct H as [H1 H2]. rewrite H1. cbn [andb].
      apply IH; [simpl in Hn; lia | exact H2]. }
  apply (K (length l)). lia.
Qed.

Lemma paired_app (w : bool) (pk : string) (l1 l2 : list event) :
  paired true pk l1 = true -> paired w pk l2 = true -> paired w pk (l1 ++ l2) = true.
Proof.
  intros H1 H2.
  assert (K : forall n l, (length l <= n)%nat ->
              paired true pk l = true -> paired w pk (l ++ l2) = true).
  { induction n as [|n IH]; intros l Hn.
    - destruct l; [intros _; exact H2 | simpl in Hn; lia].
    - destruct l as [|[pub|s|bx non pub key] r]; cbn [paired app]; try discriminate;
        [intros _; exact H2|].
      destruct (startsWith s "EJ["); [|discriminate]. cbn [andb].
      destruct (parseEncryptedValue s) as [t|e]; [|discriminate].
      destruct r as [|[pub'|s'|bx non pub key] r']; try discriminate. cbn [app].
      intros H. apply andb_true_iff in H. destruct H as [Ha Hb]. rewrite Ha. cbn [andb].
      apply IH; [simpl in Hn; lia | exact Hb]. }
  apply (K (length l1)); [lia | exact H1].
Qed.

Lemma mbind_logged {A B : Type} (pk : string) (m : M A) (k : A -> M B) :
  logged pk m -> (forall a, logged pk (k a)) -> logged pk (mbind m k).
Proof.
  unfold logged. destruct m as [l [a|e|]]; cbn [mbind fst snd returned]; intros Hm Hk; auto.
  specialize (Hk a). destruct (k a) as [l' o]. cbn [fst snd] in *.
  apply paired_app; assumption.
Qed.

Lemma ret_logged {A : Type} (pk : string) (a : A) : logged pk (ret a).
Proof. reflexivity. Qed.

Lemma body_logged (recur : value -> M value) (pk : string) (c : value) (key : string) :
  (forall v, logged pk (recur v)) -> logged pk (body recur pk c key).
Proof.
  intros Hr. unfold body.
  destruct (startsWith key "_").
  - destruct (negb _); [destruct (get c key)|]; apply ret_logged.
  - destruct (get c key) as [[|b|n|s|elems|fields]|]; try apply ret_logged;
      try (apply mbind_logged; [apply Hr | intros; apply ret_logged]).
    destruct (startsWith s "EJ[") eqn:Hs; [|apply ret_logged].
    unfold logged, call.
    destruct (parseEncryptedValue s) as [t|e] eqn:Hp; cbn [mbind fst snd].
    + destruct (decrypt _ _ _ _) as [p|e]; cbn [mbind ret fst snd returned app paired];
        rewrite Hs, Hp, !String.eqb_refl; reflexivity.
    + cbn [returned paired]. rewrite Hs, Hp. reflexivity.
Qed.

Lemma for_in_logged (f : value -> string -> M value) (pk : string) (keys : list string)
  (c : value) :
  (forall c key, logged pk (f c key)) -> logged pk (for_in f keys c).
Proof.
  intros Hf. revert c; induction keys as [|key keys IH]; intros c; cbn [for_in].
  - apply ret_logged.
  - apply mbind_logged; [apply Hf | exact IH].
Qed.

Lemma walk_logged (fuel : nat) (v : value) (pk : string) : logged pk (walk fuel v pk).
Proof.
  revert v; induction fuel as [|fuel IH]; intros v; [reflexivity|].
  rewrite walk_S. apply for_in_logged. intros c key. apply body_logged. exact IH.
Qed.

(** X9.  In every run of the walker the parser is called only on strings
    that begin with [EJ[], and the codec only right after the parser
    accepted a literal, with the three fields of that literal and the
    private key the walker was given; a run that returns has opened
    every literal it parsed. *)
Theorem codec_calls_follow_parser (rawConf : value) (privateKey : string) :
  paired (returned (snd (processObjectFields rawConf privateKey))) privateKey
         (fst (processObjectFields rawConf privateKey)) = true.
Proof. apply walk_logged. Qed.

(** ** The private key as a text *)

Lemma list_ascii_of_string_app (a b : string) :
  list_ascii_of_string (a ++ b) = list_ascii_of_string a ++ list_ascii_of_string b.
Proof. induction a as [|c a IH]; simpl; [reflexivity | rewrite IH; reflexivity]. Qed.

Lemma length_list_ascii_of_string (s : string) :
  length (list_ascii_of_string s) = String.length s.
Proof. induction s as [|c s IH]; simpl; [reflexivity | rewrite IH; reflexivity]. Qed.

Lemma hex_pairs_app (a b : list ascii) :
  forallb is_hex a = true -> Nat.even (length a) = true ->
  hex_pairs (a ++ b) = hex_pairs a ++ hex_pairs b.
Proof.
  assert (K : forall n a, (length a <= n)%nat ->
              forallb is_hex a = true -> Nat.even (length a) = true ->
              hex_pairs (a ++ b) = hex_pairs a ++ hex_pairs b).
  { induction n as [|n IH]; intros l Hn Hh He.
    - destruct l; [reflexivity | simpl in Hn; lia].
    - destruct l as [|x [|y r]]; [reflexivity | discriminate |].
      cbn [forallb] in Hh. apply andb_true_iff in Hh. destruct Hh as [Hx Hh].
      apply andb_true_iff in Hh. destruct Hh as [Hy Hr].
      unfold is_hex in Hx, Hy. cbn [app hex_pairs].
      destruct (unhex x); [|discriminate]. destruct (unhex y); [|discriminate].
      cbn [app]. f_equal. apply IH; [simpl in Hn; lia | exact Hr | exact He]. }
  apply (K (length a)). lia.
Qed.

Lemma hex_ascii (c : ascii) : is_hex c = true -> is_ascii c = true.
Proof.
  destruct c as [[|] [|] [|] [|] [|] [|] [|] [|]]; intros H;
    first [discriminate H | reflexivity].
Qed.

Lemma Buffer_from_hex_app (key rest : string) :
  all_chars is_hex key = true -> Nat.even (String.length key) = true ->
  Buffer_from_hex rest = [] ->
  Buffer_from_hex (key ++ rest) = Buffer_from_hex key.
Proof.
  unfold Buffer_from_hex. intros Hh He Hr.
  assert (Ha : all_chars is_ascii key = true).
  { unfold all_chars in *. rewrite forallb_forall in *. intros c Hc.
    apply hex_ascii. apply Hh. exact Hc. }
  rewrite code_unit_bytes_app, hex_pairs_app, Hr, app_nil_r, code_unit_bytes_ascii;
    [reflexivity | exact Ha | exact Hh | rewrite length_list_ascii_of_string; exact He
    | exact Ha].
Qed.

(** X10.  Of the private key only the hexadecimal digits count: a key of
    an even number of digits followed by a text that does not begin with
    two digits, such as the line end of a key file, decrypts and encrypts
    as the key alone. *)
Theorem private_key_trailing_text (message nonce theirPublicKey key rest : string) :
  all_chars is_hex key = true -> Nat.even (String.length key) = true ->
  Buffer_from_hex rest = [] ->
  decrypt message nonce theirPublicKey (key ++ rest) = decrypt message nonce theirPublicKey key /\
  encrypt message nonce theirPublicKey (key ++ rest) = encrypt message nonce theirPublicKey key.
Proof.
  intros Hh He Hr. unfold decrypt, encrypt.
  rewrite (Buffer_from_hex_app key rest Hh He Hr). split; reflexivity.
Qed.

(** ** The walk of every document ends *)

(** X11.  The walk of a document ends, by returning or by throwing,
    within the depth of the document, and a returned document is not
    deeper than the given one. *)
Theorem walker_ends (rawConf : value) (privateKey : string) :
  snd (processObjectFields rawConf privateKey) <> OutOfFuel /\
  forall r, snd (processObjectFields rawConf privateKey) = Ret r ->
            (depth r <= depth rawConf)%nat.
Proof.
  unfold processObjectFields.
  apply (walk_ends (depth rawConf) privateKey rawConf). apply Nat.le_refl.
Qed.

(** ** From [encrypt] to the walker *)

Lemma class_not_terminator (c : ascii) :
  is_b64_class c = true ->
  (code c =? 10)%N = false /\ (code c =? 13)%N = false /\ (code c =? 226)%N = false.
Proof.
  destruct c as [[|] [|] [|] [|] [|] [|] [|] [|]]; intros H;
    first [discriminate H | repeat split; reflexivity].
Qed.

Lemma class_no_line_terminator (s : string) :
  all_chars is_b64_class s = true -> has_line_terminator s = false.
Proof.
  unfold all_chars. induction s as [|c s IH]; cbn [list_ascii_of_string forallb];
    [reflexivity|].
  intros H. apply andb_true_iff in H. destruct H as [Hc Hs].
  destruct (class_not_terminator c Hc) as (H10 & H13 & H226).
  cbn [has_line_terminator]. rewrite H10, H13, H226, (IH Hs).
  destruct s as [|c1 [|c2 s]]; reflexivity.
Qed.

Lemma toString_base64_class (b : bytes) :
  Forall is_byte b -> all_chars is_b64_class (toString_base64 b) = true.
Proof.
  intros Hb. unfold all_chars, toString_base64.
  rewrite list_ascii_of_string_of_list_ascii. apply b64_encode_class. exact Hb.
Qed.

Lemma toString_base64_nonempty (b : bytes) : b <> [] -> toString_base64 b <> ""%string.
Proof.
  destruct b as [|x [|y [|z r]]]; [congruence | discriminate ..].
Qed.

Lemma token_text_prefix (d : ascii) (pub non bx : string) :
  startsWith (token_text d pub non bx) "EJ[" = true.
Proof. reflexivity. Qed.

Lemma walk_single_token (key tok pk : string) (t : token) (p : string) :
  startsWith key "_" = false -> startsWith tok "EJ[" = true ->
  parseEncryptedValue tok = Ok t ->
  decrypt (box t) (nonce t) (encrypterPublic t) pk = Ok p ->
  processObjectFields (JObj [(key, JStr tok)]) pk =
  ([Parse tok; Decrypt (box t) (nonce t) (encrypterPublic t) pk], Ret (JObj [(key, JStr p)])).
Proof.
  intros Hk Ht Hp Hd. unfold processObjectFields. rewrite walk_S.
  change (for_in_keys (JObj [(key, JStr tok)])) with [key]. cbn [for_in].
  unfold body. rewrite Hk. unfold get. cbn [own_props lookup].
  rewrite String.eqb_refl, Ht. unfold call. rewrite Hp. cbn [mbind]. rewrite Hd.
  cbn [mbind ret set lookup replace app]. rewrite String.eqb_refl. reflexivity.
Qed.

(** X12.  What [encrypt] seals, the walker opens: for a well-formed
    plaintext, a nonce and a sender's public key in the widths of the
    token grammar, and two key pairs whose secrets satisfy the
    key-agreement symmetry of the primitive, the token made of a digit,
    the sender's public key, the nonce and the text [encrypt] returns is
    accepted by the parser, and the walk of a mapping holding it under a
    key without [_], with the recipient's secret key, returns the mapping
    with the plaintext at that key, after one call of the parser and one
    of the codec. *)
Theorem sealed_value_is_decrypted
  (P N senderPublic senderSecret recipientPublic recipientSecret key : string) (d : ascii) :
  well_formed P = true ->
  is_digit d = true ->
  String.length N = 32%nat -> all_chars is_b64_class N = true ->
  length (Buffer_from_base64 N) = 24%nat ->
  String.length senderPublic = 44%nat -> all_chars is_b64_class senderPublic = true ->
  keypair senderPublic senderSecret ->
  keypair recipientPublic recipientSecret ->
  agreement (Buffer_from_hex senderSecret) (Buffer_from_hex recipientSecret) ->
  startsWith key "_" = false ->
  exists sealed,
    encrypt P N recipientPublic senderSecret = Ok sealed /\
    processObjectFields (JObj [(key, JStr (token_text d senderPublic N sealed))]) recipientSecret =
    ([Parse (token_text d senderPublic N sealed); Decrypt sealed N senderPublic recipientSecret],
     Ret (JObj [(key, JStr P)])).
Proof.
  intros Hwf Hd LN CN Ln LP CP [LsS HS] [LsR HR] Hagree Hkey.
  assert (LpS : length (Buffer_from_base64 senderPublic) = 32%nat).
  { rewrite HS. apply scalarmult_length. }
  assert (LpR : length (Buffer_from_base64 recipientPublic) = 32%nat).
  { rewrite HR. apply scalarmult_length. }
  assert (Hk : nacl.beforenm (Buffer_from_base64 recipientPublic) (Buffer_from_hex senderSecret)
               = nacl.beforenm (Buffer_from_base64 senderPublic) (Buffer_from_hex recipientSecret)).
  { unfold nacl.beforenm. rewrite HS, HR. unfold agreement in Hagree.
    rewrite Hagree. reflexivity. }
  destruct (box_open_box (Buffer_from_utf8 P) _ _ _ _ _ Ln LpS LsS LpR LsR Hk)
    as (sealed & Hbox & Hsealed & Hopen).
  assert (Hrange : Forall is_byte sealed).
  { rewrite Hsealed. apply secretbox_raw_range. apply bytes_of_string_range. }
  assert (Hne : sealed <> []).
  { rewrite Hsealed. unfold nacl.secretbox_raw. cbv zeta. intros E.
    apply (f_equal (@length Z)) in E. rewrite length_app, onetimeauth_length in E.
    simpl in E. lia. }
  exists (toString_base64 sealed). split.
  - unfold encrypt. rewrite Hbox. reflexivity.
  - assert (Hparse : parseEncryptedValue (token_text d senderPublic N (toString_base64 sealed))
                     = Ok {| schemaVersion := parseInt_digit d;
                             encrypterPublic := senderPublic;
                             nonce := N;
                             box := toString_base64 sealed |}).
    { unfold parseEncryptedValue.
      rewrite (proj2 (ejsonRegex_spec _ d senderPublic N (toString_base64 sealed)));
        [reflexivity|].
      split; [reflexivity|]. split.
      - repeat split; try assumption. apply toString_base64_nonempty. exact Hne.
      - apply class_no_line_terminator. apply toString_base64_class. exact Hrange. }
    apply (walk_single_token key _ recipientSecret _ P Hkey (token_text_prefix _ _ _ _) Hparse).
    cbn [box nonce encrypterPublic]. unfold decrypt.
    rewrite (base64_roundtrip sealed Hrange), Hopen. cbn [bind Buffer_from].
    rewrite utf8_roundtrip by assumption. reflexivity.
Qed.

(** ** The sizes of the fields of a token *)

Lemma class_value (c : ascii) :
  is_b64_class c = true -> Ascii.eqb c "=" = false -> b64_value c <> None.
Proof.
  destruct c as [[|] [|] [|] [|] [|] [|] [|] [|]]; intros H E;
    first [discriminate H | discriminate E | discriminate].
Qed.

Lemma b64_sextets_length (s : string) :
  all_chars is_b64_class s = true ->
  length (b64_sextets (list_ascii_of_string s)) = unpadded s.
Proof.
  unfold all_chars. induction s as [|c s IH];
    cbn [list_ascii_of_string forallb b64_sextets unpadded]; [reflexivity|].
  intros H. apply andb_true_iff in H. destruct H as [Hc Hs].
  destruct (Ascii.eqb c "=") eqn:E; [reflexivity|].
  destruct (b64_value c) eqn:V; [|exfalso; exact (class_value c Hc E V)].
  cbn [length]. rewrite (IH Hs). reflexivity.
Qed.

Lemma b64_groups_length (l : list Z) : length (b64_groups l) = decoded_length (length l).
Proof.
  assert (K : forall n l, (length l <= n)%nat ->
              length (b64_groups l) = decoded_length (length l)).
  { clear l. induction n as [|n IH]; intros l Hn.
    - destruct l; [reflexivity | simpl in Hn; lia].
    - destruct l as [|a [|b [|c [|d r]]]]; try reflexivity.
      cbn [b64_groups length decoded_length]. rewrite IH; [reflexivity | simpl in Hn; lia]. }
  apply (K (length l)). lia.
Qed.

Lemma unpadded_le (s : string) : (unpadded s <= String.length s)%nat.
Proof.
  induction s as [|c s IH]; cbn [unpadded String.length]; [lia|].
  destruct (Ascii.eqb c "="); lia.
Qed.

Lemma decoded_length_24 (n : nat) : (n <= 32)%nat -> decoded_length n = 24%nat <-> n = 32%nat.
Proof.
  intros Hn. split; [|intros ->; reflexivity].
  do 33 (destruct n as [|n]; [try discriminate; reflexivity|]). lia.
Qed.

Lemma decoded_length_32 (n : nat) : (n <= 44)%nat -> decoded_length n = 32%nat <-> n = 43%nat.
Proof.
  intros Hn. split; [|intros ->; reflexivity].
  do 45 (destruct n as [|n]; [try discriminate; reflexivity|]). lia.
Qed.

(** X13.  The widths of the token grammar are those of a 24-byte nonce
    and a 32-byte key in base64, but the grammar also takes [=] anywhere
    in the two fields: the nonce of a token the parser accepts decodes to
    24 bytes exactly when none of its 32 characters is [=], and the public
    key to 32 bytes exactly when its first [=] is its last character. *)
Theorem token_field_sizes (value : string) (t : token) :
  parseEncryptedValue value = Ok t ->
  (length (Buffer_from_base64 (nonce t)) = 24%nat <-> unpadded (nonce t) = 32%nat) /\
  (length (Buffer_from_base64 (encrypterPublic t)) = 32%nat <->
   unpadded (encrypterPublic t) = 43%nat).
Proof.
  unfold parseEncryptedValue.
  destruct (ejsonRegex value) as [[[[d pub] non] bx]|] eqn:E; [|discriminate].
  intros [= <-]. cbn [nonce encrypterPublic].
  apply ejsonRegex_spec in E. destruct E as (_ & (_ & Lp & Cp & Ln & Cn & _) & _).
  unfold Buffer_from_base64.
  rewrite !code_unit_bytes_ascii
    by (unfold all_chars in *; apply forallb_class_ascii; assumption).
  rewrite !b64_groups_length, !b64_sextets_length by assumption.
  split.
  - apply decoded_length_24. rewrite <- Ln. apply unpadded_le.
  - apply decoded_length_32. rewrite <- Lp. apply unpadded_le.
Qed.

(** ** Nested mappings and sequences *)

Lemma body_ext (r1 r2 : value -> M value) (pk : string) (c : value) (key : string) :
  (forall v, get c key = Some v -> r1 v = r2 v) ->
  body r1 pk c key = body r2 pk c key.
Proof.
  intros H. unfold body. destruct (startsWith key "_"); [reflexivity|].
  destruct (get c key) as [[|b|n|s|elems|fields]|]; try reflexivity;
    rewrite (H _ eq_refl); reflexivity.
Qed.

Lemma for_in_ext (n D : nat) (r1 r2 : value -> M value) (pk : string)
  (keys : list string) (c : value) :
  ends_upto n r1 -> (D <= S n)%nat ->
  (forall u, (depth u < D)%nat -> r1 u = r2 u) ->
  (depth c <= D)%nat ->
  for_in (body r1 pk) keys c = for_in (body r2 pk) keys c.
Proof.
  intros He HD Hr. revert c; induction keys as [|key keys IH]; intros c Hc; cbn [for_in];
    [reflexivity|].
  rewrite <- (body_ext r1 r2 pk c key).
  - destruct (body_ends n r1 pk c key He) as [_ Hd]; [lia|].
    destruct (body r1 pk c key) as [l [c1|e|]]; cbn [mbind]; try reflexivity.
    rewrite IH; [reflexivity|]. specialize (Hd c1 eq_refl). cbn [snd] in Hd. lia.
  - intros v Hv. apply Hr. apply depth_get in Hv. lia.
Qed.

Lemma scalar_keys (v : value) : depth v = 0%nat -> for_in_keys v = [].
Proof. destruct v; cbn [depth]; intros H; try reflexivity; discriminate. Qed.

(** The walk does not depend on the fuel, past the depth of the
    document. *)
Lemma walk_fuel (pk : string) (fuel n : nat) (v : value) :
  (depth v < fuel)%nat -> (depth v < n)%nat -> walk fuel v pk = walk n v pk.
Proof.
  revert n v; induction fuel as [|f IH]; intros n v Hf Hn; [lia|].
  destruct n as [|m]; [lia|]. rewrite !walk_S.
  destruct f as [|f'].
  - rewrite scalar_keys by lia. reflexivity.
  - apply (for_in_ext f' (depth v)); [apply walk_ends | lia | | lia].
    intros u Hu. apply IH; lia.
Qed.

Lemma set_truthy (c : value) (k : string) (v : value) : truthy (set c k v) = truthy c.
Proof.
  destruct c as [|b|n|s|elems|fields]; cbn [set]; try reflexivity.
  - destruct (lookup (indexed elems) k); reflexivity.
  - destruct (lookup fields k); reflexivity.
Qed.

Lemma for_in_truthy (recur : value -> M value) (pk : string) (keys : list string)
  (c : value) (l : list event) (c' : value) :
  for_in (body recur pk) keys c = (l, Ret c') -> truthy c' = truthy c.
Proof.
  revert c l; induction keys as [|key keys IH]; intros c l; cbn [for_in].
  - intros [= _ <-]. reflexivity.
  - intros H. apply mbind_Ret_inv in H. destruct H as (l1 & c1 & l2 & H1 & H2 & _).
    rewrite (IH _ _ H2). apply body_Ret_inv in H1.
    destruct H1 as [[_ ->] | [(x & _ & _ & _ & _ & ->)
                            | [(s & t & p & _ & _ & _ & _ & _ & _ & ->)
                              | (child & x & _ & _ & _ & ->)]]];
      [reflexivity | apply set_truthy ..].
Qed.

Lemma container_truthy (v : value) : Store.container v -> truthy v = true.
Proof. destruct v; cbn; intros H; try contradiction; reflexivity. Qed.

Lemma body_container (recur : value -> M value) (pk : string) (c : value) (key : string)
  (child : value) (l : list event) (c' : value) :
  startsWith key "_" = false -> get c key = Some child -> Store.container child ->
  body recur pk c key = (l, Ret c') ->
  exists x, recur child = (l, Ret x) /\ c' = set c key x.
Proof.
  intros Hk Hg Hc. unfold body. rewrite Hk, Hg.
  destruct child as [|b|n|s|elems|fields]; try contradiction;
    intros H; apply mbind_Ret_inv in H; destruct H as (l1 & x & l2 & Hr & Hs & ->);
    unfold ret in Hs; injection Hs as <- <-; exists x; rewrite app_nil_r; auto.
Qed.

(** X14.  In the document returned for a mapping with distinct keys, the
    value at a key without [_] that held a mapping or a sequence is what
    the walker returns for that mapping or sequence on its own: nested
    values are walked by the same rules, at any depth. *)
Theorem nested_value_walked (fields : list (string * value)) (privateKey k : string)
  (child : value) (l : list event) (r : value) :
  NoDup (map fst fields) ->
  startsWith k "_" = false -> lookup fields k = Some child -> Store.container child ->
  processObjectFields (JObj fields) privateKey = (l, Ret r) ->
  exists l' r', processObjectFields child privateKey = (l', Ret r') /\
                get r k = Some r'.
Proof.
  intros Hnd Hk Hl Hc H. unfold processObjectFields in H. rewrite walk_S in H.
  assert (Hin : In k (map fst fields)) by (apply lookup_in_keys; congruence).
  destruct (in_split _ _ Hin) as (pre & post & E).
  change (for_in_keys (JObj fields)) with (map fst fields) in H.
  rewrite E in H, Hnd. apply NoDup_remove_2 in Hnd.
  rewrite for_in_app in H. apply mbind_Ret_inv in H.
  destruct H as (l1 & c1 & l2 & H1 & H2 & ->).
  cbn [for_in] in H2. apply mbind_Ret_inv in H2.
  destruct H2 as (l3 & c2 & l4 & H3 & H4 & ->).
  destruct (for_in_keeps _ _ _ _ k child _ _ (ex_intro _ fields eq_refl) Hl
              (container_truthy child Hc)
              (fun key Hi _ (Hkey : key = k) =>
                 Hnd (in_or_app _ _ _ (or_introl (eq_ind_r (fun x => In x pre) Hi (eq_sym Hkey)))))
              H1) as [Ho1 Hg1].
  destruct (body_container _ _ _ _ _ _ _ Hk Hg1 Hc H3) as (x & Hr & ->).
  exists l3, x. split.
  - unfold processObjectFields. rewrite <- Hr. apply walk_fuel; [lia|].
    apply (depth_get (JObj fields) k child). exact Hl.
  - destruct Ho1 as [f1 ->].
    eapply for_in_keeps in H4; [apply H4 | apply set_is_object | apply get_set_same | |].
    + destruct (depth (JObj fields)) as [|f]; [discriminate Hr|].
      rewrite walk_S in Hr. rewrite (for_in_truthy _ _ _ _ _ _ Hr).
      apply container_truthy. exact Hc.
    + intros key Hi _ ->. apply Hnd. apply in_or_app. right. exact Hi.
Qed.

(** ** The schema digit *)

Lemma walk_single_outcome (key tok pk : string) (t : token) :
  startsWith key "_" = false -> startsWith tok "EJ[" = true ->
  parseEncryptedValue tok = Ok t ->
  snd (processObjectFields (JObj [(key, JStr tok)]) pk) =
  match decrypt (box t) (nonce t) (encrypterPublic t) pk with
  | Ok p => Ret (JObj [(key, JStr p)])
  | Throw e => Raise e
  end.
Proof.
  intros Hk Ht Hp. unfold processObjectFields. rewrite walk_S.
  change (for_in_keys (JObj [(key, JStr tok)])) with [key]. cbn [for_in].
  unfold body. rewrite Hk. unfold get. cbn [own_props lookup].
  rewrite String.eqb_refl, Ht. unfold call. rewrite Hp. cbn [mbind].
  destruct (decrypt _ _ _ _) as [p|e]; [|reflexivity].
  cbn [mbind ret set lookup replace app snd]. rewrite String.eqb_refl. reflexivity.
Qed.

(** X15.  The schema digit of a token is parsed and not looked at: the
    walk of a mapping that holds a well-formed token under a key without
    [_] ends in the same way, with the same plaintext or the same error,
    when the digit of the token is replaced by any other digit. *)
Theorem schema_digit_ignored (d d' : ascii) (pub non bx key pk : string) :
  fields_ok d pub non bx -> has_line_terminator bx = false ->
  is_digit d' = true ->
  startsWith key "_" = false ->
  snd (processObjectFields (JObj [(key, JStr (token_text d' pub non bx))]) pk) =
  snd (processObjectFields (JObj [(key, JStr (token_text d pub non bx))]) pk).
Proof.
  intros Hf Hl Hd' Hk.
  assert (Hf' : fields_ok d' pub non bx).
  { destruct Hf as (_ & Hf). split; assumption. }
  assert (Hp : forall c, fields_ok c pub non bx ->
            parseEncryptedValue (token_text c pub non bx)
            = Ok {| schemaVersion := parseInt_digit c; encrypterPublic := pub;
                    nonce := non; box := bx |}).
  { intros c Hc. unfold parseEncryptedValue.
    rewrite (proj2 (ejsonRegex_spec _ c pub non bx)); [reflexivity|]. auto. }
  rewrite (walk_single_outcome key _ pk _ Hk (token_text_prefix _ _ _ _) (Hp d Hf)).
  rewrite (walk_single_outcome key _ pk _ Hk (token_text_prefix _ _ _ _) (Hp d' Hf')).
  reflexivity.
Qed.

Lemma schema_digit_ignored_witness :
  snd (processObjectFields
         (JObj [("secret"%string,
                 JStr (token_text "2" test_encrypter_public test_nonce test_box))])
         test_private_key) =
  snd (processObjectFields
         (JObj [("secret"%string,
                 JStr (token_text "1" test_encrypter_public test_nonce test_box))])
         test_private_key).
Proof.
  apply (schema_digit_ignored "1" "2" test_encrypter_public test_nonce test_box "secret"
           test_private_key);
    [repeat split; try reflexivity; discriminate | reflexivity | reflexivity | reflexivity].
Defined.

(** ** The properties at the data of the tests *)

(** The walk of the document of the tests, computed once. *)
Lemma processObjectFields_test :
  processObjectFields testEjson test_private_key = (test_walk_log, Ret testEjson_decrypted).
Proof. vm_compute. reflexivity. Qed.

Lemma processObjectFields_falsy_sibling (pk : string) :
  processObjectFields doc_falsy_sibling pk =
  ([], Ret (JObj [("_x", JStr "v"); ("x", JStr "v")])%string).
Proof. reflexivity. Qed.

Lemma processEjson_given_document_witness :
  Config.processEjson no_environment no_environment test_files test_JSON_parse
    document_and_resolver_given
  = Config.lift (processEjson test_getPrivateKey testEjson).
Proof.
  apply (processEjson_given_document no_environment no_environment test_files test_JSON_parse
           document_and_resolver_given testEjson test_getPrivateKey);
    reflexivity.
Defined.

Lemma document_file_witness :
  Config.getConfigJson test_files test_JSON_parse
    (Config.mergeConfigs no_environment no_environment test_files no_options)
  = ([Config.ReadFile "./env.ejson"], Ret testEjson).
Proof.
  apply (document_file no_environment no_environment test_files test_JSON_parse no_options).
  intros v H. discriminate H.
Defined.

Lemma private_key_from_environment_witness :
  Config.processEjson no_environment key_environment test_files test_JSON_parse document_given
  = (Config.Core (Resolve (Some (JStr test_public_key)))
       :: map Config.Core (fst (processObjectFields testEjson test_private_key)),
     snd (processObjectFields testEjson test_private_key)).
Proof.
  apply (private_key_from_environment no_environment key_environment test_files
           test_JSON_parse document_given [] testEjson test_private_key);
    [reflexivity | reflexivity | discriminate | reflexivity | discriminate].
Defined.

Lemma private_key_from_file_witness :
  Config.processEjson no_environment no_environment test_files test_JSON_parse no_options
  = (Config.ReadFile "./env.ejson"
       :: Config.Core (Resolve (Some (JStr test_public_key)))
       :: Config.ReadFile test_key_file
       :: map Config.Core
            (fst (processObjectFields testEjson (test_private_key ++ line_end))),
     snd (processObjectFields testEjson (test_private_key ++ line_end))).
Proof.
  apply (private_key_from_file no_environment no_environment test_files test_JSON_parse
           no_options [Config.ReadFile "./env.ejson"] testEjson);
    [reflexivity | discriminate | reflexivity | discriminate | reflexivity].
Defined.

(** The whole run on the files of the tests: the document is read, then
    the key file, whose line end does not harm, and the secret is
    decrypted. *)
Example processEjson_from_files_test :
  Config.processEjson no_environment no_environment test_files test_JSON_parse no_options
  = ([Config.ReadFile "./env.ejson";
      Config.Core (Resolve (Some (JStr test_public_key)));
      Config.ReadFile test_key_file;
      Config.Core (Parse test_secret);
      Config.Core (Decrypt test_box test_nonce test_encrypter_public
                     (test_private_key ++ line_end))],
     Ret testEjson_decrypted).
Proof. vm_compute. reflexivity. Qed.

Lemma plain_document_unchanged_witness :
  processObjectFields doc_plain test_private_key = ([], Ret doc_plain).
Proof. apply (plain_document_unchanged doc_plain test_private_key). reflexivity. Defined.

Lemma underscore_value_retained_witness :
  get testEjson_decrypted "_public_key" = Some (JStr test_public_key).
Proof.
  apply (underscore_value_retained
           [("_public_key", JStr test_public_key); ("test_secret", JStr test_secret)]%string
           test_private_key "_public_key" (JStr test_public_key)
           test_walk_log testEjson_decrypted);
    [reflexivity | reflexivity | reflexivity | exact processObjectFields_test].
Defined.

Lemma keys_of_result_witness :
  is_object testEjson_decrypted /\
  forall k, get testEjson_decrypted k <> None <->
            (get testEjson k <> None \/
             (get testEjson (String "_" k) <> None /\ inherited k = false)).
Proof.
  apply (keys_of_result
           [("_public_key", JStr test_public_key); ("test_secret", JStr test_secret)]%string
           test_private_key test_walk_log testEjson_decrypted).
  exact processObjectFields_test.
Defined.

Lemma NoDup_two (a b : string) : a <> b -> NoDup [a; b].
Proof.
  intros H. constructor; [intros [E|[]]; congruence|].
  constructor; [intros []|constructor].
Qed.

Lemma token_replaced_witness :
  exists t p, parseEncryptedValue test_secret = Ok t /\
              decrypt (box t) (nonce t) (encrypterPublic t) test_private_key = Ok p /\
              In (Decrypt (box t) (nonce t) (encrypterPublic t) test_private_key) test_walk_log /\
              (p <> ""%string -> get testEjson_decrypted "test_secret" = Some (JStr p)).
Proof.
  apply (token_replaced
           [("_public_key", JStr test_public_key); ("test_secret", JStr test_secret)]%string
           test_private_key "test_secret" test_secret test_walk_log testEjson_decrypted);
    [apply NoDup_two; discriminate | reflexivity | reflexivity | reflexivity
    | exact processObjectFields_test].
Defined.

Lemma private_key_trailing_text_witness :
  decrypt test_box test_nonce test_encrypter_public (test_private_key ++ line_end)
  = decrypt test_box test_nonce test_encrypter_public test_private_key /\
  encrypt test_box test_nonce test_encrypter_public (test_private_key ++ line_end)
  = encrypt test_box test_nonce test_encrypter_public test_private_key.
Proof.
  apply (private_key_trailing_text _ _ _ test_private_key line_end); reflexivity.
Defined.

Lemma test_key_pairs :
  keypair sender_public_key_b64 sender_private_key /\
  keypair test_public_key_b64 test_private_key /\
  agreement (Buffer_from_hex sender_private_key) (Buffer_from_hex test_private_key).
Proof.
  split; [split; vm_compute; reflexivity|].
  split; [split; vm_compute; reflexivity|].
  vm_compute. reflexivity.
Qed.

Lemma sealed_value_is_decrypted_witness :
  exists sealed,
    encrypt testSecretValue test_nonce test_public_key_b64 sender_private_key = Ok sealed /\
    processObjectFields
      (JObj [("secret"%string, JStr (token_text "1" sender_public_key_b64 test_nonce sealed))])
      test_private_key =
    ([Parse (token_text "1" sender_public_key_b64 test_nonce sealed);
      Decrypt sealed test_nonce sender_public_key_b64 test_private_key],
     Ret (JObj [("secret"%string, JStr testSecretValue)])).
Proof.
  apply (sealed_value_is_decrypted testSecretValue test_nonce sender_public_key_b64
           sender_private_key test_public_key_b64 test_private_key "secret" "1");
    [reflexivity | reflexivity | reflexivity | reflexivity | reflexivity | reflexivity
    | reflexivity | exact (proj1 test_key_pairs) | exact (proj1 (proj2 test_key_pairs))
    | exact (proj2 (proj2 test_key_pairs)) | reflexivity].
Defined.

Lemma token_field_sizes_witness :
  (length (Buffer_from_base64 test_nonce) = 24%nat <-> unpadded test_nonce = 32%nat) /\
  (length (Buffer_from_base64 test_encrypter_public) = 32%nat <->
   unpadded test_encrypter_public = 43%nat).
Proof. exact (token_field_sizes test_secret _ parseEncryptedValue_test). Defined.

Lemma nested_value_walked_witness :
  exists l' r', processObjectFields doc_falsy_sibling test_private_key = (l', Ret r') /\
                get (JObj [("env", JStr "test");
                           ("inner", JObj [("_x", JStr "v"); ("x", JStr "v")])])%string "inner"
                = Some r'.
Proof.
  apply (nested_value_walked
           [("env", JStr "test"); ("inner", doc_falsy_sibling)]%string
           test_private_key "inner" doc_falsy_sibling []
           (JObj [("env", JStr "test");
                  ("inner", JObj [("_x", JStr "v"); ("x", JStr "v")])])%string);
    [apply NoDup_two; discriminate | reflexivity | reflexivity | exact I | reflexivity].
Defined.

(** ** Numbers, booleans, [null], and arrays (C7) *)

Lemma get_set_other_any (c : value) (key : string) (x : value) (k : string) :
  k <> key -> get (set c key x) k = get c k.
Proof.
  intros Hne. destruct c as [|b|n|s|elems|fields]; try reflexivity.
  - cbn [set]. destruct (lookup (indexed elems) key); [|reflexivity].
    unfold get. cbn [own_props]. rewrite indexed_replace.
    apply lookup_replace_other. exact Hne.
  - apply get_set_other. exact Hne.
Qed.

Lemma string_cons_neq (a : ascii) (k : string) : String a k <> k.
Proof.
  revert a; induction k as [|b k IH]; intros a; [discriminate|].
  intros [= _ E]. exact (IH b E).
Qed.

Lemma underscore_prefix (k : string) : startsWith (String "_" k) "_" = true.
Proof. destruct k; reflexivity. Qed.

(** A step leaves the value at [k] alone, unless it is the step at [k]
    on a string or a container, or the step at [_k] on a falsy value. *)
Lemma body_keeps_value (recur : value -> M value) (pk : string) (c : value) (key k : string)
  (w : value) (l : list event) (c' : value) :
  (forall l r, recur JNull = (l, Ret r) -> r = JNull) ->
  get c k = Some w ->
  (truthy w = true \/ key <> String "_" k) ->
  (key <> k \/ non_string_scalar w = true) ->
  body recur pk c key = (l, Ret c') -> get c' k = Some w.
Proof.
  intros Hnull Hg Halias Hstep.
  destruct (String.eqb_spec key k) as [->|Hne].
  - destruct Hstep as [Hstep|Hw]; [congruence|].
    unfold body. destruct (startsWith k "_") eqn:Hk.
    + assert (Hs : k <> slice1 k).
      { intros E. apply startsWith_underscore in Hk. rewrite <- E in Hk.
        symmetry in Hk. exact (string_cons_neq _ _ Hk). }
      rewrite Hg. destruct (negb _); intros [= _ <-]; [|exact Hg].
      rewrite get_set_other_any; assumption.
    + rewrite Hg. destruct w as [|b|n|s|elems|fields]; try discriminate Hw.
      * intros H. apply mbind_Ret_inv in H. destruct H as (l1 & x & l2 & Hr & Hs & _).
        apply Hnull in Hr. subst x. unfold ret in Hs. injection Hs as _ <-.
        rewrite (set_get_same c k JNull Hg). exact Hg.
      * intros [= _ <-]. exact Hg.
      * intros [= _ <-]. exact Hg.
  - intros H. apply body_Ret_inv in H.
    destruct H as [[_ ->] | [(x & _ & Hk & Hf & _ & ->)
                           | [(s & t & p & _ & _ & _ & _ & _ & _ & ->)
                             | (child & x & _ & _ & _ & ->)]]].
    + exact Hg.
    + rewrite get_set_other_any; [exact Hg|].
      intros E. unfold truthy_get in Hf. rewrite <- E, Hg in Hf.
      apply startsWith_underscore in Hk. rewrite <- E in Hk.
      destruct Halias; congruence.
    + rewrite get_set_other_any; [exact Hg | congruence].
    + rewrite get_set_other_any; [exact Hg | congruence].
Qed.

Lemma for_in_keeps_value (recur : value -> M value) (pk : string) (keys : list string)
  (c : value) (k : string) (w : value) (l : list event) (c' : value) :
  (forall l r, recur JNull = (l, Ret r) -> r = JNull) ->
  get c k = Some w ->
  (truthy w = true \/ ~ In (String "_" k) keys) ->
  (~ In k keys \/ non_string_scalar w = true) ->
  for_in (body recur pk) keys c = (l, Ret c') -> get c' k = Some w.
Proof.
  intros Hnull. revert c l; induction keys as [|key keys IH]; intros c l Hg Ha Hs;
    cbn [for_in].
  - intros [= _ <-]. exact Hg.
  - intros H. apply mbind_Ret_inv in H. destruct H as (l1 & c1 & l2 & H1 & H2 & _).
    apply (IH c1 l2); [| | |exact H2].
    + apply (body_keeps_value recur pk c key k w l1 c1 Hnull Hg); [| |exact H1].
      * destruct Ha as [Ha|Ha]; [left; exact Ha|].
        right. intros E. apply Ha. left. exact E.
      * destruct Hs as [Hs|Hs]; [|right; exact Hs].
        left. intros E. apply Hs. left. exact E.
    + destruct Ha as [Ha|Ha]; [left; exact Ha|].
      right. intros E. apply Ha. right. exact E.
    + destruct Hs as [Hs|Hs]; [|right; exact Hs].
      left. intros E. apply Hs. right. exact E.
Qed.

Lemma set_is_arr (c : value) (k : string) (v : value) :
  Store.is_arr (set c k v) = Store.is_arr c.
Proof.
  destruct c as [|b|n|s|elems|fields]; cbn [set]; try reflexivity.
  - destruct (lookup (indexed elems) k); reflexivity.
  - destruct (lookup fields k); reflexivity.
Qed.

Lemma for_in_is_arr (recur : value -> M value) (pk : string) (keys : list string)
  (c : value) (l : list event) (c' : value) :
  for_in (body recur pk) keys c = (l, Ret c') -> Store.is_arr c' = Store.is_arr c.
Proof.
  revert c l; induction keys as [|key keys IH]; intros c l; cbn [for_in].
  - intros [= _ <-]. reflexivity.
  - intros H. apply mbind_Ret_inv in H. destruct H as (l1 & c1 & l2 & H1 & H2 & _).
    rewrite (IH _ _ H2). apply body_Ret_inv in H1.
    destruct H1 as [[_ ->] | [(x & _ & _ & _ & _ & ->)
                            | [(s & t & p & _ & _ & _ & _ & _ & _ & ->)
                              | (child & x & _ & _ & _ & ->)]]];
      [reflexivity | apply set_is_arr ..].
Qed.

Lemma NoDup_index_keys (n m : nat) :
  NoDup (map (fun i => index_key (N.of_nat i)) (seq n m)).
Proof.
  revert n; induction m as [|m IH]; intros n; cbn [seq map]; constructor; [|apply IH].
  intros H. apply in_map_iff in H. destruct H as (j & E & Hj).
  apply index_key_inj in E. apply Nat2N.inj in E. apply in_seq in Hj. lia.
Qed.

Lemma array_keys_no_underscore (elems : list value) (k : string) :
  ~ In (String "_" k) (for_in_keys (JArr elems)).
Proof.
  rewrite for_in_keys_array. intros H. apply in_map_iff in H. destruct H as (j & E & _).
  pose proof (index_key_no_underscore (N.of_nat j)) as K.
  rewrite E, underscore_prefix in K. discriminate.
Qed.

(** C7 (as amended).  A document that is a number, a boolean or [null] is
    returned as it is, without a call of the parser or the codec.  In the
    document returned for a mapping or an array, a number, a boolean or
    [null] under a key is under that key unchanged, provided it is truthy
    or there is no key [_key] beside it (a falsy one beside [_key] is
    replaced by the default).  An array is not left alone: it is walked
    like a mapping, by index, and an element that is a string prefixed by
    [EJ[] is parsed, decrypted with the walker's key and replaced by the
    plaintext in the returned array. *)
Theorem C7_scalars_untouched_arrays_walked :
  (forall v pk,
     non_string_scalar v = true -> processObjectFields v pk = ([], Ret v)) /\
  (forall c pk k v l r,
     get c k = Some v -> non_string_scalar v = true ->
     (truthy v = true \/ get c (String "_" k) = None) ->
     processObjectFields c pk = (l, Ret r) ->
     get r k = Some v) /\
  (forall elems pk i s l r,
     nth_error elems i = Some (JStr s) -> startsWith s "EJ[" = true ->
     processObjectFields (JArr elems) pk = (l, Ret r) ->
     exists t p elems',
       parseEncryptedValue s = Ok t /\
       decrypt (box t) (nonce t) (encrypterPublic t) pk = Ok p /\
       In (Parse s) l /\
       In (Decrypt (box t) (nonce t) (encrypterPublic t) pk) l /\
       r = JArr elems' /\ nth_error elems' i = Some (JStr p)).
Proof.
  split; [|split].
  - intros v pk Hv. destruct v; try discriminate Hv; reflexivity.
  - intros c pk k v l r Hg Hv Ha H. unfold processObjectFields in H. rewrite walk_S in H.
    apply (for_in_keeps_value (fun u => walk (depth c) u pk) pk (for_in_keys c) c k v l r);
      [intros l0 r0; apply walk_null | exact Hg | | right; exact Hv | exact H].
    destruct Ha as [Ha|Ha]; [left; exact Ha|]. right. intros Hin.
    apply lookup_in_keys in Hin. exact (Hin Ha).
  - intros elems pk i s l r Hn Hs H. unfold processObjectFields in H. rewrite walk_S in H.
    set (k := index_key (N.of_nat i)).
    assert (Hg : get (JArr elems) k = Some (JStr s)).
    { unfold get, k. cbn [own_props]. rewrite lookup_indexed. exact Hn. }
    assert (Hin : In k (for_in_keys (JArr elems))).
    { apply lookup_in_keys. unfold get in Hg. congruence. }
    pose proof (array_keys_no_underscore elems k) as Hund.
    pose proof (NoDup_index_keys 0 (length elems)) as Hnd.
    rewrite <- for_in_keys_array in Hnd.
    destruct (in_split _ _ Hin) as (pre & post & E).
    rewrite E in H, Hnd, Hund. apply NoDup_remove_2 in Hnd.
    rewrite for_in_app in H. apply mbind_Ret_inv in H.
    destruct H as (l1 & c1 & l2 & H1 & H2 & ->).
    cbn [for_in] in H2. apply mbind_Ret_inv in H2.
    destruct H2 as (l3 & c2 & l4 & H3 & H4 & ->).
    assert (Hg1 : get c1 k = Some (JStr s)).
    { apply (for_in_keeps_value (fun v => walk (depth (JArr elems)) v pk) pk pre
               (JArr elems) k (JStr s) l1 c1);
        [intros l0 r0; apply walk_null | exact Hg | left; apply token_truthy; exact Hs
        | | exact H1].
      left. intros Hi. apply Hnd. apply in_or_app. left. exact Hi. }
    destruct (body_token _ _ _ _ _ _ _ (index_key_no_underscore _) Hg1 Hs H3)
      as (t & p & Hp & Hd & -> & ->).
    assert (Hg2 : get (set c1 k (JStr p)) k = Some (JStr p)).
    { assert (Ha1 : Store.is_arr c1 = true) by (rewrite (for_in_is_arr _ _ _ _ _ _ H1); reflexivity).
      destruct c1 as [|b|n|s1|elems1|fields1]; try discriminate Ha1.
      unfold get in Hg1. cbn [own_props] in Hg1. cbn [set]. rewrite Hg1.
      unfold get. cbn [own_props]. rewrite indexed_replace.
      eapply lookup_replace_same. exact Hg1. }
    assert (Hgr : get r k = Some (JStr p)).
    { apply (for_in_keeps_value (fun v => walk (depth (JArr elems)) v pk) pk post
               (set c1 k (JStr p)) k (JStr p) l4 r);
        [intros l0 r0; apply walk_null | exact Hg2 | | | exact H4].
      - right. intros Hi. apply Hund. apply in_or_app. right. right. exact Hi.
      - left. intros Hi. apply Hnd. apply in_or_app. right. exact Hi. }
    assert (Har : Store.is_arr r = true).
    { rewrite (for_in_is_arr _ _ _ _ _ _ H4), set_is_arr, (for_in_is_arr _ _ _ _ _ _ H1).
      reflexivity. }
    destruct r as [|b|n|s1|elems'|fields']; try discriminate Har.
    exists t, p, elems'. split; [exact Hp|]. split; [exact Hd|]. split; [|split; [|split]].
    + apply in_or_app. right. apply in_or_app. left. left. reflexivity.
    + apply in_or_app. right. apply in_or_app. left. right. left. reflexivity.
    + reflexivity.
    + unfold get, k in Hgr. cbn [own_props] in Hgr. rewrite lookup_indexed in Hgr. exact Hgr.
Qed.

(** The falsy case: a zero beside a default is replaced by it. *)
Example zero_replaced_by_default_test :
  processObjectFields doc_zero_with_default test_private_key
  = ([], Ret (JObj [("_n", JNum 5); ("n", JNum 5)])%string).
Proof. reflexivity. Qed.

Lemma processObjectFields_array_test :
  processObjectFields array_with_token test_private_key
  = (test_walk_log, Ret (JArr [JNum 7; JStr testSecretValue])).
Proof. vm_compute. reflexivity. Qed.

Lemma C7_scalars_untouched_arrays_walked_witness :
  get doc_number_with_default "n" = Some (JNum 7) /\
  exists t p elems',
    parseEncryptedValue test_secret = Ok t /\
    decrypt (box t) (nonce t) (encrypterPublic t) test_private_key = Ok p /\
    In (Parse test_secret) test_walk_log /\
    In (Decrypt (box t) (nonce t) (encrypterPublic t) test_private_key) test_walk_log /\
    JArr [JNum 7; JStr testSecretValue] = JArr elems' /\
    nth_error elems' 1 = Some (JStr p).
Proof.
  split.
  - apply (proj1 (proj2 C7_scalars_untouched_arrays_walked)
             doc_number_with_default test_private_key "n"%string (JNum 7) []
             doc_number_with_default);
      [reflexivity | reflexivity | left; reflexivity | reflexivity].
  - apply (proj2 (proj2 C7_scalars_untouched_arrays_walked)
             [JNum 7; JStr test_secret] test_private_key 1%nat test_secret
             test_walk_log (JArr [JNum 7; JStr testSecretValue]));
      [reflexivity | reflexivity | exact processObjectFields_array_test].
Defined.
